(** * mcpdd: the monitoring engine of [server.js] and [prober.js]

    A shallow embedding of the probe classification ([prober.js]), of the
    history store, the short-circuit scheduler and the aggregator
    ([server.js]), with the properties of the specification proved on it.

    Conventions of the embedding.
    - JavaScript strings are [string]; health statuses, auth statuses and
      colours stay strings, as in the source, and the object literals used
      as lookup tables ([STATUS_PRIORITY], [statusToColor], [colorPriority])
      are finite maps looked up by own key. A status that names a member
      of [Object.prototype] (such as ["constructor"]), which the source
      would find on the literal, is outside the model; the five health
      statuses are not affected.
    - [Date.now()] values, durations and counts are integers ([Z], [nat]).
    - [null] is [None].
    - The numbers the uptime percentages are computed with are rationals:
      in [buildRemoteDetail] and in the status response the arithmetic is
      exact, in [uptimePercent_binary64] every quotient and product is
      rounded to the nearest double, as the runtime rounds it.
    - The [history] Map is a [gmap string (list CheckResult)]; the arrays it
      holds are never shared between keys, so updating the map entry models
      the in-place [push]/[shift].
    - [console.log] output is not modelled. *)

From Stdlib Require Import ZArith QArith Qround Qabs Qpower Lqa String List Lia.
From Stdlib Require SpecFloat.
From stdpp Require Import base option list sorting gmap strings pretty.

Local Open Scope string_scope.
Local Open Scope list_scope.
Local Open Scope Z_scope.

(** ** Health statuses and the worst-of reduction ([server.js], 239-250) *)

Module Status.

(** [const STATUS_PRIORITY = { down: 0, unhealthy: 1, degraded: 2,
    healthy: 3, unknown: 4 }] *)
Definition STATUS_PRIORITY : gmap string Z :=
  {[ "down" := 0; "unhealthy" := 1; "degraded" := 2; "healthy" := 3;
     "unknown" := 4 ]}.

(** [STATUS_PRIORITY[s] ?? 4] *)
Definition priority (s : string) : Z := default 4 (STATUS_PRIORITY !! s).

(** One iteration of the loop of [worstStatus]. *)
Definition worse (worst s : string) : string :=
  if bool_decide (priority s < priority worst) then s else worst.

(** [function worstStatus(statuses)]: [let worst = 'unknown'], then the
    [for ... of] loop. *)
Definition worstStatus (statuses : list string) : string :=
  foldl worse "unknown" statuses.

(** The five health statuses, written worst first. *)
Definition STATUSES : list string :=
  ["down"; "unhealthy"; "degraded"; "healthy"; "unknown"].

(** [a] is strictly worse than [b]. *)
Definition status_lt (a b : string) : Prop := priority a < priority b.

End Status.

(** ** JavaScript values and promises used by the prober *)

Module Js.

(** A value that is not a number, seen through the two conversions the
    code applies to [err.code]: [Number(v)], which the comparisons [>=]
    and [<] with a number compare ([None] when it is [NaN], as for a text
    that is not numeric; the numbers are integers here, as status codes
    are), and [String(v)], which a template literal inserts. *)
Record Coerced := {
  to_Number : option Z;
  to_Text : string
}.

(** A thrown value, seen through the properties the code reads:
    [err.message] ([None] when undefined); [err.code], in [code] when it
    is a number (an integer here) and otherwise in [code_other] ([None]
    when it is undefined), which is read only when [code] is [None];
    [err.constructor?.name], [err.cause?.code] and [String(err)]. *)
Record JsError := {
  message : option string;
  code : option Z;
  code_other : option Coerced;
  constructor_name : option string;
  cause_code : option string;
  to_String : string
}.

(** [Number(err.code)], as [code >= lo] and [code < hi] convert the code:
    the number itself, what another value converts to, [None] for
    [NaN]. *)
Definition code_Number (err : JsError) : option Z :=
  match code err with
  | Some c => Some c
  | None => code_other err ≫= to_Number
  end.

(** [`${err.code}`] inside a template literal. *)
Definition code_String (err : JsError) : string :=
  match code err with
  | Some c => pretty c
  | None => from_option to_Text "undefined" (code_other err)
  end.

(** [msg.includes(sub)] *)
Fixpoint includes (msg sub : string) : bool :=
  String.prefix sub msg ||
  match msg with
  | EmptyString => false
  | String _ rest => includes rest sub
  end.

(** [err.message || String(err)]: an undefined or empty message is
    falsy. *)
Definition message_or_String (err : JsError) : string :=
  match message err with
  | Some m => if String.eqb m "" then to_String err else m
  | None => to_String err
  end.

(** [`${err.message}`] inside a template literal. *)
Definition message_text (err : JsError) : string :=
  default "undefined" (message err).

(** [new Error(msg)] *)
Definition Error (msg : string) : JsError :=
  {| message := Some msg; code := None; code_other := None;
     constructor_name := Some "Error"; cause_code := None;
     to_String := "Error: " +:+ msg |}.

(** How a promise settles. *)
Inductive Settled (A : Type) : Type :=
| Fulfilled (a : A)
| Rejected (e : JsError).
Arguments Fulfilled {A} a.
Arguments Rejected {A} e.

(** An awaited call of the SDK: it settles [took] milliseconds after it
    was issued. *)
Record Timed (A : Type) := { took : Z; settles : Settled A }.
Arguments took {A} _.
Arguments settles {A} _.

(** An [async] computation reads the wall clock ([Date.now()]) it starts
    at and yields how it settles and the clock at that moment. The clock
    advances only while a call is awaited. *)
Definition Async (A : Type) : Type := Z → Settled A * Z.

Definition ret {A} (a : A) : Async A := λ clock, (Fulfilled a, clock).
Definition throw {A} (e : JsError) : Async A := λ clock, (Rejected e, clock).
Definition bind {A B} (m : Async A) (k : A → Async B) : Async B :=
  λ clock,
    match m clock with
    | (Fulfilled a, clock') => k a clock'
    | (Rejected e, clock') => (Rejected e, clock')
    end.
Definition await {A} (call : Timed A) : Async A :=
  λ clock, (settles call, clock + took call).
Definition Date_now : Async Z := λ clock, (Fulfilled clock, clock).

(** [try { body } catch (err) { handler }] *)
Definition try_catch {A} (body : Async A) (handler : JsError → Async A) : Async A :=
  λ clock,
    match body clock with
    | (Fulfilled a, clock') => (Fulfilled a, clock')
    | (Rejected e, clock') => handler e clock'
    end.

(** [try { await call } catch (err) { return ... }] followed by more
    code: the caller branches on how the awaited call settled. *)
Definition attempt {A} (body : Async A) : Async (Settled A) :=
  λ clock, match body clock with (r, clock') => (Fulfilled r, clock') end.

(** [try { body } finally { cleanup }], for a [cleanup] that returns
    nothing: the outcome of [body] stands unless [cleanup] throws. *)
Definition try_finally {A} (body : Async A) (cleanup : Async unit) : Async A :=
  λ clock,
    match body clock with
    | (r, clock') =>
        match cleanup clock' with
        | (Fulfilled _, clock'') => (r, clock'')
        | (Rejected e, clock'') => (Rejected e, clock'')
        end
    end.

(** [await Promise.race([p, timer(ms)])] where the timer settles as
    [late]: [p] wins when it settles strictly before the timer fires. *)
Definition race_timer {A} (p : Async A) (ms : Z) (late : Settled A) : Async A :=
  λ clock,
    match p clock with
    | (r, clock') =>
        if bool_decide (clock' - clock < ms) then (r, clock')
        else (late, clock + ms)
    end.

End Js.

Notation "'let*' x ':=' m 'in' k" := (Js.bind m (λ x, k))
  (at level 10, x binder, m at level 100, k at level 200).

(** ** The prober ([prober.js]) *)

Module Prober.
Import Js.

(** [serverConfig]: [{ url, transport, expectAuth }] *)
Record ServerConfig := {
  url : string;
  transport : string;
  expectAuth : bool
}.

(** What [doProbe] and [classifyConnectError] return: a CheckResult
    without its timestamp. *)
Record ProbeResult := {
  pr_status : string;
  pr_auth : string;
  pr_latencyMs : option Z;
  pr_toolCount : option nat;
  pr_error : option string
}.

(** CheckResult: [{ timestamp, status, auth, latencyMs, toolCount, error }] *)
Record CheckResult := {
  timestamp : Z;
  status : string;
  auth : string;
  latencyMs : option Z;
  toolCount : option nat;
  error : option string
}.

(** [{ timestamp, ...result }] *)
Definition stamp (timestamp : Z) (result : ProbeResult) : CheckResult :=
  {| timestamp := timestamp; status := pr_status result; auth := pr_auth result;
     latencyMs := pr_latencyMs result; toolCount := pr_toolCount result;
     error := pr_error result |}.

(** The transport created for the probe. *)
Inductive TransportKind := SSEClientTransport | StreamableHTTPClientTransport.

(** The answer of [tools/list]: [result.tools] may be missing. *)
Record ListToolsResult := { tools : option (list string) }.

(** What the world outside [prober.js] does during one probe: whether
    [new URL(url)] throws, and how and when the SDK calls [connect],
    [ping], [listTools] and [close] settle. The constructors of the
    transports and of the client do not throw. *)
Record Peer := {
  new_URL : option JsError;
  connect : TransportKind → Timed unit;
  ping : Timed unit;
  listTools : Timed ListToolsResult;
  close : Timed unit
}.

(** The condition of the first [if] of [classifyConnectError]; [===]
    holds of a code that is the number itself only. *)
Definition authDenied (err : JsError) (msg : string) : bool :=
  bool_decide (code err = Some 401) || bool_decide (code err = Some 403) ||
  bool_decide (constructor_name err = Some "UnauthorizedError") ||
  includes msg "401" || includes msg "Unauthorized" ||
  includes msg "403" || includes msg "Forbidden".

(** [code >= lo && code < hi]: a code that is not a number is converted
    to one, and every comparison with [NaN] is false. *)
Definition code_in (err : JsError) (lo hi : Z) : bool :=
  match code_Number err with
  | Some c => bool_decide (lo ≤ c) && bool_decide (c < hi)
  | None => false
  end.

(** The condition of the connection-level branch. *)
Definition connectionLevel (err : JsError) (msg : string) : bool :=
  bool_decide (cause_code err = Some "ECONNREFUSED") ||
  bool_decide (cause_code err = Some "ENOTFOUND") ||
  bool_decide (cause_code err = Some "ECONNRESET") ||
  bool_decide (cause_code err = Some "ETIMEDOUT") ||
  includes msg "fetch failed" || includes msg "ECONNREFUSED" ||
  includes msg "ENOTFOUND".

(** [`HTTP ${code}: ${msg}`] *)
Definition http_error (err : JsError) (msg : string) : string :=
  "HTTP " +:+ code_String err +:+ ": " +:+ msg.

(** [serverConfig.expectAuth ? 'protected' : other] *)
Definition auth_hint (serverConfig : ServerConfig) (other : string) : string :=
  if expectAuth serverConfig then "protected" else other.

(** [function classifyConnectError(err, serverConfig)] *)
Definition classifyConnectError (err : JsError) (serverConfig : ServerConfig)
  : ProbeResult :=
  let msg := message_or_String err in
  if authDenied err msg then
    {| pr_status := "healthy"; pr_auth := "protected"; pr_latencyMs := None;
       pr_toolCount := None; pr_error := None |}
  else if code_in err 500 600 then
    {| pr_status := "down"; pr_auth := auth_hint serverConfig "unknown";
       pr_latencyMs := None; pr_toolCount := None;
       pr_error := Some (http_error err msg) |}
  else if connectionLevel err msg then
    {| pr_status := "down"; pr_auth := auth_hint serverConfig "unknown";
       pr_latencyMs := None; pr_toolCount := None; pr_error := Some msg |}
  else if code_in err 300 500 &&
          negb (bool_decide (code err = Some 401)) &&
          negb (bool_decide (code err = Some 403)) then
    {| pr_status := "unhealthy"; pr_auth := auth_hint serverConfig "open";
       pr_latencyMs := None; pr_toolCount := None;
       pr_error := Some (http_error err msg) |}
  else
    {| pr_status := "unhealthy"; pr_auth := auth_hint serverConfig "open";
       pr_latencyMs := None; pr_toolCount := None; pr_error := Some msg |}.

(** The [finally] block of [doProbe]: [client.close()] raced against a
    3000 ms timer, every error ignored. *)
Definition cleanup (peer : Peer) : Async unit :=
  try_catch
    (race_timer (await (close peer)) 3000 (Fulfilled tt))
    (λ _, ret tt).

(** The [try] block of [doProbe], from the creation of the transport to
    the full-success result. *)
Definition probe_stages (serverConfig : ServerConfig) (peer : Peer)
  : Async ProbeResult :=
  let transport :=
    if String.eqb (transport serverConfig) "sse" then SSEClientTransport
    else StreamableHTTPClientTransport in
  let* _ := await (connect peer transport) in
  let* pingStart := Date_now in
  let* pinged := attempt (await (ping peer)) in
  match pinged with
  | Rejected pingErr =>
      let* now := Date_now in
      ret {| pr_status := "degraded"; pr_auth := "open";
             pr_latencyMs := Some (now - pingStart); pr_toolCount := None;
             pr_error := Some ("ping failed: " +:+ message_text pingErr) |}
  | Fulfilled _ =>
      let* now := Date_now in
      let latencyMs := now - pingStart in
      let* listed := attempt (await (listTools peer)) in
      match listed with
      | Rejected toolsErr =>
          ret {| pr_status := "unhealthy"; pr_auth := "open";
                 pr_latencyMs := Some latencyMs; pr_toolCount := None;
                 pr_error := Some ("tools/list failed: " +:+
                                   message_text toolsErr) |}
      | Fulfilled result =>
          let toolCount :=
            match tools result with
            | Some ts => length ts
            | None => 0%nat
            end in
          ret {| pr_status :=
                   if bool_decide (latencyMs > 2000) then "degraded"
                   else if bool_decide (latencyMs > 500) then "degraded"
                   else "healthy";
                 pr_auth := "open"; pr_latencyMs := Some latencyMs;
                 pr_toolCount := Some toolCount; pr_error := None |}
      end
  end.

(** [async function doProbe(serverConfig)] *)
Definition doProbe (serverConfig : ServerConfig) (peer : Peer)
  : Async ProbeResult :=
  match new_URL peer with
  | Some err => throw err
  | None =>
      try_finally
        (try_catch (probe_stages serverConfig peer)
           (λ err, ret (classifyConnectError err serverConfig)))
        (cleanup peer)
  end.

(** [timeout(ms)] rejects with [new Error(`Probe timed out after ${ms}ms`)]. *)
Definition timeout_error (ms : Z) : JsError :=
  Error ("Probe timed out after " +:+ pretty ms +:+ "ms").

(** [export async function probeServer(serverConfig)], for the value
    [PROBE_TIMEOUT_MS] of the timeout. *)
Definition probeServer (PROBE_TIMEOUT_MS : Z) (serverConfig : ServerConfig)
    (peer : Peer) : Async CheckResult :=
  let* timestamp := Date_now in
  try_catch
    (let* result :=
       race_timer (doProbe serverConfig peer) PROBE_TIMEOUT_MS
         (Rejected (timeout_error PROBE_TIMEOUT_MS)) in
     ret (stamp timestamp result))
    (λ err,
       ret {| timestamp := timestamp; status := "down";
              auth := auth_hint serverConfig "unknown";
              latencyMs := None; toolCount := None;
              error := Some (message_or_String err) |}).

End Prober.

(** ** The arithmetic of the runtime on doubles *)

Module Binary64.

(** [⌊log2 |x|⌋] for [x] other than 0. *)
Definition binade (x : Q) : Z :=
  let e := Z.log2 (Z.abs (Qnum x)) - Z.log2 (Zpos (Qden x)) in
  if Qle_bool (2 ^ e) (Qabs x) then e else e - 1.

(** The nearest integer, a tie going to the even one. *)
Definition nearest_even (t : Q) : Z :=
  let f := Qfloor t in
  match (t - inject_Z f ?= 1 # 2)%Q with
  | Lt => f
  | Gt => f + 1
  | Eq => if Z.even f then f else f + 1
  end.

(** The exponent of the unit in the last place of the doubles near [x]:
    a double has 53 significant bits, and below [2^-1022] the doubles are
    [2^-1074] apart. *)
Definition ulp_exponent (x : Q) : Z := Z.max (binade x - 52) (-1074).

(** The double nearest to [x], a tie going to the one with the even
    significand: the rounding of every arithmetic operation of the
    runtime. Past the largest double the runtime gives [Infinity], which
    is no value here; the numbers rounded in this file stay below
    10001. *)
Definition round (x : Q) : Q :=
  (inject_Z (nearest_even (x / 2 ^ ulp_exponent x)) * 2 ^ ulp_exponent x)%Q.

(** [x / y] and [x * y] on doubles: the exact result, rounded. *)
Definition div (x y : Q) : Q := round (x / y).
Definition mul (x y : Q) : Q := round (x * y).

(** The doubles of the Standard Library ([SpecFloat], with 53 bits of
    precision and exponents below 1024), to compare [div] and [mul]
    with: the double of an integer, and the value of a finite double. *)
Definition of_Z (z : Z) : SpecFloat.spec_float :=
  SpecFloat.binary_normalize 53 1024 z 0 false.

Definition to_Q (f : SpecFloat.spec_float) : option Q :=
  match f with
  | SpecFloat.S754_zero _ => Some 0%Q
  | SpecFloat.S754_finite s m e =>
      let v := (inject_Z (Zpos m) * 2 ^ e)%Q in
      Some (if s then (- v)%Q else v)
  | _ => None
  end.

(** The Standard Library's double [f] has the value [x]. *)
Definition agrees (f : SpecFloat.spec_float) (x : Q) : bool :=
  match to_Q f with
  | Some q => Qeq_bool q x
  | None => false
  end.

End Binary64.

(** ** The history store, the scheduler and the aggregator ([server.js]) *)

Module Server.
Import Js Status.
Export Prober (CheckResult, timestamp, status, auth, latencyMs, toolCount, error).

(** One entry of [provider.remotes]. *)
Record Remote := {
  url : string;
  transport : string;
  expectAuth : bool;
  remoteName : string
}.

(** One entry of [providers]. *)
Record Provider := {
  registryName : string;
  registryVersion : string;
  displayName : string;
  sseOnly : bool;
  remotes : list Remote
}.

(** [const HISTORY_MAX_AGE_MS = 24 * 60 * 60 * 1000] *)
Definition HISTORY_MAX_AGE_MS : Z := 24 * 60 * 60 * 1000.

(** [function historyKey(registryName, url)] *)
Definition historyKey (registryName url : string) : string :=
  registryName +:+ "|" +:+ url.

(** *** History store *)

(** The loop [while (checks.length > 0 && checks[0].timestamp < cutoff)
    checks.shift()] of [recordResult]. *)
Fixpoint trim (cutoff : Z) (checks : list CheckResult) : list CheckResult :=
  match checks with
  | [] => []
  | first :: rest =>
      if bool_decide (timestamp first < cutoff) then trim cutoff rest
      else checks
  end.

(** [function recordResult(registryName, url, result, cutoff)] *)
Definition recordResult (registryName url : string) (result : CheckResult)
    (cutoff : Z) (history : gmap string (list CheckResult))
  : gmap string (list CheckResult) :=
  let key := historyKey registryName url in
  match history !! key with
  | None => history
  | Some checks => <[key := trim cutoff (checks ++ [result])]> history
  end.

(** What [loadHistory] finds on disk: no file, a file that does not
    parse, or the entries of the parsed object. *)
Inductive HistoryFile :=
| NoFile
| Unparsable
| Parsed (entries : list (string * list CheckResult)).

(** The body of the loop over [Object.entries(data)]. *)
Definition loadEntry (cutoff : Z) (history : gmap string (list CheckResult))
    (entry : string * list CheckResult) : gmap string (list CheckResult) :=
  let '(key, checks) := entry in
  if decide (is_Some (history !! key)) then
    <[key := filter (λ c, timestamp c > cutoff) checks]> history
  else history.

(** [function loadHistory()], reading [Date.now()] as [now]. *)
Definition loadHistory (file : HistoryFile) (now : Z)
    (history : gmap string (list CheckResult)) : gmap string (list CheckResult) :=
  match file with
  | NoFile | Unparsable => history
  | Parsed entries =>
      let cutoff := now - HISTORY_MAX_AGE_MS in
      foldl (loadEntry cutoff) history entries
  end.

(** The store as initialised at start-up: an empty series per remote. *)
Definition initHistory (providers : list Provider) : gmap string (list CheckResult) :=
  foldl (λ history provider,
           foldl (λ history remote,
                    <[historyKey (registryName provider) (url remote) := []]> history)
                 history (remotes provider))
        ∅ providers.

(** *** Scheduler *)

(** The state a provider task runs in: the history store, the wall
    clock, how many numbers [Math.random()] has handed out, and, for the
    statement of the short-circuit policy only, the configurations
    [probeServer] was called with, in order. *)
Record World := {
  history : gmap string (list CheckResult);
  clock : Z;
  drawn : nat;
  probed : list Prober.ServerConfig
}.

Definition set_history (h : gmap string (list CheckResult)) (w : World) : World :=
  {| history := h; clock := clock w; drawn := drawn w; probed := probed w |}.

(** [[a[i], a[j]] = [a[j], a[i]]]. [shuffle] calls it with [i] below the
    length and [j = Math.floor(Math.random() * (i + 1))], which is at most
    [i] for [Math.random()] in [0, 1): both indices are in range. The last
    branch stands for indices out of range, which the code never produces. *)
Definition swap {A} (a : list A) (i j : nat) : list A :=
  match a !! i, a !! j with
  | Some x, Some y => <[i := y]> (<[j := x]> a)
  | _, _ => a
  end.

Section scheduler.
(** The configured per-probe timeout. *)
Variable PROBE_TIMEOUT_MS : Z.
(** What a probe of a configuration started at a given time meets. *)
Variable network : Prober.ServerConfig → Z → Prober.Peer.
(** The successive values of [Math.random()]. *)
Variable Math_random : nat → Q.

(** The loop of [shuffle], from index [i] down to 1. *)
Fixpoint shuffle_from {A} (i : nat) (a : list A) (drawn : nat) : list A * nat :=
  match i with
  | O => (a, drawn)
  | S i' =>
      let j := Z.to_nat (Qfloor (Math_random drawn * inject_Z (Z.of_nat i + 1))) in
      shuffle_from i' (swap a i j) (S drawn)
  end.

(** [function shuffle(arr)] *)
Definition shuffle {A} (arr : list A) (drawn : nat) : list A * nat :=
  shuffle_from (length arr - 1) arr drawn.

(** [async function probeRemote(provider, remote)] *)
Definition probeRemote (provider : Provider) (remote : Remote) (w : World)
  : Settled CheckResult * World :=
  let serverConfig :=
    {| Prober.url := url remote; Prober.transport := transport remote;
       Prober.expectAuth := expectAuth remote |} in
  match Prober.probeServer PROBE_TIMEOUT_MS serverConfig
          (network serverConfig (clock w)) (clock w) with
  | (settled, clock') =>
      (settled, {| history := history w; clock := clock'; drawn := drawn w;
                   probed := probed w ++ [serverConfig] |})
  end.

(** The [for (const remote of shuffled)] loop of [probeMultiRemote]. *)
Fixpoint probeMultiRemote_loop (provider : Provider) (cutoff : Z)
    (shuffled : list Remote) (hitRed : bool) (w : World) : Settled unit * World :=
  match shuffled with
  | [] => (Fulfilled tt, w)
  | remote :: rest =>
      if hitRed then
        let w :=
          set_history
            (recordResult (registryName provider) (url remote)
               {| timestamp := clock w; status := "unknown";
                  auth := if expectAuth remote then "protected" else "unknown";
                  latencyMs := None; toolCount := None;
                  error := Some "short-circuited" |}
               cutoff (history w)) w in
        probeMultiRemote_loop provider cutoff rest hitRed w
      else
        match probeRemote provider remote w with
        | (Rejected e, w) => (Rejected e, w)
        | (Fulfilled result, w) =>
            let w :=
              set_history
                (recordResult (registryName provider) (url remote) result
                   cutoff (history w)) w in
            let hitRed :=
              if String.eqb (status result) "down" then true else hitRed in
            probeMultiRemote_loop provider cutoff rest hitRed w
        end
  end.

(** [async function probeMultiRemote(provider, cutoff)] *)
Definition probeMultiRemote (provider : Provider) (cutoff : Z) (w : World)
  : Settled unit * World :=
  match shuffle (remotes provider) (drawn w) with
  | (shuffled, drawn') =>
      probeMultiRemote_loop provider cutoff shuffled false
        {| history := history w; clock := clock w; drawn := drawn';
           probed := probed w |}
  end.

(** One task of [probeAll]: the closure built for a provider. *)
Definition providerTask (provider : Provider) (cutoff : Z) (w : World)
  : Settled unit * World :=
  match remotes provider with
  | [remote] =>
      match probeRemote provider remote w with
      | (Rejected e, w) => (Rejected e, w)
      | (Fulfilled result, w) =>
          (Fulfilled tt,
           set_history
             (recordResult (registryName provider) (url remote) result
                cutoff (history w)) w)
      end
  | _ => probeMultiRemote provider cutoff w
  end.

End scheduler.

(** *** Aggregator *)

(** [const statusToColor = { healthy: 'green', degraded: 'yellow',
    unhealthy: 'orange', down: 'red', unknown: 'gray' }] *)
Definition statusToColor : gmap string string :=
  {[ "healthy" := "green"; "degraded" := "yellow"; "unhealthy" := "orange";
     "down" := "red"; "unknown" := "gray" ]}.

(** [const colorPriority = { red: 0, orange: 1, yellow: 2, gray: 3,
    green: 4 }] *)
Definition colorPriority : gmap string Z :=
  {[ "red" := 0; "orange" := 1; "yellow" := 2; "gray" := 3; "green" := 4 ]}.

(** [statusToColor[s] || 'gray'] *)
Definition colorOf (s : string) : string := default "gray" (statusToColor !! s).

(** [colorPriority[a] ?? 4] *)
Definition colorRank (a : string) : Z := default 4 (colorPriority !! a).

(** [[...new Set(values)]]: the distinct values, in the order of their
    first occurrence. *)
Definition distinct (values : list string) : list string :=
  foldl (λ set v, if decide (v ∈ set) then set else set ++ [v]) [] values.

(** [.sort((a, b) => (colorPriority[a] ?? 4) - (colorPriority[b] ?? 4))]:
    the sort of the language is stable, and a stable sort has one possible
    result, computed here by insertion. *)
Fixpoint insertByRank (x : string) (sorted : list string) : list string :=
  match sorted with
  | [] => [x]
  | y :: rest =>
      if bool_decide (colorRank x ≤ colorRank y) then x :: sorted
      else y :: insertByRank x rest
  end.

Definition sortByRank (colors : list string) : list string :=
  foldr insertByRank [] colors.

(** [function computeHealthIcons(remoteStatuses)]. The first loop pushes
    [colorsPresent[i]] for [i] below [min(colorsPresent.length, maxIcons)],
    the second pushes [colorsPresent[0]] until [maxIcons] icons are there
    ([colorsPresent] is not empty when it is reached). *)
Definition computeHealthIcons (remoteStatuses : list string) : list string :=
  let maxIcons := Nat.min 3 (length remoteStatuses) in
  if decide (maxIcons = 0%nat) then []
  else
    let colorsPresent := sortByRank (distinct (colorOf <$> remoteStatuses)) in
    let icons := take (Nat.min (length colorsPresent) maxIcons) colorsPresent in
    let icons :=
      match colorsPresent with
      | worst :: _ => icons ++ replicate (maxIcons - length icons) worst
      | [] => icons
      end in
    sortByRank icons.

(** One point of the hourly history: [{ status }]. *)
Record Tick := { tick_status : string }.

(** [function downsampleToHours(checks)], reading [Date.now()] as [now];
    [i] runs from 23 down to 0. *)
Definition downsampleToHours (checks : list CheckResult) (now : Z) : list Tick :=
  (λ i : Z,
     let hourStart := now - (i + 1) * 3600000 in
     let hourEnd := now - i * 3600000 in
     let inHour :=
       filter (λ c, timestamp c >= hourStart ∧ timestamp c < hourEnd) checks in
     if decide (length inHour = 0%nat) then {| tick_status := "unknown" |}
     else {| tick_status := worstStatus (status <$> inHour) |})
  <$> reverse (seqZ 0 24).

(** [Math.round(x)]: the nearest integer, a half rounded up; it is exact
    on the value of a double. *)
Definition Math_round (x : Q) : Z := Qfloor (x + (1 # 2))%Q.

(** The object returned by [buildRemoteDetail]. *)
Record RemoteDetail := {
  d_remoteName : string;
  d_url : string;
  d_transport : string;
  d_status : string;
  d_auth : string;
  d_latencyMs : option Z;
  d_toolCount : option nat;
  d_uptimePercent : option Q;
  d_history : list Tick
}.

(** [function buildRemoteDetail(provider, remote)], over the store
    [history] and with [Date.now()] read as [now]. Its [uptimePercent] is
    computed in exact arithmetic. *)
Definition buildRemoteDetail (history : gmap string (list CheckResult)) (now : Z)
    (provider : Provider) (remote : Remote) : RemoteDetail :=
  let key := historyKey (registryName provider) (url remote) in
  let checks := default [] (history !! key) in
  let latest := last checks in
  let totalChecks := length checks in
  let nonDownChecks := length (filter (λ c, status c ≠ "down") checks) in
  let uptimePercent :=
    if decide (0 < totalChecks)%nat then
      Some (inject_Z
              (Math_round (inject_Z (Z.of_nat nonDownChecks) /
                           inject_Z (Z.of_nat totalChecks) * 10000)) / 100)%Q
    else None in
  {| d_remoteName := remoteName remote;
     d_url := url remote;
     d_transport := transport remote;
     d_status := from_option status "unknown" latest;
     d_auth := from_option auth
                 (if expectAuth remote then "protected" else "unknown") latest;
     d_latencyMs := latest ≫= latencyMs;
     d_toolCount := latest ≫= toolCount;
     d_uptimePercent := uptimePercent;
     d_history := downsampleToHours checks now |}.

(** [uptimePercent] of [buildRemoteDetail] in the arithmetic of the
    runtime: [nonDownChecks / totalChecks], its product with 10000 and the
    quotient by 100 are each rounded to the nearest double ([d_uptimePercent]
    above holds the value of the same expression in exact arithmetic). *)
Definition uptimePercent_binary64 (history : gmap string (list CheckResult))
    (provider : Provider) (remote : Remote) : option Q :=
  let key := historyKey (registryName provider) (url remote) in
  let checks := default [] (history !! key) in
  let totalChecks := length checks in
  let nonDownChecks := length (filter (λ c, status c ≠ "down") checks) in
  if decide (0 < totalChecks)%nat then
    Some (Binary64.div
            (inject_Z
               (Math_round
                  (Binary64.mul
                     (Binary64.div (inject_Z (Z.of_nat nonDownChecks))
                                   (inject_Z (Z.of_nat totalChecks)))
                     10000)))
            100)
  else None.

End Server.

(** ** The vocabulary of the statements *)

Module Spec.
Import Js Status Server.

(** The result of a probe that met an authorization-denied answer. *)
Definition healthy_protected : Prober.ProbeResult :=
  {| Prober.pr_status := "healthy"; Prober.pr_auth := "protected";
     Prober.pr_latencyMs := None; Prober.pr_toolCount := None;
     Prober.pr_error := None |}.

(** Time passes while a call is awaited. *)
Definition time_passes (peer : Prober.Peer) : Prop :=
  (∀ t, 0 ≤ took (Prober.connect peer t)) ∧ 0 ≤ took (Prober.ping peer) ∧
  0 ≤ took (Prober.listTools peer) ∧ 0 ≤ took (Prober.close peer).

(** The probe of [doProbe] settles with [result], and [probeServer]
    returns it, stamped with the time of the call, for every timeout the
    probe stays under. *)
Definition probe_yields (serverConfig : Prober.ServerConfig) (peer : Prober.Peer)
    (clock : Z) (result : Prober.ProbeResult) : Prop :=
  (Prober.doProbe serverConfig peer clock).1 = Fulfilled result ∧
  ∀ T, (Prober.doProbe serverConfig peer clock).2 - clock < T →
       (Prober.probeServer T serverConfig peer clock).1
       = Fulfilled (Prober.stamp clock result).

(** The series is non-decreasing in timestamp. *)
Definition time_ordered (checks : list CheckResult) : Prop :=
  Sorted (λ a b, timestamp a ≤ timestamp b) checks.

(** No entry of the series is older than the cutoff. *)
Definition retained_since (cutoff : Z) (checks : list CheckResult) : Prop :=
  Forall (λ c, cutoff ≤ timestamp c) checks.

(** The series of a store are time ordered and hold nothing older than
    the cutoff. *)
Definition series_ok (cutoff : Z) (history : gmap string (list CheckResult)) : Prop :=
  ∀ key checks, history !! key = Some checks →
    time_ordered checks ∧ retained_since cutoff checks.

(** Every series of the store is time ordered and holds no entry issued
    after [t]. *)
Definition series_upto (t : Z) (history : gmap string (list CheckResult)) : Prop :=
  ∀ key checks, history !! key = Some checks →
    time_ordered checks ∧ Forall (λ c, timestamp c ≤ t) checks.

(** Nothing in the store of the world was issued after its clock. *)
Definition world_ok (w : World) : Prop := series_upto (clock w) (history w).

(** The series of the remotes [rs] of the provider hold no entry older
    than the cutoff. *)
Definition retained_for (cutoff : Z) (provider : Provider) (rs : list Remote)
    (history : gmap string (list CheckResult)) : Prop :=
  ∀ remote checks,
    remote ∈ rs →
    history !! historyKey (registryName provider) (url remote) = Some checks →
    retained_since cutoff checks.

(** The configuration [probeRemote] passes to [probeServer]. *)
Definition config_of (remote : Remote) : Prober.ServerConfig :=
  {| Prober.url := url remote; Prober.transport := transport remote;
     Prober.expectAuth := expectAuth remote |}.

(** [recordResult] for a remote of the provider, in the world. *)
Definition record (provider : Provider) (cutoff : Z) (remote : Remote)
    (result : CheckResult) (w : World) : World :=
  set_history
    (recordResult (registryName provider) (url remote) result cutoff (history w)) w.

(** The synthetic result recorded for a remote that is skipped at time
    [now]. *)
Definition short_circuited (remote : Remote) (now : Z) : CheckResult :=
  {| timestamp := now; status := "unknown";
     auth := if expectAuth remote then "protected" else "unknown";
     latencyMs := None; toolCount := None; error := Some "short-circuited" |}.

Section probing.
Variable PROBE_TIMEOUT_MS : Z.
Variable network : Prober.ServerConfig → Z → Prober.Peer.

(** The remotes of the list were probed one after the other, each result
    recorded, from world [w] to world [w']. *)
Inductive probed_in_turn (provider : Provider) (cutoff : Z)
  : list Remote → World → list CheckResult → World → Prop :=
| probed_none w : probed_in_turn provider cutoff [] w [] w
| probed_next remote rest w result w1 results w2 :
    probeRemote PROBE_TIMEOUT_MS network provider remote w
      = (Fulfilled result, w1) →
    probed_in_turn provider cutoff rest (record provider cutoff remote result w1)
      results w2 →
    probed_in_turn provider cutoff (remote :: rest) w (result :: results) w2.

End probing.

(** The series [buildRemoteDetail] reads for a remote. *)
Definition series_of (history : gmap string (list CheckResult))
    (provider : Provider) (remote : Remote) : list CheckResult :=
  default [] (history !! historyKey (registryName provider) (url remote)).

(** Modelled from the spec's words: [round(x, 2)], the value [x] rounded to
    two decimals (a half rounded up, as [Math.round] does). *)
Definition round2 (x : Q) : Q := (inject_Z (Qfloor (x * 100 + (1 # 2))) / 100)%Q.

(** The colours, written worst first. *)
Definition PALETTE : list string := ["red"; "orange"; "yellow"; "gray"; "green"].

(** Modelled from the spec's words: the distinct colours present among
    the statuses, ordered worst to best by the fixed priority. *)
Definition colors_present (statuses : list string) : list string :=
  filter (λ color, color ∈ colorOf <$> statuses) PALETTE.

(** [a] is at least as bad as [b]. *)
Definition rank_le (a b : string) : Prop := colorRank a ≤ colorRank b.

End Spec.

(** ** Concrete probes, stores and providers *)

Module Scenarios.
Import Js Status Server Spec.

(** Two configurations, without and with the auth hint. *)
Definition hinted_open : Prober.ServerConfig :=
  {| Prober.url := "https://mcp.example.com/mcp";
     Prober.transport := "streamable-http"; Prober.expectAuth := false |}.

Definition hinted_protected : Prober.ServerConfig :=
  {| Prober.url := "not a url"; Prober.transport := "sse"; Prober.expectAuth := true |}.

(** A call that succeeds after [ms] milliseconds. *)
Definition settled_ok (ms : Z) : Timed unit :=
  {| took := ms; settles := Fulfilled tt |}.

(** Errors as the SDK and the runtime throw them. *)
Definition http_401 : JsError :=
  {| message := Some "Error POSTing to endpoint (HTTP 401): denied";
     code := Some 401; code_other := None;
     constructor_name := Some "StreamableHTTPError";
     cause_code := None; to_String := "Error: denied" |}.

Definition invalid_URL : JsError :=
  {| message := Some "Invalid URL"; code := None; code_other := None;
     constructor_name := Some "TypeError"; cause_code := None;
     to_String := "TypeError: Invalid URL" |}.

Definition connection_refused : JsError :=
  {| message := Some "fetch failed"; code := None; code_other := None;
     constructor_name := Some "TypeError"; cause_code := Some "ECONNREFUSED";
     to_String := "TypeError: fetch failed" |}.

(** A peer that denies the handshake with HTTP 401. *)
Definition peer_401 : Prober.Peer :=
  {| Prober.new_URL := None;
     Prober.connect := λ _, {| took := 80; settles := Rejected http_401 |};
     Prober.ping := settled_ok 10;
     Prober.listTools :=
       {| took := 10; settles := Fulfilled {| Prober.tools := None |} |};
     Prober.close := settled_ok 5 |}.

(** A peer whose ping fails 37 ms after a successful handshake. *)
Definition peer_ping_fails : Prober.Peer :=
  {| Prober.new_URL := None;
     Prober.connect := λ _, settled_ok 80;
     Prober.ping := {| took := 37; settles := Rejected (Error "socket hang up") |};
     Prober.listTools :=
       {| took := 10; settles := Fulfilled {| Prober.tools := None |} |};
     Prober.close := settled_ok 5 |}.

(** A peer that answers every stage, the ping after [latency] ms. *)
Definition peer_success (latency : Z) (items : list string) : Prober.Peer :=
  {| Prober.new_URL := None;
     Prober.connect := λ _, settled_ok 80;
     Prober.ping := settled_ok latency;
     Prober.listTools :=
       {| took := 25; settles := Fulfilled {| Prober.tools := Some items |} |};
     Prober.close := settled_ok 5 |}.

(** A probe whose URL does not parse. *)
Definition peer_invalid_URL : Prober.Peer :=
  {| Prober.new_URL := Some invalid_URL;
     Prober.connect := λ _, settled_ok 80;
     Prober.ping := settled_ok 10;
     Prober.listTools :=
       {| took := 10; settles := Fulfilled {| Prober.tools := None |} |};
     Prober.close := settled_ok 5 |}.

(** A healthy result issued at [t]. *)
Definition check_at (t : Z) : CheckResult :=
  {| timestamp := t; status := "healthy"; auth := "open"; latencyMs := Some 80;
     toolCount := Some 3%nat; error := None |}.

(** A down result issued at [t]. *)
Definition down_at (t : Z) : CheckResult :=
  {| timestamp := t; status := "down"; auth := "unknown"; latencyMs := None;
     toolCount := None; error := Some "fetch failed" |}.

(** A store whose series for the key ["svc|https://x"] holds an entry
    older than a day and a recent one, and a file with the same series. *)
Definition day_old : Z := 1700000000000 - HISTORY_MAX_AGE_MS - 5000.
Definition an_hour_old : Z := 1700000000000 - 3600000.

Definition store_x : gmap string (list CheckResult) :=
  {[ "svc|https://x" := [check_at day_old; check_at an_hour_old] ]}.

Definition remote_x : Remote :=
  {| url := "https://x"; transport := "streamable-http"; expectAuth := false;
     remoteName := "x" |}.

Definition provider_x : Provider :=
  {| registryName := "svc"; registryVersion := "1.0.0"; displayName := "Svc";
     sseOnly := false; remotes := [remote_x] |}.

(** A series with one down result among three. *)
Definition store_two_of_three : gmap string (list CheckResult) :=
  {[ "svc|https://x" :=
       [check_at 1699999100000; down_at 1699999400000; check_at 1699999700000] ]}.

(** A series of 800 results of which 743 are down, and one of 32 of which
    31 are: the exact percentages, 7.125 and 3.125, lie halfway between
    two values of two decimals. *)
Definition store_57_of_800 : gmap string (list CheckResult) :=
  {[ "svc|https://x" :=
       replicate 743 (down_at 1699999400000) ++
       replicate 57 (check_at 1699999700000) ]}.

Definition store_1_of_32 : gmap string (list CheckResult) :=
  {[ "svc|https://x" :=
       replicate 31 (down_at 1699999400000) ++ [check_at 1699999700000] ]}.

Definition file_x : HistoryFile :=
  Parsed [("svc|https://x", [check_at day_old; check_at an_hour_old])].

(** A provider with three remotes A, B, C, of which B refuses connections,
    and a random source that leaves the order A, B, C. *)
Definition remote_A : Remote :=
  {| url := "https://a.example.com/mcp"; transport := "streamable-http";
     expectAuth := false; remoteName := "a" |}.
Definition remote_B : Remote :=
  {| url := "https://b.example.com/mcp"; transport := "streamable-http";
     expectAuth := false; remoteName := "b" |}.
Definition remote_C : Remote :=
  {| url := "https://c.example.com/sse"; transport := "sse";
     expectAuth := true; remoteName := "c" |}.
Definition provider_ABC : Provider :=
  {| registryName := "com.example/abc"; registryVersion := "1.0.0";
     displayName := "ABC"; sseOnly := false;
     remotes := [remote_A; remote_B; remote_C] |}.

Definition network_B_down (serverConfig : Prober.ServerConfig) (now : Z)
  : Prober.Peer :=
  if String.eqb (Prober.url serverConfig) "https://b.example.com/mcp" then
    {| Prober.new_URL := None;
       Prober.connect := λ _, {| took := 12; settles := Rejected connection_refused |};
       Prober.ping := settled_ok 0;
       Prober.listTools :=
         {| took := 0; settles := Fulfilled {| Prober.tools := None |} |};
       Prober.close := settled_ok 1 |}
  else peer_success 120 ["search"; "fetch"; "read"].

Definition random_three_quarters (n : nat) : Q := (3 # 4)%Q.

Definition world_ABC : World :=
  {| history := initHistory [provider_ABC]; clock := 1700000000000;
     drawn := 0; probed := [] |}.

Definition cutoff_ABC : Z := 1700000000000 - HISTORY_MAX_AGE_MS.

(** The health statuses of the series stored under a key. *)
Definition recorded_statuses (w : World) (key : string) : option (list string) :=
  match history w !! key with
  | Some checks => Some (status <$> checks)
  | None => None
  end.

End Scenarios.

(** ** Persistence, the on-demand probe and the cycle driver ([server.js]) *)

Module Cycle.
Import Js Status Server Spec.

(** [function persistHistory()], when the write succeeds: the file holds
    one entry per key of the store, and [JSON.parse] gives back the records
    [JSON.stringify] wrote. A failed write is logged and changes nothing. *)
Definition persistHistory (history : gmap string (list CheckResult)) : HistoryFile :=
  Parsed (map_to_list history).

Section full_probe.
Variable PROBE_TIMEOUT_MS : Z.
Variable network : Prober.ServerConfig → Z → Prober.Peer.

(** The probes [probeProviderFull] starts with
    [provider.remotes.map(remote => probeRemote(provider, remote))]: all
    are issued at the same reading of the clock and run side by side; each
    is listed with how and when it settles. *)
Definition full_probes (provider : Provider) (now : Z)
  : list (Remote * (Settled CheckResult * Z)) :=
  (λ remote,
     (remote,
      Prober.probeServer PROBE_TIMEOUT_MS (config_of remote)
        (network (config_of remote) now) now))
  <$> remotes provider.

(** The body of [results.forEach((result, i) => ...)]. *)
Definition record_settled (provider : Provider) (cutoff : Z)
    (history : gmap string (list CheckResult))
    (probe : Remote * (Settled CheckResult * Z))
  : gmap string (list CheckResult) :=
  match probe with
  | (remote, (Fulfilled value, _)) =>
      recordResult (registryName provider) (url remote) value cutoff history
  | (_, (Rejected _, _)) => history
  end.

(** [async function probeProviderFull(provider)]: [Promise.allSettled]
    settles when the last probe has settled. *)
Definition probeProviderFull (provider : Provider) (w : World) : World :=
  let cutoff := clock w - HISTORY_MAX_AGE_MS in
  let results := full_probes provider (clock w) in
  {| history := foldl (record_settled provider cutoff) (history w) results;
     clock := foldl Z.max (clock w) ((λ probe, probe.2.2) <$> results);
     drawn := drawn w;
     probed := probed w ++ (config_of <$> remotes provider) |}.

End full_probe.

(** The variables [probeAll] keeps between calls. [lastCheckTime] and
    [nextCheckTime] hold the time of the date whose ISO text the code
    stores; the readings of the clock in one stretch of synchronous code
    are taken as one reading. [running] counts the cycles that have
    started and not yet completed; the code has no such counter, it is
    there to state that cycles do not overlap. *)
Record Driver := {
  probeInProgress : bool;
  skipCount : nat;
  probeStartedAt : option Z;
  lastCheckTime : option Z;
  nextCheckTime : option Z;
  running : nat
}.

(** The state at start-up. *)
Definition driver_init : Driver :=
  {| probeInProgress := false; skipCount := 0; probeStartedAt := None;
     lastCheckTime := None; nextCheckTime := None; running := 0 |}.

(** [probeAll()] up to its [await]: either the call is skipped, or a cycle
    starts with the cutoff it will trim with. *)
Definition probeAll_enter (now : Z) (d : Driver) : Driver * option Z :=
  if probeInProgress d then
    ({| probeInProgress := probeInProgress d; skipCount := S (skipCount d);
        probeStartedAt := probeStartedAt d; lastCheckTime := lastCheckTime d;
        nextCheckTime := nextCheckTime d; running := running d |}, None)
  else
    ({| probeInProgress := true; skipCount := 0; probeStartedAt := Some now;
        lastCheckTime := lastCheckTime d; nextCheckTime := nextCheckTime d;
        running := S (running d) |}, Some (now - HISTORY_MAX_AGE_MS)).

(** [probeAll()] after its [await], once every task has settled. *)
Definition probeAll_complete (PROBE_INTERVAL_MS : Z) (now : Z) (d : Driver) : Driver :=
  {| probeInProgress := false; skipCount := skipCount d; probeStartedAt := None;
     lastCheckTime := Some now; nextCheckTime := Some (now + PROBE_INTERVAL_MS);
     running := pred (running d) |}.

(** What happens to the driver: the timer (or the start-up code) calls
    [probeAll], or the tasks of a started cycle have all settled. *)
Inductive Event :=
| Tick (now : Z)
| Settles (now : Z).

(** One event; a cycle can only complete when one has started. *)
Definition driver_step (PROBE_INTERVAL_MS : Z) (d : Driver) (e : Event)
  : option Driver :=
  match e with
  | Tick now => Some (probeAll_enter now d).1
  | Settles now =>
      if decide (running d = 0%nat) then None
      else Some (probeAll_complete PROBE_INTERVAL_MS now d)
  end.

Fixpoint driver_run (PROBE_INTERVAL_MS : Z) (d : Driver) (events : list Event)
  : option Driver :=
  match events with
  | [] => Some d
  | e :: rest =>
      match driver_step PROBE_INTERVAL_MS d e with
      | Some d' => driver_run PROBE_INTERVAL_MS d' rest
      | None => None
      end
  end.

End Cycle.

(** ** The status response ([server.js], 323-365) *)

Module Snapshot.
Import Js Status Server Spec.

(** [Math.max(...values)] for a list that is not empty. *)
Definition Math_max (values : list Z) : option Z :=
  match values with
  | [] => None
  | first :: rest => Some (foldl Z.max first rest)
  end.

(** [r.history[h]?.status || 'unknown'] *)
Definition tick_or_unknown (ticks : list Tick) (h : nat) : string :=
  match ticks !! h with
  | Some tick => if String.eqb (tick_status tick) "" then "unknown" else tick_status tick
  | None => "unknown"
  end.

(** One entry of [providerList]. *)
Record ProviderSummary := {
  s_registryName : string;
  s_registryVersion : string;
  s_displayName : string;
  s_sseOnly : bool;
  s_aggregateStatus : string;
  s_healthIcons : list string;
  s_remoteCount : nat;
  s_worstLatencyMs : option Z;
  s_uptimePercent : option Q;
  s_history : list Tick;
  s_remotes : list RemoteDetail
}.

(** The body of [providers.map(provider => ...)] in
    [buildStatusResponse]. The call is synchronous: the readings of
    [Date.now()] its calls of [downsampleToHours] take are read as the one
    [now]. *)
Definition buildProviderSummary (history : gmap string (list CheckResult)) (now : Z)
    (provider : Provider) : ProviderSummary :=
  let remoteDetails := buildRemoteDetail history now provider <$> remotes provider in
  let remoteStatuses := d_status <$> remoteDetails in
  let aggregate := worstStatus remoteStatuses in
  let latencies := omap d_latencyMs remoteDetails in
  let worstLatency :=
    if decide (0 < length latencies)%nat then Math_max latencies else None in
  let uptimes := omap d_uptimePercent remoteDetails in
  let avgUptime :=
    if decide (0 < length uptimes)%nat then
      Some (inject_Z
              (Math_round (foldl Qplus 0%Q uptimes /
                           inject_Z (Z.of_nat (length uptimes)) * 100)) / 100)%Q
    else None in
  let aggregateHistory :=
    (λ h, {| tick_status :=
               worstStatus ((λ r, tick_or_unknown (d_history r) h) <$> remoteDetails) |})
    <$> seq 0 24 in
  {| s_registryName := registryName provider;
     s_registryVersion := registryVersion provider;
     s_displayName := displayName provider;
     s_sseOnly := sseOnly provider;
     s_aggregateStatus := aggregate;
     s_healthIcons := computeHealthIcons remoteStatuses;
     s_remoteCount := length (remotes provider);
     s_worstLatencyMs := worstLatency;
     s_uptimePercent := avgUptime;
     s_history := aggregateHistory;
     s_remotes := remoteDetails |}.

(** The object returned by [buildStatusResponse]. *)
Record StatusResponse := {
  lastCheck : option Z;
  nextCheck : option Z;
  providers : list ProviderSummary
}.

(** [function buildStatusResponse()] *)
Definition buildStatusResponse (providerList : list Provider)
    (history : gmap string (list CheckResult)) (driver : Cycle.Driver) (now : Z)
  : StatusResponse :=
  {| lastCheck := Cycle.lastCheckTime driver;
     nextCheck := Cycle.nextCheckTime driver;
     providers := buildProviderSummary history now <$> providerList |}.

End Snapshot.

(** ** The on-demand probe endpoint ([server.js], 413-429) *)

Module Api.
Import Js Status Server Spec.

(** What a handler answers: [res.status(404).json(...)] or [res.json(body)]. *)
Inductive Reply (A : Type) : Type :=
| NotFound
| Json (body : A).
Arguments NotFound {A}.
Arguments Json {A} body.

(** The body sent by [POST /api/server/:registryName/probe]. *)
Record ProbeResponse := {
  p_registryName : string;
  p_displayName : string;
  p_aggregateStatus : string;
  p_remotes : list RemoteDetail
}.

(** [providers.find(p => p.registryName === name)] *)
Definition find_provider (providers : list Provider) (name : string)
  : option Provider :=
  head (filter (λ p, registryName p = name) providers).

Section handler.
Variable PROBE_TIMEOUT_MS : Z.
Variable network : Prober.ServerConfig → Z → Prober.Peer.

(** The handler of [POST /api/server/:registryName/probe], for the decoded
    name [name]; the details are built when the full probe has settled. *)
Definition post_probe (providers : list Provider) (name : string) (w : World)
  : Reply ProbeResponse * World :=
  match find_provider providers name with
  | None => (NotFound, w)
  | Some provider =>
      let w := Cycle.probeProviderFull PROBE_TIMEOUT_MS network provider w in
      let remoteDetails :=
        buildRemoteDetail (history w) (clock w) provider <$> remotes provider in
      let remoteStatuses := d_status <$> remoteDetails in
      (Json {| p_registryName := registryName provider;
               p_displayName := displayName provider;
               p_aggregateStatus := worstStatus remoteStatuses;
               p_remotes := remoteDetails |}, w)
  end.

End handler.

End Api.

(** ** More of the vocabulary of the statements *)

Module Spec2.
Import Js Status Server Spec.

(** The health statuses a probe can report. *)
Definition PROBED_STATUSES : list string :=
  ["healthy"; "degraded"; "unhealthy"; "down"].

(** The auth statuses. *)
Definition AUTH_STATUSES : list string := ["open"; "protected"; "unknown"].

(** What holds of the fields of every result of a probe of an endpoint
    with auth hint [hint]: the health is one a probe can report; an unknown
    auth only comes with health down and no hint; a latency is only there
    after an open handshake; a tool count only with a latency and without
    an error; and a result without an error is healthy or degraded. *)
Definition result_shape (hint : bool) (status auth : string)
    (latencyMs : option Z) (toolCount : option nat) (error : option string) : Prop :=
  status ∈ PROBED_STATUSES ∧ auth ∈ AUTH_STATUSES ∧
  (auth = "unknown" → status = "down" ∧ hint = false) ∧
  (is_Some latencyMs → auth = "open") ∧
  (is_Some toolCount → is_Some latencyMs ∧ error = None) ∧
  (error = None → status = "healthy" ∨ status = "degraded" ∧ is_Some toolCount).

(** The texts that make [classifyConnectError] read an error as an
    authorization denial. *)
Definition AUTH_MARKERS : list string :=
  ["401"; "Unauthorized"; "403"; "Forbidden"].

(** One of the markers occurs in the text. *)
Definition marked (msg : string) : Prop :=
  ∃ marker pre post, marker ∈ AUTH_MARKERS ∧ msg = pre +:+ marker +:+ post.

(** No entry of the series is stale: all are newer than the cutoff. *)
Definition all_newer (cutoff : Z) (checks : list CheckResult) : Prop :=
  Forall (λ c, timestamp c > cutoff) checks.

(** The entries of a series that fall in the hour bucket [k] (0 is the
    oldest, 23 the hour that ends at [now]). *)
Definition bucket (checks : list CheckResult) (now : Z) (k : nat)
  : list CheckResult :=
  filter (λ c, timestamp c >= now - (24 - Z.of_nat k) * 3600000 ∧
               timestamp c < now - (23 - Z.of_nat k) * 3600000) checks.

(** The keys [initHistory] creates. *)
Definition configured_keys (providers : list Provider) : list string :=
  providers ≫= λ provider,
    (λ remote, historyKey (registryName provider) (url remote)) <$> remotes provider.

(** What a restart makes of a series: the entries newer than the cutoff. *)
Definition reloaded (now : Z) (checks : list CheckResult) : list CheckResult :=
  filter (λ c, timestamp c > now - HISTORY_MAX_AGE_MS) checks.

(** The driver is between cycles or in exactly one: the flag, the start
    time and the count of running cycles agree. *)
Definition driver_ok (d : Cycle.Driver) : Prop :=
  (Cycle.running d ≤ 1)%nat ∧
  (Cycle.probeInProgress d = true ↔ Cycle.running d = 1%nat) ∧
  (is_Some (Cycle.probeStartedAt d) ↔ Cycle.probeInProgress d = true).

(** The series under the key ends with a result of a probe issued at
    [now]. *)
Definition freshly_probed (history : gmap string (list CheckResult))
    (key : string) (now : Z) : Prop :=
  ∃ kept result,
    history !! key = Some (kept ++ [result]) ∧
    timestamp result = now ∧ status result ∈ PROBED_STATUSES.

(** The health of the latest stored check of a remote, if there is one. *)
Definition latest_status (history : gmap string (list CheckResult))
    (provider : Provider) (remote : Remote) : option string :=
  status <$> last (series_of history provider remote).

(** The store has a series for every remote of every provider. *)
Definition store_covers (providers : list Provider)
    (history : gmap string (list CheckResult)) : Prop :=
  ∀ provider remote,
    provider ∈ providers → remote ∈ remotes provider →
    is_Some (history !! historyKey (registryName provider) (url remote)).

(** The character [|] does not occur in the string. *)
Definition no_bar (s : string) : Prop :=
  ∀ pre post, s ≠ pre +:+ "|" +:+ post.

End Spec2.

(** ** More concrete probes, stores and providers *)

Module Scenarios2.
Import Js Status Server Spec Scenarios Spec2.

(** A peer whose capability listing fails after a ping of 140 ms. *)
Definition peer_list_fails : Prober.Peer :=
  {| Prober.new_URL := None;
     Prober.connect := λ _, settled_ok 80;
     Prober.ping := settled_ok 140;
     Prober.listTools := {| took := 30; settles := Rejected (Error "Method not found") |};
     Prober.close := settled_ok 5 |}.

(** A peer that answers the listing without a [tools] array, after a ping
    of 2500 ms. *)
Definition peer_no_tools : Prober.Peer :=
  {| Prober.new_URL := None;
     Prober.connect := λ _, settled_ok 80;
     Prober.ping := settled_ok 2500;
     Prober.listTools :=
       {| took := 30; settles := Fulfilled {| Prober.tools := None |} |};
     Prober.close := settled_ok 5 |}.

(** A gateway error whose text happens to hold the digits 403. *)
Definition http_502_marked : JsError :=
  {| message := Some "Bad Gateway (upstream sent 4031 bytes)"; code := Some 502;
     code_other := None; constructor_name := Some "StreamableHTTPError"; cause_code := None;
     to_String := "Error: Bad Gateway (upstream sent 4031 bytes)" |}.

(** A plain server fault. *)
Definition http_503 : JsError :=
  {| message := Some "Service Unavailable"; code := Some 503;
     code_other := None; constructor_name := Some "StreamableHTTPError"; cause_code := None;
     to_String := "Error: Service Unavailable" |}.

(** The same fault with the code as a text, as a relay that copies the
    status line would set it. *)
Definition text_503 : JsError :=
  {| message := Some "Service Unavailable"; code := None;
     code_other := Some {| to_Number := Some 503; to_Text := "503" |};
     constructor_name := Some "Error"; cause_code := None;
     to_String := "Error: Service Unavailable" |}.

(** A series that is not time ordered: a stale entry sits behind a
    fresh one. *)
Definition series_out_of_order : list CheckResult :=
  [check_at an_hour_old; check_at day_old].

(** A store with a second key besides the one of [store_x]. *)
Definition store_xy : gmap string (list CheckResult) :=
  <[ "svc|https://y" := [down_at an_hour_old] ]> store_x.

(** A network on which every endpoint answers every stage. *)
Definition network_all_up (serverConfig : Prober.ServerConfig) (now : Z)
  : Prober.Peer := peer_success 120 ["search"; "fetch"; "read"].

(** A world whose only entry was issued one millisecond inside the
    retention window that ends at 1700000000000. *)
Definition world_nearly_stale : World :=
  {| history :=
       {[ "svc|https://x" :=
            [check_at (1700000000000 - HISTORY_MAX_AGE_MS + 1)] ]};
     clock := 1700000000000; drawn := 0; probed := [] |}.

(** A network that takes about five seconds to answer a probe started
    before 1700000001000, and 230 ms to answer a later one. *)
Definition network_slow_at_first (serverConfig : Prober.ServerConfig) (now : Z)
  : Prober.Peer :=
  if bool_decide (now < 1700000001000) then peer_success 4870 ["search"]
  else peer_success 120 ["search"].

(** An on-demand probe that overlaps a cycle probe of the same endpoint.
    The cycle task of a provider with one remote calls [probeRemote] at
    1700000000000 and awaits it; a second later the handler of
    [POST /api/server/:registryName/probe] runs [probeProviderFull], whose
    probe settles first and is recorded; when the probe of the cycle task
    settles, the task records its result, with the cutoff of its cycle, in
    the store as it then is. *)
Definition overlapped_store : gmap string (list CheckResult) :=
  let w0 := {| history := initHistory [provider_x]; clock := 1700000000000;
               drawn := 0; probed := [] |} in
  let cycle_probe :=
    Server.probeRemote 10000 network_slow_at_first provider_x remote_x w0 in
  let on_demand :=
    Cycle.probeProviderFull 10000 network_slow_at_first provider_x
      {| history := history w0; clock := 1700000001000; drawn := 0;
         probed := [] |} in
  match cycle_probe.1 with
  | Fulfilled result =>
      recordResult (registryName provider_x) (url remote_x) result
        (1700000000000 - HISTORY_MAX_AGE_MS) (history on_demand)
  | Rejected _ => history on_demand
  end.

(** The timestamps of the series stored under a key. *)
Definition recorded_timestamps (history : gmap string (list CheckResult))
    (key : string) : option (list Z) :=
  match history !! key with
  | Some checks => Some (timestamp <$> checks)
  | None => None
  end.

(** A peer whose close never settles. *)
Definition peer_close_hangs : Prober.Peer :=
  {| Prober.new_URL := None;
     Prober.connect := λ _, settled_ok 80;
     Prober.ping := settled_ok 140;
     Prober.listTools :=
       {| took := 30; settles := Fulfilled {| Prober.tools := Some ["search"] |} |};
     Prober.close := settled_ok 86400000 |}.

(** A store for the three remotes of [provider_ABC]: A was healthy an
    hour ago, B was down an hour ago, C has no check yet. *)
Definition store_ABC : gmap string (list CheckResult) :=
  {[ "com.example/abc|https://a.example.com/mcp" := [check_at an_hour_old];
     "com.example/abc|https://b.example.com/mcp" := [down_at an_hour_old];
     "com.example/abc|https://c.example.com/sse" := [] ]}.

End Scenarios2.

(** ** Properties of the worst-of reduction *)

Module StatusFacts.
Import Status.

Lemma priority_cases s :
  (s = "down" ∧ priority s = 0) ∨ (s = "unhealthy" ∧ priority s = 1) ∨
  (s = "degraded" ∧ priority s = 2) ∨ (s = "healthy" ∧ priority s = 3) ∨
  priority s = 4.
Proof.
  unfold priority, STATUS_PRIORITY.
  destruct (decide (s = "down")) as [->|?]; [by left|].
  destruct (decide (s = "unhealthy")) as [->|?]; [by right; left|].
  destruct (decide (s = "degraded")) as [->|?]; [by right; right; left|].
  destruct (decide (s = "healthy")) as [->|?]; [by right; right; right; left|].
  right; right; right; right.
  destruct (decide (s = "unknown")) as [->|?]; [done|].
  rewrite !lookup_insert_ne by done. by rewrite lookup_singleton_ne.
Qed.

Lemma priority_le_4 s : 0 ≤ priority s ≤ 4.
Proof. destruct (priority_cases s) as [[_ ->]|[[_ ->]|[[_ ->]|[[_ ->]| ->]]]]; lia. Qed.

(** Below 4 the priority identifies the status. *)
Lemma priority_inj_below a b :
  priority a = priority b → priority a < 4 → a = b.
Proof.
  intros Hab Ha.
  destruct (priority_cases a) as [[-> Ea]|[[-> Ea]|[[-> Ea]|[[-> Ea]|Ea]]]];
    destruct (priority_cases b) as [[-> Eb]|[[-> Eb]|[[-> Eb]|[[-> Eb]|Eb]]]];
    try done; lia.
Qed.

Lemma priority_inj_statuses a b :
  a ∈ STATUSES → b ∈ STATUSES → priority a = priority b → a = b.
Proof.
  unfold STATUSES. rewrite !elem_of_cons, !elem_of_nil.
  intros Ha Hb; destruct_or!; subst; try done; by vm_compute.
Qed.

Lemma worse_comm w a b : worse (worse w a) b = worse (worse w b) a.
Proof.
  unfold worse. repeat case_bool_decide; try done; try lia.
  apply priority_inj_below; [lia|]. pose proof (priority_le_4 w). lia.
Qed.

Lemma foldl_worse_perm l1 l2 :
  l1 ≡ₚ l2 → ∀ w, foldl worse w l1 = foldl worse w l2.
Proof.
  induction 1 as [|x l1 l2 _ IH|x y l|l1 l2 l3 _ IH1 _ IH2]; intros w; simpl.
  - done.
  - apply IH.
  - by rewrite worse_comm.
  - by rewrite IH1.
Qed.

Lemma worse_priority w s :
  priority (worse w s) = Z.min (priority w) (priority s).
Proof. unfold worse. case_bool_decide; lia. Qed.

Lemma foldl_worse_le_acc l : ∀ w, priority (foldl worse w l) ≤ priority w.
Proof.
  induction l as [|x l IH]; intros w; simpl; [lia|].
  etrans; [apply IH|]. rewrite worse_priority. lia.
Qed.

Lemma foldl_worse_lower_bound l :
  ∀ w s, s ∈ l → priority (foldl worse w l) ≤ priority s.
Proof.
  induction l as [|x l IH]; intros w s Hs; [by apply elem_of_nil in Hs|].
  apply elem_of_cons in Hs as [->|Hs]; simpl; [|by apply IH].
  etrans; [apply foldl_worse_le_acc|]. rewrite worse_priority. lia.
Qed.

Lemma foldl_worse_elem l : ∀ w, foldl worse w l = w ∨ foldl worse w l ∈ l.
Proof.
  induction l as [|x l IH]; intros w; simpl; [by left|].
  destruct (IH (worse w x)) as [->|?]; [|right; by right].
  unfold worse. case_bool_decide; [right; by left|by left].
Qed.

Lemma worstStatus_single x : x ∈ STATUSES → worstStatus [x] = x.
Proof.
  unfold STATUSES. rewrite !elem_of_cons, !elem_of_nil.
  intros Hx; destruct_or!; subst; try done; by vm_compute.
Qed.

(** C1. The worst-of reduction follows the total order
    down < unhealthy < degraded < healthy < unknown: on every list it
    returns a status at least as bad as each element, and for a non-empty
    list of statuses one of its elements. It does not depend on the order
    of the list (in particular worst([a,b,c]) = worst([c,b,a])),
    worst([x]) = x for each of the five statuses, and worst([]) is
    unknown. *)
Theorem worstStatus_total_order_min :
  StronglySorted status_lt STATUSES ∧
  (∀ l s, s ∈ l → priority (worstStatus l) ≤ priority s) ∧
  (∀ l, l ≠ [] → Forall (.∈ STATUSES) l → worstStatus l ∈ l) ∧
  (∀ l1 l2, l1 ≡ₚ l2 → worstStatus l1 = worstStatus l2) ∧
  (∀ a b c, worstStatus [a; b; c] = worstStatus [c; b; a]) ∧
  (∀ x, x ∈ STATUSES → worstStatus [x] = x) ∧
  worstStatus [] = "unknown".
Proof.
  split_and!.
  - unfold STATUSES, status_lt.
    repeat (constructor; [|repeat constructor; by vm_compute]). constructor.
  - intros l s Hs. by apply foldl_worse_lower_bound.
  - intros l Hne Hall. unfold worstStatus.
    destruct (foldl_worse_elem l "unknown") as [E|?]; [|done].
    destruct l as [|y l]; [done|].
    assert (Hy : priority y = 4).
    { pose proof (foldl_worse_lower_bound (y :: l) "unknown" y) as Hle.
      rewrite E in Hle. pose proof (priority_le_4 y).
      specialize (Hle ltac:(by left)). change (priority "unknown") with 4 in Hle. lia. }
    assert (y = "unknown") as ->; [|rewrite E; by left].
    apply priority_inj_statuses; [by inv Hall|unfold STATUSES; set_solver|done].
  - intros l1 l2 Hp. by apply foldl_worse_perm.
  - intros a b c. apply foldl_worse_perm.
    exact (Permutation_rev [a; b; c]).
  - apply worstStatus_single.
  - done.
Qed.

Lemma worstStatus_total_order_min_witness :
  worstStatus ["healthy"; "down"; "degraded"] = "down" ∧
  worstStatus ["degraded"; "down"; "healthy"] = "down" ∧
  worstStatus ["degraded"] = "degraded".
Proof.
  destruct worstStatus_total_order_min as (_ & _ & _ & Hperm & Hrev & Hone & _).
  split_and!.
  - reflexivity.
  - rewrite <- (Hrev "healthy" "down" "degraded"). reflexivity.
  - apply Hone. unfold STATUSES. set_solver.
Defined.

End StatusFacts.

(** ** Properties of the prober *)

Module ProberFacts.
Import Js Prober Spec Scenarios.

(** The cleanup never throws and takes at most 3000 ms of a close that
    takes a non-negative time. *)
Lemma cleanup_fulfils peer clock :
  ∃ clock', cleanup peer clock = (Fulfilled tt, clock').
Proof.
  unfold cleanup, try_catch, race_timer, await, ret.
  case_bool_decide; [|by eexists].
  destruct (settles (close peer)) as [[]|e]; by eexists.
Qed.

Lemma try_finally_cleanup {A} (body : Async A) peer clock :
  (try_finally body (cleanup peer) clock).1 = (body clock).1.
Proof.
  unfold try_finally. destruct (body clock) as [r clock'].
  by destruct (cleanup_fulfils peer clock') as [clock'' ->].
Qed.

(** [doProbe] on a valid URL: the stages, with a failed handshake
    classified. *)
Lemma doProbe_valid_URL serverConfig peer clock :
  new_URL peer = None →
  (doProbe serverConfig peer clock).1 =
  (try_catch (probe_stages serverConfig peer)
     (λ err, ret (classifyConnectError err serverConfig)) clock).1.
Proof. intros Hurl. unfold doProbe. rewrite Hurl. apply try_finally_cleanup. Qed.

Lemma doProbe_invalid_URL serverConfig peer clock err :
  new_URL peer = Some err →
  doProbe serverConfig peer clock = (Rejected err, clock).
Proof. intros Hurl. unfold doProbe. by rewrite Hurl. Qed.

Ltac run_stages :=
  unfold try_catch, probe_stages, bind, attempt, await, Date_now, ret; simpl.

(** A probe that settles with a result before the timer fires is
    returned as it is, stamped with the time of the call. *)
Lemma probeServer_in_time T serverConfig peer clock result clock' :
  doProbe serverConfig peer clock = (Fulfilled result, clock') →
  clock' - clock < T →
  probeServer T serverConfig peer clock = (Fulfilled (stamp clock result), clock').
Proof.
  intros Hprobe Hlt. unfold probeServer, try_catch, bind, race_timer, Date_now, ret.
  rewrite Hprobe. by rewrite bool_decide_true.
Qed.

Lemma probe_yields_intro serverConfig peer clock result :
  (doProbe serverConfig peer clock).1 = Fulfilled result →
  probe_yields serverConfig peer clock result.
Proof.
  intros Hprobe. split; [done|]. intros T Hlt.
  destruct (doProbe serverConfig peer clock) as [settled clock'] eqn:Hrun.
  simpl in *. subst settled. by rewrite (probeServer_in_time _ _ _ _ _ _ Hrun Hlt).
Qed.

Lemma timeout_error_described T : message_or_String (timeout_error T) ≠ "".
Proof. done. Qed.

Lemma authDenied_by_code err msg :
  code err = Some 401 ∨ code err = Some 403 ∨
  constructor_name err = Some "UnauthorizedError" →
  authDenied err msg = true.
Proof.
  unfold authDenied. intros [H|[H|H]]; rewrite H; simpl;
    repeat (rewrite ?orb_true_r, ?orb_true_l; try done).
Qed.

(** C5. A handshake that fails with an authorization-denied error (code
    401 or 403, or the SDK's UnauthorizedError) is classified as
    {health: healthy, auth: protected, latencyMs: null, toolCount: null},
    whatever the auth hint of the endpoint; that is what the probe settles
    with, and what [probeServer] returns when the probe stays under the
    timeout. *)
Theorem auth_denied_healthy_protected err serverConfig :
  code err = Some 401 ∨ code err = Some 403 ∨
  constructor_name err = Some "UnauthorizedError" →
  classifyConnectError err serverConfig = healthy_protected ∧
  ∀ peer clock,
    new_URL peer = None →
    (∀ t, settles (connect peer t) = Rejected err) →
    probe_yields serverConfig peer clock healthy_protected.
Proof.
  intros Hdenied.
  assert (Hc : classifyConnectError err serverConfig = healthy_protected).
  { unfold classifyConnectError. by rewrite authDenied_by_code. }
  split; [done|]. intros peer clock Hurl Hconn. apply probe_yields_intro.
  rewrite doProbe_valid_URL by done. run_stages. by rewrite Hconn, Hc.
Qed.

Lemma auth_denied_healthy_protected_witness :
  (doProbe hinted_open peer_401 1000).1 = Fulfilled healthy_protected ∧
  (probeServer 10000 hinted_open peer_401 1000).1 =
    Fulfilled {| timestamp := 1000; status := "healthy"; auth := "protected";
                 latencyMs := None; toolCount := None; error := None |}.
Proof.
  destruct (proj2 (auth_denied_healthy_protected http_401 hinted_open
                     (or_introl eq_refl)) peer_401 1000) as [Hprobe Hserver].
  - reflexivity.
  - intros t; reflexivity.
  - split; [exact Hprobe|]. apply (Hserver 10000). reflexivity.
Defined.

(** C3 (amended). When the handshake succeeds and the ping fails, the
    probe settles with health degraded, auth open, no tool count, and as
    latency the time that passed between the start of the ping and its
    failure (a number, not null); [probeServer] returns that result when
    the probe stays under the timeout. *)
Theorem ping_failure_degraded_elapsed serverConfig peer clock pingErr :
  new_URL peer = None →
  (∀ t, settles (connect peer t) = Fulfilled tt) →
  settles (ping peer) = Rejected pingErr →
  probe_yields serverConfig peer clock
    {| pr_status := "degraded"; pr_auth := "open";
       pr_latencyMs := Some (took (ping peer)); pr_toolCount := None;
       pr_error := Some ("ping failed: " +:+ message_text pingErr) |}.
Proof.
  intros Hurl Hconn Hping. apply probe_yields_intro.
  rewrite doProbe_valid_URL by done.
  run_stages. rewrite Hconn, Hping. simpl. do 3 f_equal. lia.
Qed.

Lemma ping_failure_degraded_elapsed_witness :
  (probeServer 10000 hinted_open peer_ping_fails 1000).1 =
  Fulfilled {| timestamp := 1000; status := "degraded"; auth := "open";
               latencyMs := Some 37; toolCount := None;
               error := Some "ping failed: socket hang up" |}.
Proof.
  refine (proj2 (ping_failure_degraded_elapsed hinted_open peer_ping_fails 1000
                   (Error "socket hang up") _ _ _) 10000 _).
  - reflexivity.
  - intros t; reflexivity.
  - reflexivity.
  - reflexivity.
Defined.

(** C3 as stated fails: the handshake succeeds, the ping fails after
    37 ms, and the result carries latencyMs = 37, not null. *)
Lemma ping_failure_latency_not_null :
  new_URL peer_ping_fails = None ∧
  (∀ t, settles (connect peer_ping_fails t) = Fulfilled tt) ∧
  (∃ e, settles (ping peer_ping_fails) = Rejected e) ∧
  ∃ result,
    (probeServer 10000 hinted_open peer_ping_fails 1000).1 = Fulfilled result ∧
    status result = "degraded" ∧ auth result = "open" ∧
    latencyMs result = Some 37 ∧ latencyMs result ≠ None.
Proof.
  split_and!; [done|done|by eexists|].
  eexists. split; [by vm_compute|]. by split_and!.
Qed.

(** C4. When handshake, ping and capability listing all succeed and the
    ping took L ms, the probe settles with health healthy if L ≤ 500 and
    degraded for every L > 500 (also above 2000), auth open, latency L
    and as tool count the number of items of the returned list;
    [probeServer] returns that result when the probe stays under the
    timeout. *)
Theorem full_success_latency_bands serverConfig peer clock items :
  new_URL peer = None →
  (∀ t, settles (connect peer t) = Fulfilled tt) →
  settles (ping peer) = Fulfilled tt →
  settles (listTools peer) = Fulfilled {| tools := Some items |} →
  ∃ result,
    probe_yields serverConfig peer clock result ∧
    (took (ping peer) ≤ 500 → pr_status result = "healthy") ∧
    (500 < took (ping peer) → pr_status result = "degraded") ∧
    pr_auth result = "open" ∧
    pr_latencyMs result = Some (took (ping peer)) ∧
    pr_toolCount result = Some (length items) ∧
    pr_error result = None.
Proof.
  intros Hurl Hconn Hping Hlist. eexists. split.
  - apply probe_yields_intro. rewrite doProbe_valid_URL by done.
    run_stages. rewrite Hconn, Hping. simpl. rewrite Hlist. simpl. done.
  - simpl.
    replace (clock + took (connect peer _) + took (ping peer) -
             (clock + took (connect peer _))) with (took (ping peer)) by lia.
    split_and!; try done; intros; repeat case_bool_decide; done || lia.
Qed.

Lemma full_success_latency_bands_witness :
  (probeServer 10000 hinted_open
     (peer_success 120 ["search"; "fetch"; "read"]) 0).1 =
    Fulfilled {| timestamp := 0; status := "healthy"; auth := "open";
                 latencyMs := Some 120; toolCount := Some 3%nat;
                 error := None |} ∧
  (probeServer 10000 hinted_open (peer_success 900 []) 0).1 =
    Fulfilled {| timestamp := 0; status := "degraded"; auth := "open";
                 latencyMs := Some 900; toolCount := Some 0%nat;
                 error := None |}.
Proof.
  split.
  - destruct (full_success_latency_bands hinted_open
                (peer_success 120 ["search"; "fetch"; "read"]) 0
                ["search"; "fetch"; "read"])
      as (r & [_ Hserver] & Hh & _ & Ha & Hl & Ht & He);
      [reflexivity|intros t; reflexivity|reflexivity|reflexivity|].
    rewrite (Hserver 10000) by reflexivity.
    destruct r; simpl in *. unfold stamp; simpl.
    rewrite Hh, Ha, Hl, Ht, He; [reflexivity|lia].
  - destruct (full_success_latency_bands hinted_open (peer_success 900 []) 0 [])
      as (r & [_ Hserver] & _ & Hd & Ha & Hl & Ht & He);
      [reflexivity|intros t; reflexivity|reflexivity|reflexivity|].
    rewrite (Hserver 10000) by reflexivity.
    destruct r; simpl in *. unfold stamp; simpl.
    rewrite Hd, Ha, Hl, Ht, He; [reflexivity|lia].
Defined.

(** Past a valid URL nothing escapes [doProbe]: a failed handshake is
    classified, later failures are handled where they occur. *)
Lemma doProbe_rejected_only_by_URL serverConfig peer clock err :
  (doProbe serverConfig peer clock).1 = Rejected err →
  new_URL peer = Some err.
Proof.
  destruct (new_URL peer) as [e|] eqn:Hurl.
  - erewrite doProbe_invalid_URL by done. simpl. congruence.
  - rewrite doProbe_valid_URL by done. run_stages.
    destruct (settles (connect peer _)); [|done].
    destruct (settles (ping peer)); [|done].
    by destruct (settles (listTools peer)).
Qed.

(** [probeServer] settles with a result whatever the probe does. *)
Lemma probeServer_fulfils T serverConfig peer clock :
  ∃ result clock',
    probeServer T serverConfig peer clock = (Fulfilled result, clock') ∧
    timestamp result = clock.
Proof.
  unfold probeServer, try_catch, bind, race_timer, Date_now, ret.
  destruct (doProbe serverConfig peer clock) as [[result|err] clock1];
    simpl; case_bool_decide; by do 2 eexists.
Qed.

(** C10. [probeServer] always returns a CheckResult, stamped with the
    time of the call, and never raises. When the probe does not settle
    before the per-probe timeout, or an exception escapes it (an invalid
    URL among them), the result has health down, auth protected if the
    endpoint's auth hint is set and unknown otherwise, no latency, no tool
    count and a non-empty error description (the errors thrown by the URL
    constructor being described, as every Error of the runtime is). *)
Theorem probeServer_always_returns T serverConfig peer clock :
  (∀ e, new_URL peer = Some e → message_or_String e ≠ "") →
  ∃ result clock',
    probeServer T serverConfig peer clock = (Fulfilled result, clock') ∧
    timestamp result = clock ∧
    (T ≤ (doProbe serverConfig peer clock).2 - clock ∨
     (∃ e, (doProbe serverConfig peer clock).1 = Rejected e) ∨
     is_Some (new_URL peer) →
     status result = "down" ∧
     auth result = (if expectAuth serverConfig then "protected" else "unknown") ∧
     latencyMs result = None ∧ toolCount result = None ∧
     ∃ description, error result = Some description ∧ description ≠ "").
Proof.
  intros Hdescribed.
  unfold probeServer, try_catch, bind, race_timer, Date_now, ret.
  destruct (doProbe serverConfig peer clock) as [settled clock1] eqn:Hprobe.
  simpl. case_bool_decide as Hrace.
  - destruct settled as [result|err].
    + do 2 eexists. split_and!; [done..|].
      intros [Hlate|[[e He]|[e He]]]; [lia|done|].
      by rewrite (doProbe_invalid_URL _ _ _ _ He) in Hprobe.
    + do 2 eexists. split_and!; [done..|]. intros _. simpl.
      split_and!; try done. eexists; split; [done|].
      apply Hdescribed, (doProbe_rejected_only_by_URL serverConfig peer clock).
      by rewrite Hprobe.
  - do 2 eexists. split_and!; [done..|]. intros _. simpl.
    split_and!; try done. eexists; split; [done|]. apply timeout_error_described.
Qed.

Lemma probeServer_always_returns_witness :
  ∃ result clock',
    probeServer 10000 hinted_protected peer_invalid_URL 1000 =
      (Fulfilled result, clock') ∧
    timestamp result = 1000 ∧ status result = "down" ∧
    auth result = "protected" ∧ error result = Some "Invalid URL".
Proof.
  destruct (probeServer_always_returns 10000 hinted_protected peer_invalid_URL 1000)
    as (result & clock' & Hret & Hstamp & Hdown).
  - intros e [= <-]. discriminate.
  - exists result, clock'. split; [exact Hret|].
    destruct Hdown as (Hs & Ha & _); [right; right; eexists; reflexivity|].
    vm_compute in Hret. injection Hret as <- _. repeat split.
Defined.

Lemma doProbe_clock serverConfig peer clock :
  time_passes peer → clock ≤ (doProbe serverConfig peer clock).2.
Proof.
  intros (Hconn & Hping & Hlist & Hclose). unfold doProbe.
  destruct (new_URL peer); [simpl; lia|].
  unfold try_finally, cleanup, race_timer. run_stages.
  match goal with |- context [connect peer ?t] => specialize (Hconn t) end.
  destruct (settles (connect peer _)); simpl;
    [destruct (settles (ping peer)); simpl;
       [destruct (settles (listTools peer)); simpl|]|];
    case_bool_decide; simpl; try destruct (settles (close peer)); simpl; lia.
Qed.

Lemma probeServer_clock T serverConfig peer clock :
  0 ≤ T → time_passes peer → clock ≤ (probeServer T serverConfig peer clock).2.
Proof.
  intros HT Hpeer. pose proof (doProbe_clock serverConfig peer clock Hpeer) as Hmono.
  unfold probeServer, try_catch, bind, race_timer, Date_now, ret.
  destruct (doProbe serverConfig peer clock) as [[result|err] clock1];
    simpl in *; case_bool_decide; simpl; lia.
Qed.

End ProberFacts.

(** ** Properties of the history store *)

Module HistoryFacts.
Import Js Status Server Spec Scenarios.

#[local] Instance timestamp_le_trans :
  Transitive (λ a b : CheckResult, timestamp a ≤ timestamp b).
Proof. intros a b c ??. lia. Qed.

Lemma time_ordered_strongly checks :
  time_ordered checks ↔ StronglySorted (λ a b, timestamp a ≤ timestamp b) checks.
Proof.
  split; [apply Sorted_StronglySorted; apply _|apply StronglySorted_Sorted].
Qed.

Lemma trim_suffix cutoff checks : trim cutoff checks `suffix_of` checks.
Proof.
  induction checks as [|c checks IH]; simpl; [done|].
  case_bool_decide; [by apply suffix_cons_r|done].
Qed.

Lemma time_ordered_suffix checks' checks :
  checks' `suffix_of` checks → time_ordered checks → time_ordered checks'.
Proof.
  intros [front ->]. rewrite !time_ordered_strongly. apply StronglySorted_app_1_r.
Qed.

(** On a time-ordered series the front trimming leaves nothing older than
    the cutoff. *)
Lemma trim_retained cutoff checks :
  time_ordered checks → retained_since cutoff (trim cutoff checks).
Proof.
  rewrite time_ordered_strongly. unfold retained_since.
  induction 1 as [|c checks Hsorted IH Hc]; simpl; [done|].
  case_bool_decide as Hold; [done|].
  constructor; [lia|]. eapply Forall_impl; [exact Hc|]. simpl. intros; lia.
Qed.

Lemma time_ordered_snoc checks result :
  time_ordered checks →
  (∀ c, last checks = Some c → timestamp c ≤ timestamp result) →
  time_ordered (checks ++ [result]).
Proof.
  intros Hsorted Hlast. apply Sorted_snoc; [done|].
  destruct (last checks) as [c|] eqn:Hc.
  - apply last_Some in Hc as [front ->]. constructor. by apply Hlast.
  - apply last_None in Hc as ->. constructor.
Qed.

Lemma time_ordered_filter (P : CheckResult → Prop) `{∀ c, Decision (P c)} checks :
  time_ordered checks → time_ordered (filter P checks).
Proof.
  rewrite !time_ordered_strongly.
  induction 1 as [|c checks Hsorted IH Hc]; [constructor|].
  rewrite filter_cons. case_decide; [|done].
  constructor; [done|]. apply Forall_forall. intros c' [_ Hin]%list_elem_of_filter.
  by eapply Forall_forall in Hc.
Qed.

(** What [recordResult] leaves under the key it was called for. *)
Lemma recordResult_lookup registryName url result cutoff
    (history : gmap string (list CheckResult)) checks :
  history !! historyKey registryName url = Some checks →
  recordResult registryName url result cutoff history
    !! historyKey registryName url = Some (trim cutoff (checks ++ [result])).
Proof. intros Hkey. unfold recordResult. rewrite Hkey. apply lookup_insert_eq. Qed.

Lemma recordResult_lookup_ne registryName url result cutoff
    (history : gmap string (list CheckResult)) key :
  key ≠ historyKey registryName url →
  recordResult registryName url result cutoff history !! key = history !! key.
Proof.
  intros Hne. unfold recordResult.
  destruct (history !! historyKey registryName url); [|done].
  by rewrite lookup_insert_ne.
Qed.

Lemma recordResult_unknown_key registryName url result cutoff
    (history : gmap string (list CheckResult)) :
  history !! historyKey registryName url = None →
  recordResult registryName url result cutoff history = history.
Proof. intros Hkey. unfold recordResult. by rewrite Hkey. Qed.

Lemma loadEntry_series_ok cutoff history key checks :
  time_ordered checks →
  series_ok cutoff history →
  series_ok cutoff (loadEntry cutoff history (key, checks)).
Proof.
  intros Hsorted Hok k s. unfold loadEntry. case_decide; [|apply Hok].
  destruct (decide (key = k)) as [->|Hne].
  - rewrite lookup_insert_eq. intros [= <-]. split.
    + by apply time_ordered_filter.
    + apply Forall_forall. intros c [Hc _]%list_elem_of_filter. lia.
  - rewrite lookup_insert_ne by done. apply Hok.
Qed.

Lemma foldl_loadEntry_series_ok cutoff entries :
  ∀ history,
    (∀ key checks, (key, checks) ∈ entries → time_ordered checks) →
    series_ok cutoff history →
    series_ok cutoff (foldl (loadEntry cutoff) history entries).
Proof.
  induction entries as [|[key checks] entries IH]; intros history Hsorted Hok; [done|].
  simpl. apply IH.
  - intros k s Hin. apply (Hsorted k s). by right.
  - apply loadEntry_series_ok; [|done]. apply (Hsorted key checks). by left.
Qed.

Lemma initHistory_empty providers key checks :
  initHistory providers !! key = Some checks → checks = [].
Proof.
  unfold initHistory.
  assert (Hgen : ∀ (ps : list Provider) (h : gmap string (list CheckResult)),
             (∀ k s, h !! k = Some s → s = []) →
             ∀ k s, foldl (λ history provider,
                             foldl (λ history remote,
                                      <[historyKey (registryName provider) (url remote) := []]>
                                        history)
                                   history (remotes provider)) h ps !! k = Some s → s = []).
  { induction ps as [|p ps IH]; intros h Hh; [done|]. simpl. apply IH.
    generalize (remotes p). intros rs. revert h Hh.
    induction rs as [|r rs IHr]; intros h Hh; [done|]. simpl. apply IHr.
    intros k s. destruct (decide (historyKey (registryName p) (url r) = k)) as [->|Hne].
    - rewrite lookup_insert_eq. by intros [= <-].
    - rewrite lookup_insert_ne by done. apply Hh. }
  apply Hgen. intros k s. by rewrite lookup_empty.
Qed.

End HistoryFacts.

(** ** Properties of the scheduler *)

Module SchedulerFacts.
Import Js Status Server Spec Scenarios.

Section scheduler.
Variable PROBE_TIMEOUT_MS : Z.
Variable network : Prober.ServerConfig → Z → Prober.Peer.
Variable Math_random : nat → Q.

Local Abbreviation probeRemote := (Server.probeRemote PROBE_TIMEOUT_MS network).
Local Abbreviation probeMultiRemote_loop :=
  (Server.probeMultiRemote_loop PROBE_TIMEOUT_MS network).
Local Abbreviation probeMultiRemote :=
  (Server.probeMultiRemote PROBE_TIMEOUT_MS network Math_random).
Local Abbreviation providerTask :=
  (Server.providerTask PROBE_TIMEOUT_MS network Math_random).

Lemma probeRemote_fulfils provider remote w :
  ∃ result clock',
    probeRemote provider remote w =
      (Fulfilled result,
       {| history := history w; clock := clock'; drawn := drawn w;
          probed := probed w ++ [config_of remote] |}) ∧
    timestamp result = clock w.
Proof.
  unfold Server.probeRemote.
  destruct (ProberFacts.probeServer_fulfils PROBE_TIMEOUT_MS (config_of remote)
              (network (config_of remote) (clock w)) (clock w))
    as (result & clock' & Hprobe & Hstamp).
  exists result, clock'. split; [|done].
  change {| Prober.url := url remote; Prober.transport := transport remote;
            Prober.expectAuth := expectAuth remote |} with (config_of remote).
  by rewrite Hprobe.
Qed.

Lemma probeRemote_probed provider remote w result w1 :
  probeRemote provider remote w = (Fulfilled result, w1) →
  probed w1 = probed w ++ [config_of remote] ∧ history w1 = history w ∧
  drawn w1 = drawn w.
Proof.
  destruct (probeRemote_fulfils provider remote w) as (r & c & -> & _).
  by intros [= _ <-].
Qed.

Lemma probed_in_turn_probed provider cutoff rs w results w1 :
  probed_in_turn PROBE_TIMEOUT_MS network provider cutoff rs w results w1 →
  probed w1 = probed w ++ (config_of <$> rs).
Proof.
  induction 1 as [w|remote rest w result w1 results w2 Hprobe _ IH]; simpl.
  - by rewrite app_nil_r.
  - rewrite IH. simpl. apply probeRemote_probed in Hprobe as (-> & _ & _).
    by rewrite <- app_assoc.
Qed.

(** Every list of remotes can be probed in turn: no probe raises. *)
Lemma probed_in_turn_total provider cutoff rs :
  ∀ w, ∃ results w1, probed_in_turn PROBE_TIMEOUT_MS network provider cutoff rs w results w1.
Proof.
  induction rs as [|remote rest IH]; intros w.
  - exists [], w. constructor.
  - destruct (probeRemote_fulfils provider remote w) as (result & c & Hprobe & _).
    destruct (IH (record provider cutoff remote result
                    {| history := history w; clock := c; drawn := drawn w;
                       probed := probed w ++ [config_of remote] |}))
      as (results & w1 & Hrest).
    exists (result :: results), w1. by econstructor.
Qed.

(** Once a down result was seen, the loop probes nothing and records the
    synthetic result for each remaining remote. *)
Lemma loop_after_down provider cutoff rest :
  ∀ w,
    probeMultiRemote_loop provider cutoff rest true w =
    (Fulfilled tt,
     foldl (λ w remote,
              record provider cutoff remote (short_circuited remote (clock w)) w)
           w rest).
Proof. induction rest as [|remote rest IH]; intros w; simpl; [done|apply IH]. Qed.

(** While no result is down, the loop probes and records in turn. *)
Lemma loop_until_down provider cutoff before w results w1 rest :
  probed_in_turn PROBE_TIMEOUT_MS network provider cutoff before w results w1 →
  Forall (λ r, status r ≠ "down") results →
  probeMultiRemote_loop provider cutoff (before ++ rest) false w =
  probeMultiRemote_loop provider cutoff rest false w1.
Proof.
  induction 1 as [w|remote before w result w' results w1 Hprobe _ IH];
    intros Hup; simpl; [done|].
  inv Hup. rewrite Hprobe.
  replace (String.eqb (status result) "down") with false
    by (symmetry; by apply String.eqb_neq).
  by apply IH.
Qed.

Lemma foldl_short_circuited_probed provider cutoff rest :
  ∀ w,
    probed (foldl (λ w remote,
                     record provider cutoff remote (short_circuited remote (clock w)) w)
                  w rest) = probed w.
Proof. induction rest as [|remote rest IH]; intros w; simpl; [done|by rewrite IH]. Qed.

(** For a random number in [0, 1) the index drawn by [shuffle] at
    position [i] is at most [i]. *)
Lemma shuffle_index_in_range (r : Q) (i : nat) :
  (0 <= r)%Q → (r < 1)%Q →
  (Z.to_nat (Qfloor (r * inject_Z (Z.of_nat i + 1))) ≤ i)%nat.
Proof.
  intros Hlo Hhi.
  assert (Hpos : (0 < inject_Z (Z.of_nat i + 1))%Q).
  { change 0%Q with (inject_Z 0). rewrite <- Zlt_Qlt. lia. }
  assert (Hlt : (r * inject_Z (Z.of_nat i + 1) < inject_Z (Z.of_nat i + 1))%Q).
  { rewrite <- (Qmult_1_l (inject_Z (Z.of_nat i + 1))) at 2.
    by apply Qmult_lt_compat_r. }
  pose proof (Qfloor_le (r * inject_Z (Z.of_nat i + 1))) as Hfloor.
  assert (Hk : Qfloor (r * inject_Z (Z.of_nat i + 1)) < Z.of_nat i + 1).
  { rewrite Zlt_Qlt. eapply Qle_lt_trans; [exact Hfloor|exact Hlt]. }
  lia.
Qed.

Example shuffle_one_third :
  shuffle (λ _, (1 # 3)%Q) ["a"; "b"; "c"; "d"; "e"] 0
  = (["c"; "a"; "d"; "e"; "b"], 4%nat).
Proof. reflexivity. Qed.

(** The shuffle returns a permutation of its argument. *)
Lemma swap_Permutation {A} (a : list A) i j : swap a i j ≡ₚ a.
Proof.
  unfold swap. destruct (a !! i) as [x|] eqn:Hi; [|done].
  destruct (a !! j) as [y|] eqn:Hj; [|done].
  by apply Permutation_insert_swap.
Qed.

Lemma shuffle_Permutation {A} (arr : list A) n :
  (shuffle Math_random arr n).1 ≡ₚ arr.
Proof.
  unfold shuffle. generalize (length arr - 1)%nat. intros i. revert arr n.
  induction i as [|i IH]; intros arr n; simpl; [done|].
  rewrite IH. apply swap_Permutation.
Qed.

(** C2. A provider with several remotes is probed by its task in the
    shuffled order (a permutation of its remotes, [Math.random()] being in
    [0, 1)), one remote after the other, until the first result with
    health down: when the remotes [before] were probed in turn without a
    down result and the probe of [b] then returns down, the task ends with
    those results recorded, nothing but [before] and [b] probed, and for
    every remote after [b] a recorded synthetic result with health unknown,
    auth protected if the remote's auth hint is set and unknown otherwise,
    and the error short-circuited. *)
Theorem short_circuit_after_first_down provider cutoff w before b after drawn'
    results w1 down w2 :
  (∀ n, (0 <= Math_random n)%Q ∧ (Math_random n < 1)%Q) →
  length (remotes provider) ≠ 1%nat →
  shuffle Math_random (remotes provider) (drawn w) = (before ++ b :: after, drawn') →
  probed_in_turn PROBE_TIMEOUT_MS network provider cutoff before
    {| history := history w; clock := clock w; drawn := drawn';
       probed := probed w |} results w1 →
  Forall (λ r, status r ≠ "down") results →
  probeRemote provider b w1 = (Fulfilled down, w2) →
  status down = "down" →
  let final :=
    foldl (λ w remote,
             record provider cutoff remote
               {| timestamp := clock w; status := "unknown";
                  auth := if expectAuth remote then "protected" else "unknown";
                  latencyMs := None; toolCount := None;
                  error := Some "short-circuited" |} w)
          (record provider cutoff b down w2) after in
  providerTask provider cutoff w = (Fulfilled tt, final) ∧
  probed final = probed w ++ (config_of <$> before ++ [b]) ∧
  before ++ b :: after ≡ₚ remotes provider.
Proof.
  intros _ Hmulti Hshuffle Hbefore Hup Hprobe Hdown final.
  assert (Htask : providerTask provider cutoff w = probeMultiRemote provider cutoff w).
  { unfold Server.providerTask. by destruct (remotes provider) as [|? [|? ?]]. }
  split_and!.
  - rewrite Htask. unfold Server.probeMultiRemote. rewrite Hshuffle.
    rewrite (loop_until_down _ _ _ _ _ _ _ Hbefore Hup). simpl.
    rewrite Hprobe, Hdown. simpl. apply loop_after_down.
  - unfold final. rewrite foldl_short_circuited_probed. simpl.
    apply probeRemote_probed in Hprobe as (-> & _ & _).
    rewrite (probed_in_turn_probed _ _ _ _ _ _ Hbefore). simpl.
    by rewrite fmap_app, app_assoc.
  - rewrite <- (shuffle_Permutation (remotes provider) (drawn w)).
    by rewrite Hshuffle.
Qed.

End scheduler.

Lemma short_circuit_after_first_down_witness :
  ∃ final,
    Server.providerTask 10000 network_B_down random_three_quarters
      provider_ABC cutoff_ABC world_ABC = (Fulfilled tt, final) ∧
    probed final = [config_of remote_A; config_of remote_B] ∧
    recorded_statuses final "com.example/abc|https://a.example.com/mcp"
      = Some ["healthy"] ∧
    recorded_statuses final "com.example/abc|https://b.example.com/mcp"
      = Some ["down"] ∧
    history final !! "com.example/abc|https://c.example.com/sse"
      = Some [{| timestamp := 1700000000243; status := "unknown";
                 auth := "protected"; latencyMs := None; toolCount := None;
                 error := Some "short-circuited" |}].
Proof.
  edestruct (short_circuit_after_first_down 10000 network_B_down
               random_three_quarters provider_ABC cutoff_ABC world_ABC
               [remote_A] remote_B [remote_C])
    as (Htask & Hprobed & _).
  - intros n. split; reflexivity || discriminate.
  - vm_compute. discriminate.
  - vm_compute. reflexivity.
  - econstructor; [vm_compute; reflexivity|constructor].
  - repeat constructor. vm_compute. discriminate.
  - vm_compute. reflexivity.
  - reflexivity.
  - eexists. split; [exact Htask|]. split; [exact Hprobed|].
    vm_compute. split_and!; reflexivity.
Defined.

(** *** The series stay time ordered along a task *)

Lemma series_upto_mono t t' history :
  t ≤ t' → series_upto t history → series_upto t' history.
Proof.
  intros Hle Hok key checks Hkey. destruct (Hok key checks Hkey) as [Hsorted Hupto].
  split; [done|]. eapply Forall_impl; [exact Hupto|]. simpl. intros; lia.
Qed.

(** An append of a result issued at [t] keeps the series ordered when
    nothing in the store was issued after [t]. *)
Lemma recordResult_series_upto registryName url result cutoff history :
  series_upto (timestamp result) history →
  series_upto (timestamp result)
    (recordResult registryName url result cutoff history).
Proof.
  intros Hok key checks'.
  destruct (decide (key = historyKey registryName url)) as [->|Hne].
  - destruct (history !! historyKey registryName url) as [checks|] eqn:Hkey.
    + rewrite (HistoryFacts.recordResult_lookup _ _ _ _ _ _ Hkey). intros [= <-].
      destruct (Hok _ _ Hkey) as [Hsorted Hupto].
      assert (Hsnoc : time_ordered (checks ++ [result])).
      { apply HistoryFacts.time_ordered_snoc; [done|].
        intros c [front ->]%last_Some.
        apply Forall_app in Hupto as [_ Hc]. by inv Hc. }
      split.
      * eapply HistoryFacts.time_ordered_suffix;
          [apply HistoryFacts.trim_suffix|done].
      * destruct (HistoryFacts.trim_suffix cutoff (checks ++ [result])) as [front Hfront].
        assert (Hall : Forall (λ c, timestamp c ≤ timestamp result) (checks ++ [result])).
        { apply Forall_app. split; [done|]. by repeat constructor. }
        rewrite Hfront in Hall. by apply Forall_app in Hall as [_ ?].
    + rewrite HistoryFacts.recordResult_unknown_key by done. apply Hok.
  - rewrite HistoryFacts.recordResult_lookup_ne by done. apply Hok.
Qed.

Section clock.
Variable PROBE_TIMEOUT_MS : Z.
Variable network : Prober.ServerConfig → Z → Prober.Peer.
Variable Math_random : nat → Q.
Hypothesis timeout_not_negative : 0 ≤ PROBE_TIMEOUT_MS.
Hypothesis network_time_passes :
  ∀ serverConfig now, time_passes (network serverConfig now).

Local Abbreviation probeRemote := (Server.probeRemote PROBE_TIMEOUT_MS network).
Local Abbreviation probeMultiRemote_loop :=
  (Server.probeMultiRemote_loop PROBE_TIMEOUT_MS network).
Local Abbreviation providerTask :=
  (Server.providerTask PROBE_TIMEOUT_MS network Math_random).

Lemma probeRemote_clock provider remote w :
  ∃ result w1,
    probeRemote provider remote w = (Fulfilled result, w1) ∧
    timestamp result = clock w ∧ clock w ≤ clock w1 ∧ history w1 = history w.
Proof.
  destruct (probeRemote_fulfils PROBE_TIMEOUT_MS network provider remote w)
    as (result & clock' & Hprobe & Hstamp).
  do 2 eexists. split; [exact Hprobe|]. split_and!; [done| |done]. simpl.
  pose proof (ProberFacts.probeServer_clock PROBE_TIMEOUT_MS (config_of remote)
                (network (config_of remote) (clock w)) (clock w)
                timeout_not_negative (network_time_passes _ _)) as Hmono.
  unfold Server.probeRemote in Hprobe.
  change {| Prober.url := url remote; Prober.transport := transport remote;
            Prober.expectAuth := expectAuth remote |}
    with (config_of remote) in Hprobe.
  destruct (Prober.probeServer _ _ _ _) as [settled clock1].
  injection Hprobe as _ <-. exact Hmono.
Qed.

Lemma record_world_ok provider cutoff remote result w :
  series_upto (timestamp result) (history w) →
  timestamp result ≤ clock w →
  world_ok (record provider cutoff remote result w).
Proof.
  intros Hok Hle. unfold world_ok, record. simpl.
  eapply series_upto_mono; [exact Hle|]. by apply recordResult_series_upto.
Qed.

(** With a clock that does not run backwards, the loop of
    [probeMultiRemote] ends without raising and keeps every series time
    ordered: each result it appends was issued no earlier than the entries
    already stored. *)
Lemma probeMultiRemote_loop_world_ok provider cutoff shuffled :
  ∀ hitRed w,
    world_ok w →
    ∃ w', probeMultiRemote_loop provider cutoff shuffled hitRed w = (Fulfilled tt, w') ∧
          world_ok w' ∧ clock w ≤ clock w'.
Proof.
  induction shuffled as [|remote rest IH]; intros hitRed w Hok; simpl.
  - exists w. split_and!; [done..|lia].
  - destruct hitRed.
    + edestruct IH as (w' & -> & Hok' & Hclock).
      { apply (record_world_ok provider cutoff remote
                 {| timestamp := clock w; status := "unknown";
                    auth := if expectAuth remote then "protected" else "unknown";
                    latencyMs := None; toolCount := None;
                    error := Some "short-circuited" |} w); [done|simpl; lia]. }
      by exists w'.
    + destruct (probeRemote_clock provider remote w)
        as (result & w1 & -> & Hstamp & Hclock1 & Hhist).
      edestruct IH as (w' & -> & Hok' & Hclock).
      { apply (record_world_ok provider cutoff remote result w1).
        - rewrite Hhist, Hstamp. exact Hok.
        - lia. }
      exists w'. split_and!; [done..|]. simpl in Hclock. lia.
Qed.

Lemma providerTask_world_ok provider cutoff w :
  world_ok w →
  ∃ w', providerTask provider cutoff w = (Fulfilled tt, w') ∧ world_ok w'.
Proof.
  intros Hok. unfold Server.providerTask.
  assert (Hmulti : ∃ w', Server.probeMultiRemote PROBE_TIMEOUT_MS network Math_random
                           provider cutoff w = (Fulfilled tt, w') ∧ world_ok w').
  { unfold Server.probeMultiRemote.
    destruct (shuffle Math_random (remotes provider) (drawn w)) as [shuffled drawn'].
    edestruct (probeMultiRemote_loop_world_ok provider cutoff shuffled false)
      as (w' & Hloop & Hok' & _); [|by exists w'].
    exact Hok. }
  destruct (remotes provider) as [|remote [|? ?]]; [done| |done].
  destruct (probeRemote_clock provider remote w)
    as (result & w1 & -> & Hstamp & Hclock1 & Hhist).
  eexists. split; [done|].
  apply (record_world_ok provider cutoff remote result w1); [|lia].
  rewrite Hhist, Hstamp. exact Hok.
Qed.

Lemma record_retained provider cutoff remote result w rs :
  series_upto (timestamp result) (history w) →
  retained_for cutoff provider rs (history w) →
  retained_for cutoff provider (remote :: rs)
    (history (record provider cutoff remote result w)).
Proof.
  intros Hok Hkept remote' checks' Hin. unfold record. simpl.
  destruct (decide (historyKey (registryName provider) (url remote')
                    = historyKey (registryName provider) (url remote)))
    as [Heq|Hne].
  - rewrite Heq.
    destruct (history w !! historyKey (registryName provider) (url remote))
      as [checks|] eqn:Hkey.
    + rewrite (HistoryFacts.recordResult_lookup _ _ _ _ _ _ Hkey). intros [= <-].
      destruct (Hok _ _ Hkey) as [Hsorted Hupto].
      apply HistoryFacts.trim_retained, HistoryFacts.time_ordered_snoc; [done|].
      intros c Hlast%last_Some_elem_of. by eapply Forall_forall in Hupto.
    + rewrite HistoryFacts.recordResult_unknown_key by done. by rewrite Hkey.
  - rewrite HistoryFacts.recordResult_lookup_ne by done. intros Hlook.
    apply elem_of_cons in Hin as [->|Hin]; [done|]. by apply (Hkept remote').
Qed.

(** The loop of [probeMultiRemote] appends to the series of every remote
    it is given, a probe result or a short-circuit entry, and each append
    trims an ordered series: afterwards none of them holds an entry older
    than the cutoff. *)
Lemma probeMultiRemote_loop_retained provider cutoff shuffled :
  ∀ hitRed w handled,
    world_ok w →
    retained_for cutoff provider handled (history w) →
    ∃ w', probeMultiRemote_loop provider cutoff shuffled hitRed w = (Fulfilled tt, w') ∧
          world_ok w' ∧ clock w ≤ clock w' ∧
          retained_for cutoff provider (shuffled ++ handled) (history w').
Proof.
  induction shuffled as [|remote rest IH]; intros hitRed w handled Hok Hkept; simpl.
  - exists w. split_and!; [done..|lia|done].
  - assert (Hmem : ∀ h,
              retained_for cutoff provider (rest ++ remote :: handled) h →
              retained_for cutoff provider (remote :: rest ++ handled) h).
    { intros h Hh remote' checks' Hin. apply Hh.
      rewrite elem_of_app, elem_of_cons.
      rewrite elem_of_cons, elem_of_app in Hin. tauto. }
    destruct hitRed.
    + destruct (IH true
                  (record provider cutoff remote
                     {| timestamp := clock w; status := "unknown";
                        auth := if expectAuth remote then "protected" else "unknown";
                        latencyMs := None; toolCount := None;
                        error := Some "short-circuited" |} w)
                  (remote :: handled))
        as (w' & Hloop & Hok' & Hclock & Hkept').
      { apply record_world_ok; [done|simpl; lia]. }
      { by apply record_retained. }
      exists w'. split_and!; [exact Hloop|done|exact Hclock|by apply Hmem].
    + destruct (probeRemote_clock provider remote w)
        as (result & w1 & -> & Hstamp & Hclock1 & Hhist).
      destruct (IH (if String.eqb (status result) "down" then true else false)
                  (record provider cutoff remote result w1) (remote :: handled))
        as (w' & Hloop & Hok' & Hclock & Hkept').
      { apply record_world_ok; [|lia]. rewrite Hhist, Hstamp. exact Hok. }
      { apply record_retained; rewrite Hhist; [by rewrite Hstamp|done]. }
      exists w'. split_and!; [exact Hloop|done| |by apply Hmem].
      simpl in Hclock. lia.
Qed.

Lemma providerTask_retained provider cutoff w :
  world_ok w →
  ∃ w', providerTask provider cutoff w = (Fulfilled tt, w') ∧ world_ok w' ∧
        retained_for cutoff provider (remotes provider) (history w').
Proof.
  intros Hok. unfold Server.providerTask.
  assert (Hnone : retained_for cutoff provider [] (history w)).
  { intros remote checks Hin. by apply elem_of_nil in Hin. }
  assert (Hmulti : ∃ w', Server.probeMultiRemote PROBE_TIMEOUT_MS network Math_random
                           provider cutoff w = (Fulfilled tt, w') ∧ world_ok w' ∧
                         retained_for cutoff provider (remotes provider) (history w')).
  { unfold Server.probeMultiRemote.
    pose proof (shuffle_Permutation Math_random (remotes provider) (drawn w)) as Hperm.
    destruct (shuffle Math_random (remotes provider) (drawn w)) as [shuffled drawn'].
    destruct (probeMultiRemote_loop_retained provider cutoff shuffled false
                {| history := history w; clock := clock w; drawn := drawn';
                   probed := probed w |} [])
      as (w' & Hloop & Hok' & _ & Hkept); [exact Hok|exact Hnone|].
    exists w'. split_and!; [exact Hloop|done|].
    intros remote checks Hin. apply Hkept.
    rewrite app_nil_r. simpl in Hperm. by rewrite Hperm. }
  destruct (remotes provider) as [|remote [|? ?]]; [done| |done].
  destruct (probeRemote_clock provider remote w)
    as (result & w1 & -> & Hstamp & Hclock1 & Hhist).
  eexists. split; [done|]. split.
  - apply (record_world_ok provider cutoff remote result w1); [|lia].
    rewrite Hhist, Hstamp. exact Hok.
  - apply (record_retained provider cutoff remote result w1 []).
    + rewrite Hhist, Hstamp. exact Hok.
    + by rewrite Hhist.
Qed.

End clock.

Import Scenarios2.

(** C6 (amended). An append leaves what remains of the series and the
    result once entries older than the cutoff are removed from the front,
    the cutoff being the one its caller computed when it started (the
    start of the probe cycle, or of the on-demand probe), not the time of
    the append; after an append to a series that was non-decreasing in
    timestamp, of a result issued no earlier than its last entry, the
    series is non-decreasing and holds no entry older than that cutoff. A
    cycle task that is the only writer of the store keeps these
    conditions (the timeout being non-negative and no call taking
    negative time): started on a store whose series are non-decreasing
    and hold nothing issued after the time of its start, it leaves every
    series non-decreasing in timestamp, and the series of each remote of
    its provider without an entry older than the cutoff of the cycle.
    After a load of persisted series that were
    non-decreasing into the store initialised at start-up, every series
    is non-decreasing and holds no entry older than the time of the load
    minus the retention window. *)
Theorem history_ordered_and_retained_since_cutoff :
  (∀ (history : gmap string (list CheckResult)) registryName url result cutoff
     checks,
     history !! historyKey registryName url = Some checks →
     ∃ checks',
       recordResult registryName url result cutoff history
         !! historyKey registryName url = Some checks' ∧
       checks' `suffix_of` checks ++ [result] ∧
       (time_ordered checks →
        (∀ c, last checks = Some c → timestamp c ≤ timestamp result) →
        time_ordered checks' ∧ retained_since cutoff checks')) ∧
  (∀ PROBE_TIMEOUT_MS network Math_random provider cutoff w,
     0 ≤ PROBE_TIMEOUT_MS →
     (∀ serverConfig now, time_passes (network serverConfig now)) →
     world_ok w →
     ∃ w',
       Server.providerTask PROBE_TIMEOUT_MS network Math_random provider cutoff w
       = (Fulfilled tt, w') ∧
       (∀ key checks, history w' !! key = Some checks → time_ordered checks) ∧
       retained_for cutoff provider (remotes provider) (history w')) ∧
  (∀ file now providers key checks',
     (∀ entries k checks,
        file = Parsed entries → (k, checks) ∈ entries → time_ordered checks) →
     loadHistory file now (initHistory providers) !! key = Some checks' →
     time_ordered checks' ∧ retained_since (now - HISTORY_MAX_AGE_MS) checks').
Proof.
  split_and!.
  - intros history registryName url result cutoff checks Hkey.
    eexists. split; [by apply HistoryFacts.recordResult_lookup|].
    split; [apply HistoryFacts.trim_suffix|]. intros Hsorted Hlast.
    pose proof (HistoryFacts.time_ordered_snoc _ _ Hsorted Hlast) as Hsnoc. split.
    + eapply HistoryFacts.time_ordered_suffix; [apply HistoryFacts.trim_suffix|done].
    + by apply HistoryFacts.trim_retained.
  - intros T network Math_random provider cutoff w HT Hnet Hok.
    destruct (providerTask_retained T network Math_random HT Hnet provider cutoff w
                Hok) as (w' & Htask & Hok' & Hkept).
    exists w'. split_and!; [done| |done].
    intros key checks Hkey. by destruct (Hok' key checks Hkey).
  - intros file now providers key checks' Hfile Hload.
    assert (Hinit : series_ok (now - HISTORY_MAX_AGE_MS) (initHistory providers)).
    { intros k s ->%HistoryFacts.initHistory_empty. split; constructor. }
    destruct file as [| |entries]; simpl in Hload; [by eapply Hinit..|].
    eapply HistoryFacts.foldl_loadEntry_series_ok; [|exact Hinit|exact Hload].
    intros k s Hin. by eapply Hfile.
Qed.

Lemma history_ordered_and_retained_since_cutoff_witness :
  (∃ checks',
     recordResult "svc" "https://x" (check_at 1700000000000)
       (1700000000000 - HISTORY_MAX_AGE_MS) store_x !! "svc|https://x"
     = Some checks' ∧
     time_ordered checks' ∧
     retained_since (1700000000000 - HISTORY_MAX_AGE_MS) checks') ∧
  (∃ w',
     Server.providerTask 10000 network_B_down random_three_quarters provider_ABC
       cutoff_ABC world_ABC = (Fulfilled tt, w') ∧
     retained_for cutoff_ABC provider_ABC (remotes provider_ABC) (history w')) ∧
  (time_ordered [check_at an_hour_old] ∧
   retained_since (1700000000000 - HISTORY_MAX_AGE_MS) [check_at an_hour_old]).
Proof.
  destruct history_ordered_and_retained_since_cutoff as (Happend & Htask & Hload).
  split; [|split].
  - destruct (Happend store_x "svc" "https://x" (check_at 1700000000000)
                (1700000000000 - HISTORY_MAX_AGE_MS)
                [check_at day_old; check_at an_hour_old] eq_refl)
      as (checks' & Hkey & _ & Hkept).
    exists checks'. split; [exact Hkey|]. apply Hkept.
    + repeat (constructor; try (by vm_compute)).
    + intros c [= <-]. by vm_compute.
  - destruct (Htask 10000 network_B_down random_three_quarters provider_ABC
                cutoff_ABC world_ABC) as (w' & Hrun & _ & Hkept).
    + lia.
    + intros serverConfig now. unfold network_B_down, time_passes.
      destruct (String.eqb _ _); split_and!; try intros t; by vm_compute.
    + intros key checks Hkey.
      apply HistoryFacts.initHistory_empty in Hkey as ->. split; constructor.
    + by exists w'.
  - apply (Hload file_x 1700000000000 [provider_x] "svc|https://x"
             [check_at an_hour_old]).
    + intros entries k checks [= <-] [= -> ->]%list_elem_of_singleton.
      repeat (constructor; try (by vm_compute)).
    + by vm_compute.
Defined.

(** C6 as stated fails, in both its parts. The cutoff is the one of the
    start of the cycle: a cycle task that starts at 1700000000000 and
    whose probe takes 230 ms appends at 1700000000230, and an entry
    issued one millisecond inside the window at the start stays, 229 ms
    older than the time of the append minus the retention window. And
    when an on-demand probe overlaps a cycle probe of the same endpoint,
    the result issued later is stored first: the series is not
    non-decreasing in timestamp. *)
Lemma history_stale_and_out_of_order :
  (let w1 :=
     (Server.providerTask 10000 network_all_up random_three_quarters provider_x
        (1700000000000 - HISTORY_MAX_AGE_MS) world_nearly_stale).2 in
   clock w1 = 1700000000230 ∧
   recorded_timestamps (history w1) "svc|https://x"
   = Some [1700000000000 - HISTORY_MAX_AGE_MS + 1; 1700000000000] ∧
   ¬ retained_since (clock w1 - HISTORY_MAX_AGE_MS)
       (default [] (history w1 !! "svc|https://x"))) ∧
  recorded_timestamps overlapped_store "svc|https://x"
  = Some [1700000001000; 1700000000000] ∧
  ¬ time_ordered (default [] (overlapped_store !! "svc|https://x")).
Proof.
  split; [cbv zeta; split_and!|split].
  - by vm_compute.
  - by vm_compute.
  - intros Hkept. vm_compute in Hkept. inversion Hkept as [|? ? Hold _].
    by apply Hold.
  - by vm_compute.
  - intros Hsorted. vm_compute in Hsorted.
    inversion Hsorted as [|? ? _ Hhd]. inversion Hhd as [|? ? Hle]. by apply Hle.
Qed.

End SchedulerFacts.

(** ** Properties of the arithmetic on doubles *)

Module Binary64Facts.
Import Server Binary64.

Lemma nearest_even_error (t : Q) :
  (Qabs (inject_Z (nearest_even t) - t) <= 1 # 2)%Q.
Proof.
  unfold nearest_even.
  pose proof (Qfloor_le t) as Hlo. pose proof (Qlt_floor t) as Hhi.
  rewrite inject_Z_plus in Hhi. change (inject_Z 1) with 1%Q in Hhi.
  apply Qabs_Qle_condition.
  destruct (t - inject_Z (Qfloor t) ?= 1 # 2)%Q eqn:Hcmp.
  - apply Qeq_alt in Hcmp. destruct (Z.even (Qfloor t));
      rewrite ?inject_Z_plus; change (inject_Z 1) with 1%Q; split; lra.
  - apply Qlt_alt in Hcmp. split; lra.
  - apply Qgt_alt in Hcmp. rewrite inject_Z_plus. change (inject_Z 1) with 1%Q.
    split; lra.
Qed.

Lemma pow2_pos (e : Z) : (0 < 2 ^ e)%Q.
Proof. by apply Qpower_0_lt. Qed.

Lemma pow2_succ (e : Z) : (2 ^ (e + 1) == 2 * 2 ^ e)%Q.
Proof. rewrite Qpower_plus by done. change (2 ^ 1)%Q with 2%Q. ring. Qed.

Lemma pow2_Z (a : Z) : 0 ≤ a → (inject_Z (2 ^ a) == 2 ^ a)%Q.
Proof. intros Ha. by rewrite Zpower_Qpower. Qed.

Lemma Qratio_lt (N A B D : Q) :
  (0 < A)%Q → (0 < B)%Q → (N < 2 * A)%Q → (B <= D)%Q → (N < 2 * (A / B) * D)%Q.
Proof.
  intros HA HB HN HD.
  assert (Hw : (1 <= D / B)%Q) by (apply Qle_shift_div_l; lra).
  assert (E : (2 * (A / B) * D == 2 * A * (D / B))%Q) by (field; lra).
  rewrite E. set (w := (D / B)%Q) in *. nra.
Qed.

Lemma Qratio_gt (N A B D P : Q) :
  (0 < B)%Q → (0 < P)%Q → (2 * P * B == A)%Q → (A <= N)%Q → (D < 2 * B)%Q →
  (P * D < N)%Q.
Proof. intros HB HP E HN HD. nra. Qed.

Lemma binade_spec (x : Q) :
  (0 < x)%Q → (2 ^ binade x <= x)%Q ∧ (x < 2 ^ (binade x + 1))%Q.
Proof.
  intros Hx. unfold binade.
  destruct x as [n d]. unfold Qlt in Hx. simpl in Hx. rewrite Z.mul_1_r in Hx.
  rewrite (Qabs_pos (n # d)) by (unfold Qle; simpl; lia).
  cbn [Qnum Qden]. rewrite (Z.abs_eq n) by lia.
  set (a := Z.log2 n). set (b := Z.log2 (Z.pos d)).
  destruct (Z.log2_spec n Hx) as [Ha1 Ha2]. fold a in Ha1, Ha2.
  destruct (Z.log2_spec (Z.pos d) ltac:(lia)) as [Hb1 Hb2]. fold b in Hb1, Hb2.
  assert (0 ≤ a) by apply Z.log2_nonneg. assert (0 ≤ b) by apply Z.log2_nonneg.
  assert (Hx' : (n # d == inject_Z n / inject_Z (Z.pos d))%Q) by apply Qmake_Qdiv.
  assert (Hd : (0 < inject_Z (Z.pos d))%Q) by (by apply Qlt_alt).
  assert (HA : (2 ^ (a - b) == inject_Z (2 ^ a) / inject_Z (2 ^ b))%Q).
  { rewrite Qpower_minus by done. by rewrite !pow2_Z. }
  assert (Hpa : (0 < inject_Z (2 ^ a))%Q).
  { rewrite pow2_Z by done. apply pow2_pos. }
  assert (Hpb : (0 < inject_Z (2 ^ b))%Q).
  { rewrite pow2_Z by done. apply pow2_pos. }
  (* 2^(a-b-1) < x < 2^(a-b+1) *)
  assert (Hup : (n # d < 2 ^ (a - b + 1))%Q).
  { rewrite pow2_succ, HA, Hx'.
    apply Qlt_shift_div_r; [done|].
    assert (inject_Z n < 2 * inject_Z (2 ^ a))%Q.
    { change 2%Q with (inject_Z 2). rewrite <- inject_Z_mult, <- Zlt_Qlt.
      replace (2 ^ Z.succ a) with (2 * 2 ^ a) in Ha2 by (rewrite Z.pow_succ_r; lia). lia. }
    assert (inject_Z (2 ^ b) <= inject_Z (Z.pos d))%Q by (by rewrite <- Zle_Qle).
    apply Qratio_lt; done. }
  assert (Hlow : (2 ^ (a - b - 1) < n # d)%Q).
  { assert (E : (2 ^ (a - b) == 2 * 2 ^ (a - b - 1))%Q).
    { rewrite <- pow2_succ. by replace (a - b - 1 + 1) with (a - b) by lia. }
    rewrite HA in E. rewrite Hx'.
    apply Qlt_shift_div_l; [done|].
    assert (inject_Z (2 ^ a) <= inject_Z n)%Q by (by rewrite <- Zle_Qle).
    assert (inject_Z (Z.pos d) < 2 * inject_Z (2 ^ b))%Q.
    { change 2%Q with (inject_Z 2). rewrite <- inject_Z_mult, <- Zlt_Qlt.
      replace (2 ^ Z.succ b) with (2 * 2 ^ b) in Hb2 by (rewrite Z.pow_succ_r; lia). lia. }
    pose proof (pow2_pos (a - b - 1)) as Hp.
    assert (E' : (2 * 2 ^ (a - b - 1) * inject_Z (2 ^ b) == inject_Z (2 ^ a))%Q).
    { rewrite <- E. field. lra. }
    by apply (Qratio_gt _ (inject_Z (2 ^ a)) (inject_Z (2 ^ b))). }
  destruct (Qle_bool (2 ^ (a - b)) (n # d)) eqn:Hle.
  - apply Qle_bool_iff in Hle. done.
  - assert (n # d < 2 ^ (a - b))%Q.
    { apply Qnot_le_lt. intros Hc. apply Qle_bool_iff in Hc. congruence. }
    split; [by apply Qlt_le_weak|]. by replace (a - b - 1 + 1) with (a - b) by lia.
Qed.



Lemma binade_ge (x : Q) (e : Z) : (0 < x)%Q → (2 ^ e <= x)%Q → e ≤ binade x.
Proof.
  intros Hx He. destruct (binade_spec x Hx) as [_ Hhi].
  destruct (decide (e ≤ binade x)) as [|Hlt]; [done|]. exfalso.
  assert (2 ^ (binade x + 1) <= 2 ^ e)%Q
    by (apply Qpower_le_compat_l; [lia|done]).
  lra.
Qed.

(** The relative error of a rounding in the normal range is at most
    [2^-53]. *)
Lemma round_error (x : Q) :
  (0 < x)%Q → -1022 ≤ binade x →
  (Qabs (round x - x) <= x * (1 # 9007199254740992))%Q.
Proof.
  intros Hx Hnormal. unfold round, ulp_exponent. rewrite Z.max_l by lia.
  destruct (binade_spec x Hx) as [Hlo _].
  replace (binade x) with (binade x - 52 + 52) in Hlo by lia.
  rewrite Qpower_plus in Hlo by done.
  assert (E52 : (2 ^ 52 == 4503599627370496)%Q) by reflexivity.
  rewrite E52 in Hlo.
  pose proof (pow2_pos (binade x - 52)) as HP.
  set (P := (2 ^ (binade x - 52))%Q) in *.
  pose proof (nearest_even_error (x / P)) as Hr.
  apply Qabs_Qle_condition in Hr as [Hr1 Hr2].
  assert (Ht : (x / P * P == x)%Q) by (field; lra).
  set (t := (x / P)%Q) in *. set (r := inject_Z (nearest_even t)) in *.
  apply Qabs_Qle_condition. split; nra.
Qed.

Lemma nearest_even_0 (t : Q) : (t == 0)%Q → nearest_even t = 0.
Proof.
  intros Ht. pose proof (nearest_even_error t) as Hr.
  apply Qabs_Qle_condition in Hr as [Hr1 Hr2].
  assert (inject_Z (-1) < inject_Z (nearest_even t))%Q
    by (change (inject_Z (-1)) with (-1)%Q; lra).
  assert (inject_Z (nearest_even t) < inject_Z 1)%Q
    by (change (inject_Z 1) with 1%Q; lra).
  rewrite <- Zlt_Qlt in *. lia.
Qed.

Lemma round_0 (x : Q) : (x == 0)%Q → (round x == 0)%Q.
Proof.
  intros Hx. unfold round. rewrite nearest_even_0; [ring|].
  unfold Qdiv. generalize (/ 2 ^ ulp_exponent x)%Q. intros c. rewrite Hx. ring.
Qed.

(** The rounded product is half a unit away from the exact one at most. *)
Lemma uptime_rounding (k n : Z) :
  0 ≤ k ≤ n → 0 < n < 2 ^ 32 →
  (Qabs (inject_Z (Math_round (mul (div (inject_Z k) (inject_Z n)) 10000))
         - 10000 * inject_Z k / inject_Z n) <= 1 # 2)%Q.
Proof.
  intros Hk Hn.
  assert (HN : (0 < inject_Z n)%Q) by (change 0%Q with (inject_Z 0); rewrite <- Zlt_Qlt; lia).
  assert (HN32 : (inject_Z n < 4294967296)%Q)
    by (change 4294967296%Q with (inject_Z (2 ^ 32)); rewrite <- Zlt_Qlt; lia).
  assert (HKN : (inject_Z k <= inject_Z n)%Q) by (rewrite <- Zle_Qle; lia).
  set (K := inject_Z k) in *. set (N := inject_Z n) in *.
  set (X := (10000 * K / N)%Q).
  assert (HX : (X * N == 10000 * K)%Q) by (unfold X; field; lra).
  set (m := Math_round (mul (div K N) 10000)).
  assert (Hbounds : (X - (1 # 2) - (1 # 274877906944) < inject_Z m)%Q ∧
                    (inject_Z m <= X + (1 # 2) + (1 # 274877906944))%Q).
  { destruct (decide (k = 0)) as [->|Hk0].
    - assert (Hm : m = 0).
      { unfold m, Math_round. transitivity (Qfloor (0 + (1 # 2))%Q); [|done].
        apply Qfloor_comp. unfold mul, div.
        rewrite (round_0 (round (K / N) * 10000)); [done|].
        rewrite (round_0 (K / N)); [ring|]. unfold K. unfold Qdiv.
        change (inject_Z 0) with 0%Q. ring. }
      rewrite Hm. change (inject_Z 0) with 0%Q.
      assert (X == 0)%Q as -> by (unfold X, K, Qdiv; change (inject_Z 0) with 0%Q; ring).
      split; lra.
    - assert (HK : (1 <= K)%Q) by (change 1%Q with (inject_Z 1); unfold K; rewrite <- Zle_Qle; lia).
      unfold m, Math_round, mul, div. set (x0 := (K / N)%Q).
      assert (Hx0N : (x0 * N == K)%Q) by (unfold x0; field; lra).
      assert (Hx0 : (1 # 4294967296 <= x0)%Q ∧ (x0 <= 1)%Q).
      { split; [apply Qle_shift_div_l|apply Qle_shift_div_r]; lra. }
      destruct Hx0 as [Hx0lo Hx0hi].
      assert (Hb0 : -1022 ≤ binade x0).
      { etrans; [|apply (binade_ge x0 (-32)); [lra|]]; [lia|].
        assert ((2 ^ (-32))%Q == 1 # 4294967296)%Q as -> by reflexivity. done. }
      pose proof (round_error x0 ltac:(lra) Hb0) as Hr.
      apply Qabs_Qle_condition in Hr as [Hr1 Hr2].
      set (r := round x0) in *.
      set (y := (r * 10000)%Q).
      assert (Hy : (1 # 4294967296 <= y)%Q) by (unfold y; nra).
      assert (Hb1 : -1022 ≤ binade y).
      { etrans; [|apply (binade_ge y (-32)); [lra|]]; [lia|].
        assert ((2 ^ (-32))%Q == 1 # 4294967296)%Q as -> by reflexivity. done. }
      pose proof (round_error y ltac:(lra) Hb1) as Hp.
      apply Qabs_Qle_condition in Hp as [Hp1 Hp2].
      set (p := round y) in *.
      pose proof (Qfloor_le (p + (1 # 2))) as Hlo.
      pose proof (Qlt_floor (p + (1 # 2))) as Hhi.
      rewrite inject_Z_plus in Hhi. change (inject_Z 1) with 1%Q in Hhi.
      assert (HXx : (X == 10000 * x0)%Q) by (unfold X, x0; field; lra).
      unfold y in *. clearbody p r x0 X. split; lra. }
  destruct Hbounds as [Hlo Hhi].
  assert (HT : - n ≤ 2 * n * m - 20000 * k ≤ n).
  { assert (inject_Z (2 * n * m - 20000 * k) < inject_Z (n + 1))%Q.
    { unfold Z.sub. rewrite !inject_Z_plus, inject_Z_opp, !inject_Z_mult.
      fold N K. change (inject_Z 2) with 2%Q. change (inject_Z 20000) with 20000%Q.
      change (inject_Z 1) with 1%Q. nra. }
    assert (inject_Z (- n - 1) < inject_Z (2 * n * m - 20000 * k))%Q.
    { unfold Z.sub. rewrite !inject_Z_plus, !inject_Z_opp, !inject_Z_mult.
      fold N K. change (inject_Z 2) with 2%Q. change (inject_Z 20000) with 20000%Q.
      change (inject_Z 1) with 1%Q. nra. }
    rewrite <- Zlt_Qlt in *. lia. }
  destruct HT as [HT1 HT2]. rewrite Zle_Qle in HT1, HT2.
  assert (E : (inject_Z (2 * n * m - 20000 * k)
               == 2 * N * inject_Z m - 20000 * K)%Q).
  { unfold Z.sub. rewrite inject_Z_plus, inject_Z_opp, !inject_Z_mult. done. }
  rewrite E in HT1, HT2. rewrite inject_Z_opp in HT1. fold N in HT1, HT2.
  fold X. set (M := inject_Z m) in *. clearbody M X N K.
  apply Qabs_Qle_condition.
  split; apply (Qmult_lt_0_le_reg_r _ _ (2 * N)); lra.
Qed.

(** [div] and [mul] give the doubles of the Standard Library: on every
    quotient by 100 the uptime percentage can end with, and on the
    quotients and products it starts with for the series of up to 48
    entries and for those of the two examples. *)
Example div_mul_agree_with_SpecFloat :
  forallb (λ m, agrees (SpecFloat.SFdiv 53 1024 (of_Z m) (of_Z 100))
                  (div (inject_Z m) 100))
    (seqZ 0 10001) = true ∧
  forallb
    (λ n, forallb
            (λ k, agrees (SpecFloat.SFdiv 53 1024 (of_Z k) (of_Z n))
                    (div (inject_Z k) (inject_Z n)) &&
                  agrees (SpecFloat.SFmul 53 1024
                            (SpecFloat.SFdiv 53 1024 (of_Z k) (of_Z n))
                            (of_Z 10000))
                    (mul (div (inject_Z k) (inject_Z n)) 10000))
            (seqZ 0 (n + 1)))
    (seqZ 1 48 ++ [800]) = true.
Proof. split; by vm_compute. Qed.

End Binary64Facts.

(** ** Properties of the aggregator *)

Module AggregatorFacts.
Import Js Status Server Spec Scenarios.

Lemma length_filter_complement {A} (P : A → Prop) `{∀ x, Decision (P x)} (l : list A) :
  length (filter (λ x, ¬ P x) l) = (length l - length (filter P l))%nat.
Proof.
  pose proof (filter_app_complement P l) as Hperm.
  apply Permutation_length in Hperm. rewrite length_app in Hperm. lia.
Qed.

(** Rounding to two decimals moves a value by at most half a hundredth. *)
Lemma round2_nearest (x : Q) : (Qabs (round2 x - x) <= 1 # 200)%Q.
Proof.
  unfold round2.
  pose proof (Qfloor_le (x * 100 + (1 # 2))) as Hlo.
  pose proof (Qlt_floor (x * 100 + (1 # 2))) as Hhi.
  rewrite inject_Z_plus in Hhi. change (inject_Z 1) with 1%Q in Hhi.
  set (k := inject_Z (Qfloor (x * 100 + (1 # 2)))) in *.
  unfold Qdiv. change (/ 100)%Q with (1 # 100)%Q.
  apply Qabs_Qle_condition. split; lra.
Qed.

(** In exact arithmetic the uptime percentage for a series of n entries
    of which d have health down is 100·(n−d)/n rounded to two decimals,
    a half rounded up, and null when n = 0. *)
Lemma uptime_percent_rounded history now provider remote :
  let checks := series_of history provider remote in
  let n := length checks in
  let d := length (filter (λ c, status c = "down") checks) in
  d_uptimePercent (buildRemoteDetail history now provider remote) =
  if decide (n = 0%nat) then None
  else Some (round2 (100 * inject_Z (Z.of_nat (n - d)) / inject_Z (Z.of_nat n))).
Proof.
  intros checks n d. unfold buildRemoteDetail. simpl.
  fold (series_of history provider remote). fold checks. fold n.
  rewrite (length_filter_complement (λ c, status c = "down")). fold d.
  destruct (decide (n = 0%nat)) as [Hn|Hn].
  - rewrite decide_False by lia. done.
  - rewrite decide_True by lia. unfold round2, Math_round. do 3 f_equal.
    apply Qfloor_comp.
    assert (Hnz : ¬ (inject_Z (Z.of_nat n) == 0)%Q).
    { change 0%Q with (inject_Z 0). rewrite inject_Z_injective. lia. }
    change (length checks) with n. clearbody n d. field. exact Hnz.
Qed.

Lemma Qfloor_unique (q : Q) (z : Z) :
  (inject_Z z <= q)%Q → (q < inject_Z z + 1)%Q → Qfloor q = z.
Proof.
  intros Hlo Hhi.
  pose proof (Qfloor_le q) as Hfloor. pose proof (Qlt_floor q) as Hceil.
  rewrite inject_Z_plus in Hceil. change (inject_Z 1) with 1%Q in Hceil.
  assert (inject_Z z < inject_Z (Qfloor q + 1))%Q
    by (rewrite inject_Z_plus; change (inject_Z 1) with 1%Q; lra).
  assert (inject_Z (Qfloor q) < inject_Z (z + 1))%Q
    by (rewrite inject_Z_plus; change (inject_Z 1) with 1%Q; lra).
  rewrite <- Zlt_Qlt in *. lia.
Qed.

(** C7 (amended). For a series of n entries (fewer than 2^32, as every
    array of the runtime has) of which d have health down, the reported
    uptime percentage is null when n = 0; otherwise it is the double
    nearest to m/100 for an integer m with m/100 at most 0.005 away from
    100·(n−d)/n, and m/100 is 100·(n−d)/n rounded to two decimals, a half
    rounded up, unless 100·(n−d)/n lies exactly halfway between two values
    of two decimals. *)
Theorem uptime_percent_nearest_double history provider remote :
  let checks := series_of history provider remote in
  let n := length checks in
  let d := length (filter (λ c, status c = "down") checks) in
  let exact := (100 * inject_Z (Z.of_nat (n - d)) / inject_Z (Z.of_nat n))%Q in
  Z.of_nat n < 2 ^ 32 →
  (n = 0%nat → uptimePercent_binary64 history provider remote = None) ∧
  (n ≠ 0%nat →
   ∃ m : Z,
     uptimePercent_binary64 history provider remote
     = Some (Binary64.round (inject_Z m / 100)) ∧
     (Qabs (inject_Z m / 100 - exact) <= 1 # 200)%Q ∧
     ((∀ j : Z, ¬ (exact * 100 + (1 # 2) == inject_Z j)%Q) →
      inject_Z m / 100 = round2 exact)%Q).
Proof.
  intros checks n d exact Hn. unfold uptimePercent_binary64.
  fold (series_of history provider remote). fold checks. fold n.
  rewrite (length_filter_complement (λ c, status c = "down")). fold n d.
  split.
  - intros Hn0. rewrite decide_False by lia. done.
  - intros Hn0. rewrite decide_True by lia.
    pose proof (Binary64Facts.uptime_rounding (Z.of_nat (n - d)) (Z.of_nat n)
                  ltac:(lia) ltac:(lia)) as Hm.
    set (m := Math_round _) in *. exists m. split; [done|].
    assert (HN : (0 < inject_Z (Z.of_nat n))%Q)
      by (change 0%Q with (inject_Z 0); rewrite <- Zlt_Qlt; lia).
    assert (HX : (10000 * inject_Z (Z.of_nat (n - d)) / inject_Z (Z.of_nat n)
                  == exact * 100)%Q) by (unfold exact; field; lra).
    rewrite HX in Hm. apply Qabs_Qle_condition in Hm as [Hm1 Hm2].
    clearbody exact m. split.
    + apply Qabs_Qle_condition. unfold Qdiv. change (/ 100)%Q with (1 # 100)%Q.
      split; lra.
    + intros Htie. unfold round2. do 2 f_equal. symmetry.
      apply Qfloor_unique; [lra|].
      destruct (Qle_lt_or_eq _ _ Hm1) as [Hlt|Heq]; [lra|].
      destruct (Htie (m + 1)). rewrite inject_Z_plus.
      change (inject_Z 1) with 1%Q. lra.
Qed.

Lemma uptime_percent_nearest_double_witness :
  ∃ m : Z,
    uptimePercent_binary64 store_two_of_three provider_x remote_x
    = Some (Binary64.round (inject_Z m / 100)) ∧
    (inject_Z m / 100)%Q = round2 (100 * inject_Z 2 / inject_Z 3).
Proof.
  destruct (uptime_percent_nearest_double store_two_of_three provider_x remote_x)
    as [_ Hsome]; [by vm_compute|].
  destruct Hsome as (m & Huptime & _ & Hround); [by vm_compute|].
  exists m. split; [exact Huptime|]. apply Hround.
  intros j Hj.
  change ((40003 # 6) == inject_Z j)%Q in Hj. unfold Qeq in Hj. simpl in Hj. lia.
Defined.

(** C7 as stated fails. Of 800 results 743 are down: the exact
    percentage is 7.125, its rounding to two decimals with a half rounded
    up is 7.13, and the reported value is the double nearest to 7.12,
    which is not the one nearest to 7.13. A half is not always rounded
    down or to the even digit either: of 32 results 31 are down, the exact
    percentage is 3.125, and the reported value is the double nearest to
    3.13, not the one nearest to 3.12. *)
Lemma uptime_percent_not_rounded_half_up :
  uptimePercent_binary64 store_57_of_800 provider_x remote_x
  = Some (Binary64.round (712 # 100)) ∧
  (100 * inject_Z (Z.of_nat (800 - 743)) / inject_Z (Z.of_nat 800)
   == 7125 # 1000)%Q ∧
  (round2 (100 * inject_Z (Z.of_nat (800 - 743)) / inject_Z (Z.of_nat 800))
   == 713 # 100)%Q ∧
  ¬ (Binary64.round (712 # 100) == Binary64.round (713 # 100))%Q ∧
  uptimePercent_binary64 store_1_of_32 provider_x remote_x
  = Some (Binary64.round (313 # 100)) ∧
  (100 * inject_Z (Z.of_nat (32 - 31)) / inject_Z (Z.of_nat 32)
   == 3125 # 1000)%Q ∧
  ¬ (Binary64.round (313 # 100) == Binary64.round (312 # 100))%Q.
Proof. split_and!; by vm_compute. Qed.

Example uptime_two_of_three :
  d_uptimePercent
    (buildRemoteDetail store_two_of_three 1700000000000 provider_x remote_x)
  = Some (6667 # 100)%Q.
Proof. reflexivity. Qed.

Example history_last_hour_worst :
  last (d_history
          (buildRemoteDetail store_two_of_three 1700000000000 provider_x remote_x))
  = Some {| tick_status := "down" |}.
Proof. reflexivity. Qed.

(** C9 (amended). For an endpoint whose series is empty the detail
    reports health unknown, no latency, no capability count, and as auth
    protected if the endpoint's auth hint is set and unknown otherwise. *)
Theorem empty_series_defaults history now provider remote :
  series_of history provider remote = [] →
  let detail := buildRemoteDetail history now provider remote in
  d_status detail = "unknown" ∧
  d_auth detail = (if expectAuth remote then "protected" else "unknown") ∧
  d_latencyMs detail = None ∧
  d_toolCount detail = None.
Proof.
  intros Hempty. unfold buildRemoteDetail. simpl.
  fold (series_of history provider remote). by rewrite Hempty.
Qed.

Lemma empty_series_defaults_witness :
  let detail :=
    buildRemoteDetail (initHistory [provider_ABC]) 1700000000000
      provider_ABC remote_A in
  d_status detail = "unknown" ∧ d_auth detail = "unknown" ∧
  d_latencyMs detail = None ∧ d_toolCount detail = None.
Proof.
  apply (empty_series_defaults (initHistory [provider_ABC])
           1700000000000 provider_ABC remote_A).
  vm_compute. reflexivity.
Defined.

(** C9 as stated fails: the series of endpoint C is empty, its auth hint
    is set, and the detail reports auth protected, not unknown. *)
Lemma empty_series_auth_not_unknown :
  series_of (initHistory [provider_ABC])
    provider_ABC remote_C = [] ∧
  d_auth (buildRemoteDetail (initHistory [provider_ABC])
            1700000000000 provider_ABC remote_C)
    = "protected" ∧
  d_auth (buildRemoteDetail (initHistory [provider_ABC])
            1700000000000 provider_ABC remote_C)
    ≠ "unknown".
Proof. split_and!; [by vm_compute..|]. vm_compute. discriminate. Qed.

(** *** Health icons *)

#[local] Instance rank_le_trans : Transitive rank_le.
Proof. unfold rank_le. intros a b c ??. lia. Qed.

Lemma colorOf_palette s : colorOf s ∈ PALETTE.
Proof.
  unfold colorOf, statusToColor, PALETTE.
  destruct (decide (s = "healthy")) as [->|?]; [set_solver|].
  destruct (decide (s = "degraded")) as [->|?]; [set_solver|].
  destruct (decide (s = "unhealthy")) as [->|?]; [set_solver|].
  destruct (decide (s = "down")) as [->|?]; [set_solver|].
  destruct (decide (s = "unknown")) as [->|?]; [set_solver|].
  rewrite !lookup_insert_ne by done. rewrite lookup_singleton_ne by done.
  set_solver.
Qed.

Lemma colorRank_inj_palette a b :
  a ∈ PALETTE → b ∈ PALETTE → rank_le a b → rank_le b a → a = b.
Proof.
  unfold PALETTE, rank_le. rewrite !elem_of_cons, !elem_of_nil.
  intros Ha Hb; destruct_or!; subst; try done; vm_compute; intros H1 H2;
    by (exfalso; (apply H1 || apply H2)).
Qed.

Lemma PALETTE_sorted : StronglySorted rank_le PALETTE.
Proof.
  unfold PALETTE, rank_le.
  repeat (constructor; [|repeat constructor; by vm_compute]). constructor.
Qed.

Lemma PALETTE_NoDup : NoDup PALETTE.
Proof. unfold PALETTE. compute_done. Qed.

Lemma StronglySorted_filter {A} (R : relation A) (P : A → Prop)
    `{∀ x, Decision (P x)} l :
  StronglySorted R l → StronglySorted R (filter P l).
Proof.
  induction 1 as [|x l Hsorted IH Hx]; [constructor|].
  rewrite filter_cons. case_decide; [|done].
  constructor; [done|]. apply Forall_forall. intros y [_ Hin]%list_elem_of_filter.
  by eapply Forall_forall in Hx.
Qed.

Lemma insertByRank_Permutation x l : insertByRank x l ≡ₚ x :: l.
Proof.
  induction l as [|y l IH]; simpl; [done|].
  case_bool_decide; [done|]. by rewrite IH, Permutation_swap.
Qed.

Lemma sortByRank_Permutation l : sortByRank l ≡ₚ l.
Proof.
  induction l as [|x l IH]; simpl; [done|].
  by rewrite insertByRank_Permutation, IH.
Qed.

Lemma insertByRank_Sorted x l : Sorted rank_le l → Sorted rank_le (insertByRank x l).
Proof.
  induction 1 as [|y l Hsorted IH Hhd]; simpl; [by repeat constructor|].
  case_bool_decide as Hle; [by repeat constructor|].
  constructor; [done|].
  destruct Hhd as [|z l Hyz]; simpl.
  - constructor. unfold rank_le. lia.
  - case_bool_decide; constructor; [unfold rank_le; lia|done].
Qed.

Lemma sortByRank_Sorted l : Sorted rank_le (sortByRank l).
Proof.
  induction l as [|x l IH]; simpl; [constructor|by apply insertByRank_Sorted].
Qed.

Lemma distinct_spec values :
  NoDup (distinct values) ∧ ∀ v, v ∈ distinct values ↔ v ∈ values.
Proof.
  unfold distinct.
  assert (Hgen : ∀ (vs set : list string),
             NoDup set →
             NoDup (foldl (λ set v, if decide (v ∈ set) then set else set ++ [v]) set vs) ∧
             ∀ v, v ∈ foldl (λ set v, if decide (v ∈ set) then set else set ++ [v]) set vs
                  ↔ v ∈ set ∨ v ∈ vs).
  { induction vs as [|x vs IH]; intros set Hset; simpl.
    - split; [done|]. intros v. rewrite elem_of_nil. tauto.
    - case_decide as Hin.
      + destruct (IH set Hset) as [Hnd Hmem]. split; [done|].
        intros v. rewrite Hmem, elem_of_cons.
        split; [intros [?|?]; [by left|by right; right]|].
        intros [?|[->|?]]; [by left|by left|by right].
      + destruct (IH (set ++ [x])) as [Hnd Hmem].
        { apply NoDup_app. split_and!; [done| |apply NoDup_singleton].
          intros y Hy ->%list_elem_of_singleton. done. }
        split; [done|]. intros v.
        rewrite Hmem, elem_of_app, !elem_of_cons, elem_of_nil. tauto. }
  destruct (Hgen values [] (NoDup_nil_2)) as [Hnd Hmem]. split; [done|].
  intros v. rewrite Hmem, elem_of_nil. tauto.
Qed.

(** The sorted distinct colours computed by the code are the colours
    present, worst first. *)
Lemma colorsPresent_sorted_distinct statuses :
  sortByRank (distinct (colorOf <$> statuses)) = colors_present statuses.
Proof.
  destruct (distinct_spec (colorOf <$> statuses)) as [Hnd Hmem].
  assert (Hin : ∀ c, c ∈ sortByRank (distinct (colorOf <$> statuses)) ↔
                     c ∈ colorOf <$> statuses).
  { intros c. by rewrite sortByRank_Permutation, Hmem. }
  apply (Sorted_unique_strong rank_le).
  - intros a b Ha Hb. apply colorRank_inj_palette.
    + apply Hin, list_elem_of_fmap in Ha as (s & -> & _). apply colorOf_palette.
    + by apply list_elem_of_filter in Hb as [_ ?].
  - apply sortByRank_Sorted.
  - apply StronglySorted_Sorted, StronglySorted_filter, PALETTE_sorted.
  - apply NoDup_Permutation.
    + by rewrite sortByRank_Permutation.
    + apply NoDup_filter, PALETTE_NoDup.
    + intros c. rewrite Hin. unfold colors_present. rewrite list_elem_of_filter.
      split; [|tauto]. intros Hc. split; [done|].
      apply list_elem_of_fmap in Hc as (s & -> & _). apply colorOf_palette.
Qed.

Lemma colors_present_palette statuses c :
  c ∈ colors_present statuses → c ∈ PALETTE.
Proof. unfold colors_present. rewrite list_elem_of_filter. tauto. Qed.

Lemma colors_present_nonempty s statuses : colors_present (s :: statuses) ≠ [].
Proof.
  intros Hnil. assert (Hin : colorOf s ∈ colors_present (s :: statuses)).
  { apply list_elem_of_filter. split; [rewrite fmap_cons; by left|apply colorOf_palette]. }
  rewrite Hnil in Hin. by apply elem_of_nil in Hin.
Qed.

Lemma replicate_StronglySorted n c : StronglySorted rank_le (replicate n c).
Proof.
  induction n as [|n IH]; simpl; constructor; [done|].
  apply Forall_forall. intros y ->%elem_of_replicate_inv. unfold rank_le. lia.
Qed.

(** Sorting the icons moves the padding in front of the colours. *)
Lemma sortByRank_padded worst rest m :
  StronglySorted rank_le (worst :: rest) →
  (∀ c, c ∈ worst :: rest → c ∈ PALETTE) →
  sortByRank (take m (worst :: rest) ++
              replicate (m - length (take m (worst :: rest))) worst) =
  replicate (m - length (worst :: rest)) worst ++ take m (worst :: rest).
Proof.
  intros Hsorted Hpalette.
  replace (m - length (take m (worst :: rest)))%nat
    with (m - length (worst :: rest))%nat by (rewrite length_take; lia).
  set (pad := replicate (m - length (worst :: rest)) worst).
  assert (Helem : ∀ c, c ∈ pad ++ take m (worst :: rest) → c ∈ PALETTE).
  { intros c [->%elem_of_replicate_inv|Hc%subseteq_take]%elem_of_app;
      [apply Hpalette; by left|by apply Hpalette]. }
  apply (Sorted_unique_strong rank_le).
  - intros a b Ha Hb. apply colorRank_inj_palette; [|by apply Helem].
    apply Helem. by rewrite sortByRank_Permutation, Permutation_app_comm in Ha.
  - apply sortByRank_Sorted.
  - apply StronglySorted_Sorted. apply StronglySorted_app_2.
    + intros a b ->%elem_of_replicate_inv Hb%subseteq_take.
      apply elem_of_cons in Hb as [->|Hb]; [unfold rank_le; lia|].
      inv Hsorted. by eapply Forall_forall in Hb.
    + apply replicate_StronglySorted.
    + rewrite <- (take_drop m (worst :: rest)) in Hsorted.
      by apply StronglySorted_app_1_l in Hsorted.
  - by rewrite sortByRank_Permutation, Permutation_app_comm.
Qed.

(** The icons are the colours present, worst first and at most
    [min(3, n)] of them, with the worst colour repeated in front to fill
    the free slots. *)
Lemma computeHealthIcons_eq statuses :
  let m := Nat.min 3 (length statuses) in
  computeHealthIcons statuses =
  match colors_present statuses with
  | worst :: _ =>
      replicate (m - length (colors_present statuses)) worst ++
      take m (colors_present statuses)
  | [] => []
  end.
Proof.
  intros m. unfold computeHealthIcons. fold m.
  rewrite colorsPresent_sorted_distinct.
  destruct statuses as [|s statuses].
  - by rewrite decide_True.
  - rewrite decide_False by (subst m; simpl; lia).
    pose proof (colors_present_nonempty s statuses) as Hne.
    assert (Hsorted : StronglySorted rank_le (colors_present (s :: statuses)))
      by apply StronglySorted_filter, PALETTE_sorted.
    pose proof (colors_present_palette (s :: statuses)) as Hpalette.
    destruct (colors_present (s :: statuses)) as [|worst rest]; [done|].
    replace (take (Nat.min (length (worst :: rest)) m) (worst :: rest))
      with (take m (worst :: rest)).
    + by apply sortByRank_padded.
    + destruct (decide (m ≤ length (worst :: rest))%nat).
      * by rewrite Nat.min_r.
      * rewrite Nat.min_l by lia. by rewrite !take_ge by lia.
Qed.

Lemma colors_present_replicate N s :
  N ≠ 0%nat → colors_present (replicate N s) = [colorOf s].
Proof.
  intros HN. unfold colors_present. rewrite fmap_replicate.
  rewrite (list_filter_iff _ (λ c, c = colorOf s)).
  - pose proof (colorOf_palette s) as Hc. revert Hc. generalize (colorOf s).
    unfold PALETTE. intros c. rewrite !elem_of_cons, !elem_of_nil.
    intros Hc; destruct_or!; subst; done.
  - intros c. rewrite elem_of_replicate. tauto.
Qed.

(** C8. The health-icon summary has min(3, n) entries for n statuses, so
    never more than 3; it is sorted worst first by the priority
    red < orange < yellow < gray < green; it consists of the distinct
    colours present, worst first and one icon each as far as the slots go,
    the slots left being filled by repeating the worst colour present; it
    is empty for a service without endpoints; and for N copies of one
    status it is that status's colour min(N, 3) times. *)
Theorem health_icons_summary statuses :
  let icons := computeHealthIcons statuses in
  let m := Nat.min 3 (length statuses) in
  (length icons = m ∧ length icons ≤ 3)%nat ∧
  Sorted rank_le icons ∧
  StronglySorted (λ a b, colorRank a < colorRank b) PALETTE ∧
  icons = match colors_present statuses with
          | worst :: _ =>
              replicate (m - length (colors_present statuses)) worst ++
              take m (colors_present statuses)
          | [] => []
          end ∧
  (statuses = [] → icons = []) ∧
  (∀ N s, statuses = replicate N s → icons = replicate (Nat.min N 3) (colorOf s)).
Proof.
  intros icons m. pose proof (computeHealthIcons_eq statuses) as Heq.
  fold icons m in Heq. simpl in Heq.
  assert (Hlen : length icons = m).
  { rewrite Heq. destruct statuses as [|s statuses]; [by destruct (colors_present [])|].
    pose proof (colors_present_nonempty s statuses).
    destruct (colors_present (s :: statuses)) as [|worst rest] eqn:Hcp; [done|].
    rewrite length_app, length_replicate, length_take. lia. }
  split_and!.
  - done.
  - rewrite Hlen. subst m. lia.
  - unfold icons, computeHealthIcons. case_decide; [constructor|].
    apply sortByRank_Sorted.
  - unfold PALETTE.
    repeat (constructor; [|repeat constructor; by vm_compute]). constructor.
  - done.
  - by intros ->.
  - intros N s ->. rewrite Heq. subst m. rewrite length_replicate.
    destruct (decide (N = 0%nat)) as [->|HN].
    + simpl. by destruct (colors_present []).
    + rewrite colors_present_replicate by done. cbv beta iota.
      rewrite (Nat.min_comm 3 N). change (length [colorOf s]) with 1%nat.
      destruct (Nat.min N 3) as [|k] eqn:Hk; [lia|].
      replace (S k - 1)%nat with k by lia.
      rewrite replicate_S_end. simpl. by rewrite take_nil.
Qed.

Lemma health_icons_summary_witness :
  computeHealthIcons [] = [] ∧
  computeHealthIcons (replicate 5 "degraded") = ["yellow"; "yellow"; "yellow"] ∧
  computeHealthIcons ["healthy"; "down"; "healthy"] = ["red"; "red"; "green"].
Proof.
  split_and!.
  - destruct (health_icons_summary []) as (_ & _ & _ & _ & Hempty & _).
    exact (Hempty eq_refl).
  - destruct (health_icons_summary (replicate 5 "degraded"))
      as (_ & _ & _ & _ & _ & Hsame).
    exact (Hsame 5%nat "degraded" eq_refl).
  - destruct (health_icons_summary ["healthy"; "down"; "healthy"])
      as (_ & _ & _ & -> & _). reflexivity.
Defined.

End AggregatorFacts.

(** ** Further properties of the prober *)

Module ProberMore.
Import Js Prober Spec Scenarios Spec2 Scenarios2.

Ltac run_probe :=
  unfold try_catch, probe_stages, bind, attempt, await, Date_now, ret; simpl.

Lemma prefix_spec sub msg :
  String.prefix sub msg = true ↔ ∃ post, msg = sub +:+ post.
Proof.
  revert msg. induction sub as [|a sub IH]; intros [|b msg]; simpl.
  - split; [by exists ""|done].
  - split; [by exists (String b msg)|done].
  - split; [done|by intros [post ?]].
  - destruct (Ascii.ascii_dec a b) as [->|Hne].
    + rewrite IH. split; intros [post Hpost]; exists post; [by rewrite Hpost|].
      by injection Hpost.
    + split; [done|]. intros [post Hpost]. injection Hpost as Hb _. congruence.
Qed.

(** [msg.includes(sub)] holds exactly when [sub] occurs in [msg]. *)
Lemma includes_spec msg sub :
  includes msg sub = true ↔ ∃ pre post, msg = pre +:+ sub +:+ post.
Proof.
  induction msg as [|a msg IH].
  - change (includes "" sub) with (String.prefix sub "" || false).
    rewrite orb_false_r, prefix_spec. split.
    + intros [post Hpost]. by exists "", post.
    + intros (pre & post & Hmsg). destruct pre; [by exists post|done].
  - change (includes (String a msg) sub)
      with (String.prefix sub (String a msg) || includes msg sub).
    rewrite orb_true_iff, prefix_spec, IH. split.
    + intros [[post Hpost]|(pre & post & Hmsg)].
      * by exists "", post.
      * exists (String a pre), post. simpl. by rewrite Hmsg.
    + intros (pre & post & Hmsg). destruct pre as [|b pre]; simpl in Hmsg.
      * left. by exists post.
      * right. injection Hmsg as _ Hmsg. by exists pre, post.
Qed.

Lemma doProbe_on_valid_URL serverConfig peer clock :
  new_URL peer = None →
  (doProbe serverConfig peer clock).1 =
  (try_catch (probe_stages serverConfig peer)
     (λ err, ret (classifyConnectError err serverConfig)) clock).1.
Proof.
  intros Hurl. unfold doProbe. rewrite Hurl. unfold try_finally.
  destruct (try_catch _ _ clock) as [r clock'].
  unfold cleanup, try_catch, race_timer, await, ret.
  case_bool_decide; [|done]. by destruct (settles (close peer)) as [[]|e].
Qed.

Lemma yields serverConfig peer clock result :
  (doProbe serverConfig peer clock).1 = Fulfilled result →
  probe_yields serverConfig peer clock result.
Proof.
  intros Hprobe. split; [done|]. intros T Hlt.
  unfold probeServer, try_catch, bind, race_timer, Date_now, ret.
  destruct (doProbe serverConfig peer clock) as [settled clock'].
  simpl in *. subst settled. by rewrite bool_decide_true.
Qed.

(** X1. When handshake and ping succeed and the capability listing
    fails, the probe settles with health unhealthy, auth open, the latency
    of the ping retained, no tool count and the error of the listing;
    [probeServer] returns that result when the probe stays under the
    timeout. *)
Theorem tools_list_failure_unhealthy serverConfig peer clock toolsErr :
  new_URL peer = None →
  (∀ t, settles (connect peer t) = Fulfilled tt) →
  settles (ping peer) = Fulfilled tt →
  settles (listTools peer) = Rejected toolsErr →
  probe_yields serverConfig peer clock
    {| pr_status := "unhealthy"; pr_auth := "open";
       pr_latencyMs := Some (took (ping peer)); pr_toolCount := None;
       pr_error := Some ("tools/list failed: " +:+ message_text toolsErr) |}.
Proof.
  intros Hurl Hconn Hping Hlist. apply yields.
  rewrite doProbe_on_valid_URL by done. run_probe.
  rewrite Hconn, Hping. simpl. rewrite Hlist. simpl. do 3 f_equal. lia.
Qed.

Lemma tools_list_failure_unhealthy_witness :
  (probeServer 10000 hinted_open peer_list_fails 0).1 =
  Fulfilled {| timestamp := 0; status := "unhealthy"; auth := "open";
               latencyMs := Some 140; toolCount := None;
               error := Some "tools/list failed: Method not found" |}.
Proof.
  refine (proj2 (tools_list_failure_unhealthy hinted_open peer_list_fails 0
                   (Error "Method not found") _ _ _ _) 10000 _).
  - reflexivity.
  - intros t; reflexivity.
  - reflexivity.
  - reflexivity.
  - reflexivity.
Defined.

(** X2. An answer to the capability listing without a [tools] array
    counts as zero tools: the probe still succeeds, healthy or degraded by
    the latency alone. *)
Theorem missing_tools_count_zero serverConfig peer clock :
  new_URL peer = None →
  (∀ t, settles (connect peer t) = Fulfilled tt) →
  settles (ping peer) = Fulfilled tt →
  settles (listTools peer) = Fulfilled {| tools := None |} →
  probe_yields serverConfig peer clock
    {| pr_status := if bool_decide (took (ping peer) ≤ 500) then "healthy"
                    else "degraded";
       pr_auth := "open"; pr_latencyMs := Some (took (ping peer));
       pr_toolCount := Some 0%nat; pr_error := None |}.
Proof.
  intros Hurl Hconn Hping Hlist. apply yields.
  rewrite doProbe_on_valid_URL by done. run_probe.
  rewrite Hconn, Hping. simpl. rewrite Hlist. simpl.
  replace (clock + took (connect peer _) + took (ping peer) -
           (clock + took (connect peer _))) with (took (ping peer)) by lia.
  do 2 f_equal. repeat case_bool_decide; done || lia.
Qed.

Lemma missing_tools_count_zero_witness :
  (probeServer 10000 hinted_open peer_no_tools 0).1 =
  Fulfilled {| timestamp := 0; status := "degraded"; auth := "open";
               latencyMs := Some 2500; toolCount := Some 0%nat; error := None |}.
Proof.
  refine (proj2 (missing_tools_count_zero hinted_open peer_no_tools 0 _ _ _ _)
            10000 _).
  - reflexivity.
  - intros t; reflexivity.
  - reflexivity.
  - reflexivity.
  - reflexivity.
Defined.

Lemma not_marked_includes msg marker :
  ¬ marked msg → marker ∈ AUTH_MARKERS → includes msg marker = false.
Proof.
  intros Hnot Hin. destruct (includes msg marker) eqn:Hinc; [|done].
  apply includes_spec in Hinc as (pre & post & Hmsg).
  exfalso. apply Hnot. by exists marker, pre, post.
Qed.

Lemma marked_authDenied err msg : marked msg → authDenied err msg = true.
Proof.
  intros (marker & pre & post & Hin & Hmsg).
  assert (Hinc : includes msg marker = true) by (apply includes_spec; eauto).
  unfold authDenied. unfold AUTH_MARKERS in Hin.
  rewrite !elem_of_cons, elem_of_nil in Hin. destruct_or!; subst marker; try done;
    rewrite Hinc; by rewrite ?orb_true_r.
Qed.

(** X3. A connect error whose code converts to a number from 500 to 599
    (the number itself, or another value such as the text ["503"]) is
    classified as down, with the hinted auth and the error text
    [HTTP code: message], unless it is an [UnauthorizedError] or its text
    holds one of 401, 403, Unauthorized, Forbidden: then it is classified
    as healthy and protected, as an authorization denial is. *)
Theorem server_fault_down_unless_marked err serverConfig c :
  code_Number err = Some c → 500 ≤ c < 600 →
  (constructor_name err = Some "UnauthorizedError" ∨
   marked (message_or_String err) →
   classifyConnectError err serverConfig = healthy_protected) ∧
  (constructor_name err ≠ Some "UnauthorizedError" →
   ¬ marked (message_or_String err) →
   classifyConnectError err serverConfig =
   {| pr_status := "down";
      pr_auth := if expectAuth serverConfig then "protected" else "unknown";
      pr_latencyMs := None; pr_toolCount := None;
      pr_error := Some ("HTTP " +:+ code_String err +:+ ": " +:+
                        message_or_String err) |}).
Proof.
  intros Hcode Hc. unfold classifyConnectError. split.
  - intros [Hctor|Hmarked]; [|by rewrite marked_authDenied].
    unfold authDenied. rewrite (bool_decide_true _ Hctor).
    by rewrite orb_true_r.
  - intros Hctor Hnot.
    assert (Hstrict : ∀ k, k < 500 → code err ≠ Some k).
    { intros k Hk Hnum. unfold code_Number in Hcode. rewrite Hnum in Hcode.
      injection Hcode as ->. lia. }
    assert (Hden : authDenied err (message_or_String err) = false).
    { unfold authDenied.
      rewrite !(not_marked_includes _ _ Hnot) by compute_done.
      rewrite !bool_decide_false; [done|done|by apply Hstrict|by apply Hstrict]. }
    rewrite Hden. unfold code_in, http_error, auth_hint. rewrite Hcode.
    by rewrite !bool_decide_true by lia.
Qed.

Lemma server_fault_down_unless_marked_witness :
  classifyConnectError http_502_marked hinted_open = healthy_protected ∧
  classifyConnectError http_503 hinted_open =
  {| pr_status := "down"; pr_auth := "unknown"; pr_latencyMs := None;
     pr_toolCount := None; pr_error := Some "HTTP 503: Service Unavailable" |} ∧
  classifyConnectError text_503 hinted_protected =
  {| pr_status := "down"; pr_auth := "protected"; pr_latencyMs := None;
     pr_toolCount := None; pr_error := Some "HTTP 503: Service Unavailable" |}.
Proof.
  split_and!.
  - apply (server_fault_down_unless_marked http_502_marked hinted_open 502);
      [reflexivity|lia|]. right.
    exists "403", "Bad Gateway (upstream sent ", "1 bytes)".
    split; [compute_done|reflexivity].
  - apply (server_fault_down_unless_marked http_503 hinted_open 503);
      [reflexivity|lia|discriminate|].
    intros Hmarked. apply (marked_authDenied http_503) in Hmarked. discriminate.
  - apply (server_fault_down_unless_marked text_503 hinted_protected 503);
      [reflexivity|lia|discriminate|].
    intros Hmarked. apply (marked_authDenied text_503) in Hmarked. discriminate.
Defined.

Ltac solve_shape :=
  unfold result_shape, PROBED_STATUSES, AUTH_STATUSES; simpl;
  repeat case_bool_decide; split_and!;
  first [ compute_done | done | by intros [? [=]] | by intros [=]
        | by (intros _; eauto) | by (intros _; right; eauto) | by (intros _; left) ].

Lemma classify_shape err serverConfig :
  let r := classifyConnectError err serverConfig in
  result_shape (expectAuth serverConfig) (pr_status r) (pr_auth r)
    (pr_latencyMs r) (pr_toolCount r) (pr_error r).
Proof.
  unfold classifyConnectError, auth_hint.
  repeat match goal with |- context [if ?b then _ else _] => destruct b end;
    solve_shape.
Qed.

Lemma doProbe_shape serverConfig peer clock r :
  (doProbe serverConfig peer clock).1 = Fulfilled r →
  result_shape (expectAuth serverConfig) (pr_status r) (pr_auth r)
    (pr_latencyMs r) (pr_toolCount r) (pr_error r).
Proof.
  destruct (new_URL peer) as [e|] eqn:Hurl.
  { unfold doProbe. by rewrite Hurl. }
  rewrite doProbe_on_valid_URL by done. run_probe.
  destruct (settles (connect peer _));
    [|intros [= <-]; apply classify_shape].
  destruct (settles (ping peer)); simpl.
  - destruct (settles (listTools peer)); simpl; intros [= <-]; solve_shape.
  - intros [= <-]. solve_shape.
Qed.

(** The fields of what [probeServer] returns fit together. *)
Lemma probeServer_shape T serverConfig peer clock :
  ∃ result clock',
    probeServer T serverConfig peer clock = (Fulfilled result, clock') ∧
    result_shape (expectAuth serverConfig) (status result) (auth result)
      (latencyMs result) (toolCount result) (error result).
Proof.
  unfold probeServer, try_catch, bind, race_timer, Date_now, ret.
  destruct (doProbe serverConfig peer clock) as [settled clock1] eqn:Hprobe.
  assert (Hdown : ∀ msg,
             result_shape (expectAuth serverConfig) "down"
               (auth_hint serverConfig "unknown") None None (Some msg)).
  { intros msg. unfold auth_hint. destruct (expectAuth serverConfig); solve_shape. }
  simpl. case_bool_decide; [destruct settled as [r|e]|]; simpl;
    do 2 eexists; (split; [done|]); simpl; try apply Hdown.
  apply (doProbe_shape serverConfig peer clock). by rewrite Hprobe.
Qed.

(** X4. Every call of [probeServer] returns a result whose health is
    healthy, degraded, unhealthy or down, never unknown; whose auth is
    unknown only with health down and no auth hint; which has a latency
    only with auth open, a tool count only with a latency and without an
    error, and no error only when it is healthy, or degraded with a tool
    count. *)
Theorem probeServer_result_shape T serverConfig peer clock :
  ∃ result clock',
    probeServer T serverConfig peer clock = (Fulfilled result, clock') ∧
    result_shape (expectAuth serverConfig) (status result) (auth result)
      (latencyMs result) (toolCount result) (error result).
Proof. apply probeServer_shape. Qed.

(** X5. [doProbe] raises exactly when [new URL] does: no failure of the
    handshake, of the ping, of the capability listing or of the close
    escapes it. *)
Theorem doProbe_raises_only_on_URL serverConfig peer clock err :
  (doProbe serverConfig peer clock).1 = Rejected err ↔ new_URL peer = Some err.
Proof.
  split.
  - destruct (new_URL peer) as [e|] eqn:Hurl.
    + unfold doProbe. rewrite Hurl. simpl. congruence.
    + rewrite doProbe_on_valid_URL by done. run_probe.
      destruct (settles (connect peer _)); [|done].
      destruct (settles (ping peer)); [|done].
      by destruct (settles (listTools peer)).
  - intros Hurl. unfold doProbe. by rewrite Hurl.
Qed.

Lemma doProbe_raises_only_on_URL_witness :
  (doProbe hinted_protected peer_invalid_URL 0).1 = Rejected invalid_URL.
Proof.
  apply (doProbe_raises_only_on_URL hinted_protected peer_invalid_URL 0 invalid_URL).
  reflexivity.
Defined.

(** X6. While time does not run backwards, [probeServer] returns no
    earlier than it was called and no later than the timeout after, and
    [doProbe] settles no later than 3000 ms after its last stage: a close
    that hangs is abandoned there. *)
Theorem probe_time_bounds T serverConfig peer clock :
  time_passes peer → 0 ≤ T →
  clock ≤ (probeServer T serverConfig peer clock).2 ≤ clock + T ∧
  (doProbe serverConfig peer clock).2 ≤
    clock + took (connect peer (if String.eqb (transport serverConfig) "sse"
                                then SSEClientTransport
                                else StreamableHTTPClientTransport))
          + took (ping peer) + took (listTools peer) + 3000.
Proof.
  intros (Hconn & Hping & Hlist & Hclose) HT.
  assert (Hprobe : clock ≤ (doProbe serverConfig peer clock).2 ≤
            clock + took (connect peer (if String.eqb (transport serverConfig) "sse"
                                        then SSEClientTransport
                                        else StreamableHTTPClientTransport))
                  + took (ping peer) + took (listTools peer) + 3000).
  { unfold doProbe.
    specialize (Hconn (if String.eqb (transport serverConfig) "sse"
                       then SSEClientTransport else StreamableHTTPClientTransport)).
    destruct (new_URL peer); [simpl; lia|].
    unfold try_finally, cleanup, race_timer. run_probe.
    destruct (settles (connect peer _)); simpl;
      [destruct (settles (ping peer)); simpl;
         [destruct (settles (listTools peer)); simpl|]|];
      case_bool_decide; simpl; try destruct (settles (close peer)); simpl; lia. }
  split; [|lia].
  unfold probeServer, try_catch, bind, race_timer, Date_now, ret.
  destruct (doProbe serverConfig peer clock) as [[result|err] clock1];
    simpl in *; case_bool_decide; simpl; lia.
Qed.

Lemma probe_time_bounds_witness :
  (doProbe hinted_open peer_close_hangs 1000).2 = 4250 ∧
  1000 ≤ (probeServer 10000 hinted_open peer_close_hangs 1000).2 ≤ 11000.
Proof.
  split; [reflexivity|].
  apply (probe_time_bounds 10000 hinted_open peer_close_hangs 1000); [|lia].
  split_and!; [intros t|..]; simpl; lia.
Defined.

End ProberMore.

(** ** Further properties of the history store *)

Module StoreMore.
Import Js Status Server Spec Scenarios Cycle Spec2 Scenarios2.

#[local] Instance timestamp_le_transitive :
  Transitive (λ a b : CheckResult, timestamp a ≤ timestamp b).
Proof. intros a b c ??. lia. Qed.

Lemma filter_all {A} (P : A → Prop) `{∀ x, Decision (P x)} (l : list A) :
  Forall P l → filter P l = l.
Proof.
  induction 1 as [|x l Hx _ IH]; [done|]. by rewrite filter_cons_True, IH.
Qed.

(** X7. On a series that is non-decreasing in timestamp, the front
    trimming of [recordResult] removes exactly the entries older than the
    cutoff: it keeps every entry that is not older, in order. *)
Theorem trim_is_filter cutoff checks :
  time_ordered checks →
  trim cutoff checks = filter (λ c, cutoff ≤ timestamp c) checks.
Proof.
  intros Hsorted. apply Sorted_StronglySorted in Hsorted; [|apply _].
  induction Hsorted as [|c checks Hsorted IH Hc]; [done|]. simpl.
  rewrite filter_cons. case_bool_decide as Hold.
  - by rewrite decide_False by lia.
  - rewrite decide_True by lia. f_equal. symmetry. apply filter_all.
    eapply Forall_impl; [exact Hc|]. simpl. intros; lia.
Qed.

Lemma trim_is_filter_witness :
  trim (1700000000000 - HISTORY_MAX_AGE_MS)
    [check_at day_old; check_at an_hour_old] = [check_at an_hour_old].
Proof.
  rewrite (trim_is_filter (1700000000000 - HISTORY_MAX_AGE_MS)
             [check_at day_old; check_at an_hour_old]); [reflexivity|].
  repeat (constructor; try (by vm_compute)).
Defined.

Lemma trim_snoc cutoff checks result :
  cutoff ≤ timestamp result →
  trim cutoff (checks ++ [result]) = trim cutoff checks ++ [result].
Proof.
  intros Hfresh. induction checks as [|c checks IH]; simpl.
  - by rewrite bool_decide_false by lia.
  - by case_bool_decide.
Qed.

Lemma trim_suffix_of cutoff checks : trim cutoff checks `suffix_of` checks.
Proof.
  induction checks as [|c checks IH]; simpl; [done|].
  case_bool_decide; [by apply suffix_cons_r|done].
Qed.

Lemma recordResult_dom registryName url result cutoff
    (history : gmap string (list CheckResult)) :
  dom (recordResult registryName url result cutoff history) = dom history.
Proof.
  unfold recordResult.
  destruct (history !! historyKey registryName url) as [checks|] eqn:Hkey; [|done].
  by apply dom_insert_lookup_L.
Qed.

(** X8. [recordResult] never adds or removes a key and leaves the series
    of every other key as it is; a call for a key the store does not have
    changes nothing; and a result that is not older than the cutoff ends
    up as the last entry of its series, behind what the trimming kept of
    the entries before it, whatever their order. *)
Theorem recordResult_effect registryName url result cutoff
    (history : gmap string (list CheckResult)) :
  dom (recordResult registryName url result cutoff history) = dom history ∧
  (∀ key, key ≠ historyKey registryName url →
          recordResult registryName url result cutoff history !! key
          = history !! key) ∧
  (history !! historyKey registryName url = None →
   recordResult registryName url result cutoff history = history) ∧
  (∀ checks,
     history !! historyKey registryName url = Some checks →
     cutoff ≤ timestamp result →
     ∃ kept,
       recordResult registryName url result cutoff history
         !! historyKey registryName url = Some (kept ++ [result]) ∧
       kept `suffix_of` checks).
Proof.
  split_and!.
  - apply recordResult_dom.
  - intros key Hne. unfold recordResult.
    destruct (history !! historyKey registryName url); [|done].
    by rewrite lookup_insert_ne.
  - intros Hkey. unfold recordResult. by rewrite Hkey.
  - intros checks Hkey Hfresh. exists (trim cutoff checks). split.
    + unfold recordResult. rewrite Hkey, lookup_insert_eq. by rewrite trim_snoc.
    + apply trim_suffix_of.
Qed.

Lemma recordResult_effect_witness :
  recordResult "svc" "https://x" (check_at 1700000000000)
    (1700000000000 - HISTORY_MAX_AGE_MS) store_xy !! "svc|https://x"
  = Some [check_at an_hour_old; check_at 1700000000000] ∧
  recordResult "svc" "https://x" (check_at 1700000000000)
    (1700000000000 - HISTORY_MAX_AGE_MS) store_xy !! "svc|https://y"
  = Some [down_at an_hour_old] ∧
  recordResult "svc" "https://gone" (check_at 1700000000000)
    (1700000000000 - HISTORY_MAX_AGE_MS) store_xy = store_xy.
Proof.
  destruct (recordResult_effect "svc" "https://x" (check_at 1700000000000)
              (1700000000000 - HISTORY_MAX_AGE_MS) store_xy)
    as (_ & Hother & _ & Hlast).
  destruct (recordResult_effect "svc" "https://gone" (check_at 1700000000000)
              (1700000000000 - HISTORY_MAX_AGE_MS) store_xy)
    as (_ & _ & Hgone & _).
  split_and!.
  - destruct (Hlast [check_at day_old; check_at an_hour_old]) as (kept & Hkept & _);
      [reflexivity|by vm_compute|]. reflexivity.
  - rewrite (Hother "svc|https://y"); [reflexivity|discriminate].
  - apply Hgone. reflexivity.
Defined.

(** X9. After [recordResult] has stored, for a remote the store knows, a
    result that is not older than the cutoff, the detail of that remote
    reports the health, auth, latency and tool count of that result, and
    an uptime percentage. *)
Theorem recorded_result_is_reported (history : gmap string (list CheckResult))
    now cutoff provider remote result checks :
  history !! historyKey (registryName provider) (url remote) = Some checks →
  cutoff ≤ timestamp result →
  let detail :=
    buildRemoteDetail
      (recordResult (registryName provider) (url remote) result cutoff history)
      now provider remote in
  d_status detail = status result ∧ d_auth detail = auth result ∧
  d_latencyMs detail = latencyMs result ∧ d_toolCount detail = toolCount result ∧
  is_Some (d_uptimePercent detail).
Proof.
  intros Hkey Hfresh. unfold buildRemoteDetail, recordResult. simpl.
  rewrite Hkey, lookup_insert_eq. simpl.
  rewrite trim_snoc by done. rewrite last_snoc. simpl.
  split_and!; try done.
  rewrite length_app. simpl. rewrite decide_True by lia. by eexists.
Qed.

Lemma recorded_result_is_reported_witness :
  let detail :=
    buildRemoteDetail
      (recordResult "svc" "https://x" (down_at 1700000000000)
         (1700000000000 - HISTORY_MAX_AGE_MS) store_x)
      1700000000500 provider_x remote_x in
  d_status detail = "down" ∧ d_auth detail = "unknown" ∧
  d_latencyMs detail = None ∧ d_toolCount detail = None ∧
  is_Some (d_uptimePercent detail).
Proof.
  apply (recorded_result_is_reported store_x 1700000000500
           (1700000000000 - HISTORY_MAX_AGE_MS) provider_x remote_x
           (down_at 1700000000000) [check_at day_old; check_at an_hour_old]).
  - reflexivity.
  - by vm_compute.
Defined.

Lemma loadEntry_dom cutoff (store : gmap string (list CheckResult)) entry :
  dom (loadEntry cutoff store entry) = dom store.
Proof.
  destruct entry as [key checks]. unfold loadEntry. case_decide; [|done].
  by apply dom_insert_lookup_L.
Qed.

Lemma foldl_loadEntry_dom cutoff entries :
  ∀ store : gmap string (list CheckResult),
    dom (foldl (loadEntry cutoff) store entries) = dom store.
Proof.
  induction entries as [|entry entries IH]; intros store; simpl; [done|].
  by rewrite IH, loadEntry_dom.
Qed.

(** What the loop of [loadHistory] leaves under a key, for entries with
    distinct keys. *)
Lemma foldl_loadEntry_lookup cutoff (entries : list (string * list CheckResult)) :
  NoDup entries.*1 →
  ∀ (store : gmap string (list CheckResult)) key,
    foldl (loadEntry cutoff) store entries !! key =
    match store !! key with
    | None => None
    | Some old =>
        Some (from_option (filter (λ c, timestamp c > cutoff)) old
                ((list_to_map entries : gmap string (list CheckResult)) !! key))
    end.
Proof.
  induction entries as [|[k checks] entries IH]; intros Hnodup store key; simpl.
  - rewrite lookup_empty. by destruct (store !! key).
  - apply NoDup_cons in Hnodup as [Hk Hnodup]. rewrite (IH Hnodup).
    unfold loadEntry. destruct (decide (k = key)) as [->|Hne].
    + rewrite lookup_insert_eq, (not_elem_of_list_to_map_1 _ _ Hk).
      case_decide as Hsome.
      * destruct Hsome as [old Hold]. by rewrite lookup_insert_eq, Hold.
      * destruct (store !! key) eqn:Hold; [|done]. destruct Hsome. by eexists.
    + rewrite (lookup_insert_ne _ k key) by done.
      case_decide; [by rewrite lookup_insert_ne|done].
Qed.

(** X10. [loadHistory] never adds or removes a key of the store: series
    persisted under keys the store does not have are dropped, and the keys
    the file does not mention keep their series. A missing or unparsable
    file leaves the store as it is. For a file with one entry per key, the
    series of a key the store has becomes the persisted entries newer than
    now minus the retention window. *)
Theorem loadHistory_keeps_keys file now (store : gmap string (list CheckResult)) :
  dom (loadHistory file now store) = dom store ∧
  (file = NoFile ∨ file = Unparsable → loadHistory file now store = store) ∧
  (∀ entries key,
     file = Parsed entries → key ∉ entries.*1 →
     loadHistory file now store !! key = store !! key) ∧
  (∀ entries key checks,
     file = Parsed entries → NoDup entries.*1 → (key, checks) ∈ entries →
     is_Some (store !! key) →
     loadHistory file now store !! key = Some (reloaded now checks)).
Proof.
  split_and!.
  - destruct file; simpl; [done..|]. apply foldl_loadEntry_dom.
  - by intros [->| ->].
  - intros entries key -> Hnot. simpl. revert store.
    induction entries as [|[k checks] entries IH]; intros store; simpl; [done|].
    apply not_elem_of_cons in Hnot as [Hne Hnot]. rewrite (IH Hnot).
    unfold loadEntry. case_decide; [|done]. by rewrite lookup_insert_ne.
  - intros entries key checks -> Hnodup Hin [old Hold]. simpl.
    rewrite (foldl_loadEntry_lookup _ _ Hnodup), Hold.
    apply (elem_of_list_to_map _ _ _ Hnodup) in Hin. by rewrite Hin.
Qed.

Lemma loadHistory_keeps_keys_witness :
  loadHistory file_x 1700000000000 store_xy !! "svc|https://y"
    = Some [down_at an_hour_old] ∧
  loadHistory file_x 1700000000000 store_xy !! "svc|https://x"
    = Some [check_at an_hour_old] ∧
  loadHistory Unparsable 1700000000000 store_xy = store_xy.
Proof.
  destruct (loadHistory_keeps_keys file_x 1700000000000 store_xy)
    as (_ & _ & Hother & Hload).
  destruct (loadHistory_keeps_keys Unparsable 1700000000000 store_xy)
    as (_ & Hnone & _).
  split_and!.
  - rewrite (Hother [("svc|https://x", [check_at day_old; check_at an_hour_old])]
               "svc|https://y"); [reflexivity|reflexivity|].
    simpl. intros [= ]%list_elem_of_singleton.
  - rewrite (Hload [("svc|https://x", [check_at day_old; check_at an_hour_old])]
               "svc|https://x" [check_at day_old; check_at an_hour_old]).
    + reflexivity.
    + reflexivity.
    + simpl. apply NoDup_singleton.
    + apply list_elem_of_singleton. reflexivity.
    + by eexists.
  - apply Hnone. by right.
Defined.

(** X11. Persisting a store and loading the file into a store gives,
    under every key that store has, the persisted series without its
    entries older than now minus the retention window (and the series that
    store had, for a key that was not persisted). Loaded into a store with
    the same keys, a store without such old entries comes back unchanged. *)
Theorem persist_load_round_trip (history store : gmap string (list CheckResult)) now :
  (∀ key,
     loadHistory (persistHistory history) now store !! key =
     match store !! key with
     | None => None
     | Some old => Some (from_option (reloaded now) old (history !! key))
     end) ∧
  (dom store = dom history →
   (∀ key checks, history !! key = Some checks →
                  all_newer (now - HISTORY_MAX_AGE_MS) checks) →
   loadHistory (persistHistory history) now store = history).
Proof.
  assert (Hlookup : ∀ key,
     loadHistory (persistHistory history) now store !! key =
     match store !! key with
     | None => None
     | Some old => Some (from_option (reloaded now) old (history !! key))
     end).
  { intros key. unfold persistHistory. simpl.
    rewrite foldl_loadEntry_lookup by apply NoDup_fst_map_to_list.
    by rewrite list_to_map_to_list. }
  split; [done|]. intros Hdom Hfresh. apply map_eq. intros key.
  rewrite Hlookup. destruct (history !! key) as [checks|] eqn:Hkey.
  - assert (is_Some (store !! key)) as [old ->].
    { apply elem_of_dom. rewrite Hdom. by apply elem_of_dom_2 in Hkey. }
    simpl. f_equal. apply filter_all. apply (Hfresh key checks Hkey).
  - assert (store !! key = None) as ->; [|done].
    apply not_elem_of_dom. rewrite Hdom. by apply not_elem_of_dom.
Qed.

Lemma persist_load_round_trip_witness :
  loadHistory (persistHistory store_xy) 1700000000000 store_xy !! "svc|https://x"
    = Some [check_at an_hour_old] ∧
  loadHistory (persistHistory store_two_of_three) 1700000000000
    (initHistory [provider_x]) = store_two_of_three.
Proof.
  split.
  - rewrite (proj1 (persist_load_round_trip store_xy store_xy 1700000000000)).
    reflexivity.
  - apply (proj2 (persist_load_round_trip store_two_of_three
                    (initHistory [provider_x]) 1700000000000)).
    + reflexivity.
    + intros key checks Hkey. unfold store_two_of_three in Hkey.
      apply lookup_singleton_Some in Hkey as [_ <-].
      unfold all_newer. repeat (apply Forall_cons_2; [reflexivity|]).
      apply Forall_nil_2.
Defined.

Lemma foldl_insert_empty_lookup (keys : list string) :
  ∀ (store : gmap string (list CheckResult)) key,
    foldl (λ history k, <[k := []]> history) store keys !! key =
    if decide (key ∈ keys) then Some [] else store !! key.
Proof.
  induction keys as [|k keys IH]; intros store key.
  - destruct (decide (key ∈ [])) as [Hin|_]; [by apply elem_of_nil in Hin|done].
  - simpl. rewrite IH. destruct (decide (key ∈ keys)) as [Hin|Hnot].
    + rewrite decide_True; [done|by right].
    + destruct (decide (k = key)) as [->|Hne].
      * rewrite lookup_insert_eq. rewrite decide_True; [done|by left].
      * rewrite lookup_insert_ne by done. rewrite decide_False; [done|].
        intros [?|?]%elem_of_cons; congruence.
Qed.

Lemma initHistory_flat providers :
  initHistory providers =
  foldl (λ history k, <[k := []]> history) ∅ (configured_keys providers).
Proof.
  unfold initHistory, configured_keys. generalize (∅ : gmap string (list CheckResult)).
  induction providers as [|p providers IH]; intros store; simpl; [done|].
  rewrite foldl_app, <- IH. f_equal.
  generalize (remotes p). intros rs. revert store.
  induction rs as [|r rs IHr]; intros store; simpl; [done|]. apply IHr.
Qed.

Lemma configured_keys_spec providers key :
  key ∈ configured_keys providers ↔
  ∃ provider remote,
    provider ∈ providers ∧ remote ∈ remotes provider ∧
    key = historyKey (registryName provider) (url remote).
Proof.
  unfold configured_keys. rewrite list_elem_of_bind. split.
  - intros (p & (r & -> & Hr)%list_elem_of_fmap & Hp). by exists p, r.
  - intros (p & r & Hp & Hr & ->). exists p. split; [|done].
    apply list_elem_of_fmap. by exists r.
Qed.

Lemma initHistory_covers providers : store_covers providers (initHistory providers).
Proof.
  intros provider remote Hp Hr. exists [].
  rewrite initHistory_flat, foldl_insert_empty_lookup.
  rewrite decide_True; [done|]. apply configured_keys_spec. by exists provider, remote.
Qed.

(** X12. The store initialised at start-up holds an empty series for
    every remote of every provider, and no other key. *)
Theorem initHistory_lookup providers :
  (∀ provider remote,
     provider ∈ providers → remote ∈ remotes provider →
     initHistory providers !! historyKey (registryName provider) (url remote)
     = Some []) ∧
  (∀ key checks,
     initHistory providers !! key = Some checks →
     checks = [] ∧
     ∃ provider remote,
       provider ∈ providers ∧ remote ∈ remotes provider ∧
       key = historyKey (registryName provider) (url remote)).
Proof.
  split.
  - intros provider remote Hp Hr.
    rewrite initHistory_flat, foldl_insert_empty_lookup.
    rewrite decide_True; [done|]. apply configured_keys_spec. by exists provider, remote.
  - intros key checks. rewrite initHistory_flat, foldl_insert_empty_lookup.
    case_decide as Hin; [|by rewrite lookup_empty].
    intros [= <-]. split; [done|]. by apply configured_keys_spec.
Qed.

Lemma initHistory_lookup_witness :
  initHistory [provider_x; provider_ABC] !! "com.example/abc|https://c.example.com/sse"
  = Some [].
Proof.
  apply (proj1 (initHistory_lookup [provider_x; provider_ABC]) provider_ABC remote_C).
  - right. left.
  - simpl. do 2 right. left.
Defined.

Lemma no_bar_tail a s : no_bar (String a s) → no_bar s.
Proof.
  intros Hno pre post ->. by apply (Hno (String a pre) post).
Qed.

Lemma no_bar_by_includes s : includes s "|" = false → no_bar s.
Proof.
  intros Hinc pre post Hs.
  assert (includes s "|" = true); [|congruence].
  apply ProberMore.includes_spec. by exists pre, post.
Qed.

(** X13. The keys of the store tell apart the endpoints of providers
    whose registry names hold no [|]: equal keys then mean equal registry
    name and equal URL. With a [|] in a name two different endpoints can
    share one key, and so one series. *)
Theorem historyKey_injective registryName1 url1 registryName2 url2 :
  no_bar registryName1 → no_bar registryName2 →
  historyKey registryName1 url1 = historyKey registryName2 url2 →
  registryName1 = registryName2 ∧ url1 = url2.
Proof.
  assert (Hcons : ∀ a r s, String a r +:+ s = String a (r +:+ s)) by done.
  unfold historyKey. revert registryName2.
  induction registryName1 as [|a r1 IH]; intros [|b r2] Hno1 Hno2;
    rewrite ?Hcons; change ("" +:+ ?s) with s; rewrite ?Hcons;
    change ("" +:+ ?s) with s.
  - by intros [= ->].
  - intros [= <- _]. by destruct (Hno2 "" r2).
  - intros [= -> _]. by destruct (Hno1 "" r1).
  - intros [= -> Hrest].
    destruct (IH r2 (no_bar_tail _ _ Hno1) (no_bar_tail _ _ Hno2) Hrest) as [-> ->].
    done.
Qed.

Lemma historyKey_injective_witness :
  no_bar "com.example/abc" ∧
  ("com.example/abc" = "com.example/abc" ∧
   "https://a.example.com/mcp" = "https://a.example.com/mcp").
Proof.
  split; [by apply no_bar_by_includes|].
  apply (historyKey_injective "com.example/abc" "https://a.example.com/mcp"
           "com.example/abc" "https://a.example.com/mcp");
    [by apply no_bar_by_includes..|reflexivity].
Defined.

Example historyKey_collision :
  historyKey "a|b" "c" = historyKey "a" "b|c".
Proof. reflexivity. Qed.

End StoreMore.

(** ** Properties of the cycle driver and of the on-demand probe *)

Module CycleFacts.
Import Js Status Server Spec Scenarios Cycle Spec2 Scenarios2.

Lemma driver_step_ok I d e d' :
  driver_ok d → driver_step I d e = Some d' → driver_ok d'.
Proof.
  destruct d as [flag skips started last next count].
  unfold driver_ok. simpl. intros (Hle & Hflag & Hstart).
  destruct e as [now|now]; simpl.
  - intros [= <-]. unfold probeAll_enter. simpl.
    destruct flag; simpl; [done|].
    assert (count = 0%nat) as ->.
    { destruct count as [|[|n]]; [done| |lia].
      destruct Hflag as [_ Hflag]. by specialize (Hflag eq_refl). }
    split_and!; [lia|done|]. split; [done|by eexists].
  - case_decide as Hrun; [done|]. intros [= <-]. simpl.
    assert (count = 1%nat) as -> by lia. simpl.
    split_and!; [lia|done|]. split; [by intros [? [=]]|done].
Qed.

(** X14. Whatever the sequence of timer ticks and cycle completions,
    cycles never overlap: at most one cycle is running, the in-progress
    flag is set exactly while one is, and a start time is recorded exactly
    then. *)
Theorem cycles_never_overlap PROBE_INTERVAL_MS events d :
  driver_run PROBE_INTERVAL_MS driver_init events = Some d → driver_ok d.
Proof.
  assert (Hgen : ∀ d0,
            driver_ok d0 →
            driver_run PROBE_INTERVAL_MS d0 events = Some d → driver_ok d).
  { induction events as [|e events IH]; intros d0 Hok; simpl.
    - by intros [= <-].
    - destruct (driver_step PROBE_INTERVAL_MS d0 e) as [d1|] eqn:Hstep; [|done].
      apply IH. by eapply driver_step_ok. }
  apply Hgen. unfold driver_ok, driver_init. simpl.
  split_and!; [lia|done|]. split; [by intros [? [=]]|done].
Qed.

Lemma cycles_never_overlap_witness :
  ∃ d, driver_run 300000 driver_init
         [Tick 0; Tick 300000; Settles 310000; Tick 600000; Tick 900000] = Some d ∧
       running d = 1%nat ∧ skipCount d = 1%nat ∧ driver_ok d.
Proof.
  eexists. split; [reflexivity|].
  split_and!; [reflexivity..|].
  exact (cycles_never_overlap 300000
           [Tick 0; Tick 300000; Settles 310000; Tick 600000; Tick 900000]
           _ eq_refl).
Defined.

Lemma ticks_while_running I ticks :
  ∀ d, probeInProgress d = true →
       driver_run I d (Tick <$> ticks) =
       Some {| probeInProgress := true;
               skipCount := (skipCount d + length ticks)%nat;
               probeStartedAt := probeStartedAt d;
               lastCheckTime := lastCheckTime d;
               nextCheckTime := nextCheckTime d; running := running d |}.
Proof.
  induction ticks as [|now ticks IH]; intros d Hin; simpl.
  - rewrite Nat.add_0_r. destruct d; simpl in *. by subst.
  - unfold probeAll_enter. rewrite Hin. simpl. rewrite IH by done. simpl.
    do 2 f_equal. lia.
Qed.

(** X15. Every call of [probeAll] made while a cycle is running is
    skipped: it starts nothing and raises the skip counter by exactly one,
    leaving the rest of the state alone. When the cycle has completed, the
    next call starts a cycle, with the counter back at zero, the time of
    that call as start time and a cutoff one retention window before it. *)
Theorem overlapping_ticks_are_skipped PROBE_INTERVAL_MS d ticks settled next :
  probeInProgress d = true → running d = 1%nat →
  driver_run PROBE_INTERVAL_MS d (Tick <$> ticks) =
    Some {| probeInProgress := true;
            skipCount := (skipCount d + length ticks)%nat;
            probeStartedAt := probeStartedAt d;
            lastCheckTime := lastCheckTime d;
            nextCheckTime := nextCheckTime d; running := 1 |} ∧
  (∀ now, (probeAll_enter now d).2 = None) ∧
  ∃ idle,
    driver_run PROBE_INTERVAL_MS d ((Tick <$> ticks) ++ [Settles settled])
    = Some idle ∧
    probeInProgress idle = false ∧ running idle = 0%nat ∧
    (probeAll_enter next idle).2 = Some (next - HISTORY_MAX_AGE_MS) ∧
    probeInProgress (probeAll_enter next idle).1 = true ∧
    skipCount (probeAll_enter next idle).1 = 0%nat ∧
    probeStartedAt (probeAll_enter next idle).1 = Some next ∧
    running (probeAll_enter next idle).1 = 1%nat.
Proof.
  intros Hin Hrun.
  pose proof (ticks_while_running PROBE_INTERVAL_MS ticks d Hin) as Hticks.
  rewrite Hrun in Hticks. split_and!; [done| |].
  - intros now. unfold probeAll_enter. by rewrite Hin.
  - assert (Happ : ∀ events1 events2 d0,
              driver_run PROBE_INTERVAL_MS d0 (events1 ++ events2) =
              match driver_run PROBE_INTERVAL_MS d0 events1 with
              | Some d1 => driver_run PROBE_INTERVAL_MS d1 events2
              | None => None
              end).
    { induction events1 as [|e events1 IH]; intros events2 d0; simpl; [done|].
      destruct (driver_step PROBE_INTERVAL_MS d0 e); [apply IH|done]. }
    rewrite Happ, Hticks. simpl. eexists. split; [done|]. done.
Qed.

Lemma overlapping_ticks_are_skipped_witness :
  driver_run 300000 (probeAll_enter 0 driver_init).1
    (Tick <$> [300000; 600000; 900000]) =
  Some {| probeInProgress := true; skipCount := 3; probeStartedAt := Some 0;
          lastCheckTime := None; nextCheckTime := None; running := 1 |}.
Proof.
  apply (overlapping_ticks_are_skipped 300000 (probeAll_enter 0 driver_init).1
           [300000; 600000; 900000] 950000 1200000); reflexivity.
Defined.

End CycleFacts.

(** ** Further properties of the scheduler *)

Module SchedulerMore.
Import Js Status Server Spec Scenarios Cycle Spec2 Scenarios2.

Lemma HISTORY_MAX_AGE_MS_pos : 0 < HISTORY_MAX_AGE_MS.
Proof. done. Qed.

Lemma record_fresh_last registryName url result cutoff
    (history : gmap string (list CheckResult)) :
  is_Some (history !! historyKey registryName url) →
  cutoff ≤ timestamp result →
  ∃ kept, recordResult registryName url result cutoff history
            !! historyKey registryName url = Some (kept ++ [result]).
Proof.
  intros [checks Hkey] Hfresh. exists (trim cutoff checks).
  unfold recordResult. rewrite Hkey, lookup_insert_eq.
  by rewrite StoreMore.trim_snoc.
Qed.

Section full_probe.
Variable PROBE_TIMEOUT_MS : Z.
Variable network : Prober.ServerConfig → Z → Prober.Peer.

Local Abbreviation full_probes := (Cycle.full_probes PROBE_TIMEOUT_MS network).
Local Abbreviation probeProviderFull :=
  (Cycle.probeProviderFull PROBE_TIMEOUT_MS network).

(** Each of the probes of a full probe settles with a result stamped with
    the time of the call, of a health a probe can report. *)
Lemma full_probes_settle provider now probe :
  probe ∈ full_probes provider now →
  ∃ result settled,
    probe.2 = (Fulfilled result, settled) ∧ probe.1 ∈ remotes provider ∧
    timestamp result = now ∧ status result ∈ PROBED_STATUSES.
Proof.
  unfold Cycle.full_probes. intros (remote & -> & Hin)%list_elem_of_fmap. simpl.
  destruct (ProberMore.probeServer_shape PROBE_TIMEOUT_MS (config_of remote)
              (network (config_of remote) now) now)
    as (result & settled & Hprobe & Hshape & _).
  destruct (ProberFacts.probeServer_fulfils PROBE_TIMEOUT_MS (config_of remote)
              (network (config_of remote) now) now)
    as (result' & settled' & Hprobe' & Hstamp).
  rewrite Hprobe in Hprobe'. injection Hprobe' as <- <-.
  by exists result, settled.
Qed.

Lemma record_settled_fresh provider now probes :
  (∀ probe, probe ∈ probes →
     ∃ result settled,
       probe.2 = (Fulfilled result, settled) ∧
       timestamp result = now ∧ status result ∈ PROBED_STATUSES) →
  ∀ (history : gmap string (list CheckResult)) key,
    freshly_probed history key now ∨
    (is_Some (history !! key) ∧
     ∃ probe, probe ∈ probes ∧
              key = historyKey (registryName provider) (url probe.1)) →
    freshly_probed
      (foldl (record_settled provider (now - HISTORY_MAX_AGE_MS)) history probes)
      key now.
Proof.
  induction probes as [|[remote [settled at_]] probes IH];
    intros Hall history key Hkey; simpl.
  - destruct Hkey as [?|[_ (probe & Hin & _)]]; [done|]. by apply elem_of_nil in Hin.
  - destruct (Hall (remote, (settled, at_))) as (result & ? & [= -> <-] & Hstamp & Hstatus);
      [by left|].
    apply IH; [intros probe Hin; apply Hall; by right|]. simpl.
    pose proof HISTORY_MAX_AGE_MS_pos as Hpos.
    destruct (decide (key = historyKey (registryName provider) (url remote)))
      as [->|Hne].
    + left.
      assert (is_Some (history !! historyKey (registryName provider) (url remote)))
        as Hsome.
      { destruct Hkey as [(kept & r & -> & _)|[? _]]; [by eexists|done]. }
      destruct (record_fresh_last (registryName provider) (url remote) result
                  (now - HISTORY_MAX_AGE_MS) history Hsome) as [kept Hkept]; [lia|].
      by exists kept, result.
    + destruct Hkey as [(kept & r & Hlook & Hr)|[Hsome (probe & Hin & ->)]].
      * left. exists kept, r. split; [|done].
        unfold recordResult.
        destruct (history !! historyKey (registryName provider) (url remote));
          [by rewrite lookup_insert_ne|done].
      * right. split.
        -- apply elem_of_dom.
           rewrite (StoreMore.recordResult_dom (registryName provider) (url remote)).
           by apply elem_of_dom.
        -- apply elem_of_cons in Hin as [->|Hin]; [done|]. by exists probe.
Qed.

Lemma full_probes_fresh provider w remote :
  remote ∈ remotes provider →
  is_Some (history w !! historyKey (registryName provider) (url remote)) →
  freshly_probed (history (probeProviderFull provider w))
    (historyKey (registryName provider) (url remote)) (clock w).
Proof.
  intros Hin Hsome. unfold Cycle.probeProviderFull. simpl.
  apply record_settled_fresh.
  - intros probe Hprobe.
    destruct (full_probes_settle provider (clock w) probe Hprobe)
      as (result & settled & ? & _ & ? & ?).
    by exists result, settled.
  - right. split; [done|].
    exists (remote, Prober.probeServer PROBE_TIMEOUT_MS (config_of remote)
                      (network (config_of remote) (clock w)) (clock w)).
    split; [|done]. unfold Cycle.full_probes.
    apply list_elem_of_fmap. by exists remote.
Qed.

(** X16. The on-demand full probe does not short-circuit: it calls
    [probeServer] once for every remote of the provider, whatever the
    results, and afterwards the series of every remote the store knows
    ends with a result of this probe, stamped with the time of the call
    and of health healthy, degraded, unhealthy or down. *)
Theorem full_probe_probes_every_remote provider w :
  let w' := probeProviderFull provider w in
  probed w' = probed w ++ (config_of <$> remotes provider) ∧
  dom (history w') = dom (history w) ∧
  ∀ remote,
    remote ∈ remotes provider →
    is_Some (history w !! historyKey (registryName provider) (url remote)) →
    freshly_probed (history w')
      (historyKey (registryName provider) (url remote)) (clock w).
Proof.
  intros w'. split_and!.
  - done.
  - unfold w', Cycle.probeProviderFull. simpl.
    generalize (full_probes provider (clock w)). intros probes.
    generalize (history w). induction probes as [|[r [[v|e] c]] probes IH];
      intros h; simpl; [done|..]; rewrite IH; [|done].
    apply StoreMore.recordResult_dom.
  - apply full_probes_fresh.
Qed.

End full_probe.

Lemma full_probe_probes_every_remote_witness :
  let w' := Cycle.probeProviderFull 10000 network_B_down provider_ABC world_ABC in
  probed w' = [config_of remote_A; config_of remote_B; config_of remote_C] ∧
  freshly_probed (history w') "com.example/abc|https://c.example.com/sse"
    1700000000000.
Proof.
  destruct (full_probe_probes_every_remote 10000 network_B_down provider_ABC
              world_ABC) as (Hprobed & _ & Hfresh).
  split; [exact Hprobed|].
  apply (Hfresh remote_C); [simpl; do 2 right; left|by eexists].
Defined.

Section short_circuit.
Variable PROBE_TIMEOUT_MS : Z.
Variable network : Prober.ServerConfig → Z → Prober.Peer.
Variable Math_random : nat → Q.

Local Abbreviation providerTask :=
  (Server.providerTask PROBE_TIMEOUT_MS network Math_random).

(** X17. When no probe of a provider with several remotes returns down,
    its task probes every remote, in the shuffled order, and records every
    result: nothing is short-circuited. *)
Theorem all_probed_without_down provider cutoff w order drawn' results w1 :
  (∀ n, (0 <= Math_random n)%Q ∧ (Math_random n < 1)%Q) →
  length (remotes provider) ≠ 1%nat →
  shuffle Math_random (remotes provider) (drawn w) = (order, drawn') →
  probed_in_turn PROBE_TIMEOUT_MS network provider cutoff order
    {| history := history w; clock := clock w; drawn := drawn';
       probed := probed w |} results w1 →
  Forall (λ r, status r ≠ "down") results →
  providerTask provider cutoff w = (Fulfilled tt, w1) ∧
  probed w1 = probed w ++ (config_of <$> order) ∧
  order ≡ₚ remotes provider.
Proof.
  intros _ Hmulti Hshuffle Hturn Hup. split_and!.
  - unfold Server.providerTask.
    assert (Hmany : match remotes provider with
                    | [remote] => False
                    | _ => True
                    end) by by destruct (remotes provider) as [|? [|? ?]].
    assert (Htask : Server.providerTask PROBE_TIMEOUT_MS network Math_random
                      provider cutoff w =
                    Server.probeMultiRemote PROBE_TIMEOUT_MS network Math_random
                      provider cutoff w).
    { unfold Server.providerTask. by destruct (remotes provider) as [|? [|? ?]]. }
    fold (Server.providerTask PROBE_TIMEOUT_MS network Math_random provider cutoff w).
    rewrite Htask. unfold Server.probeMultiRemote. rewrite Hshuffle.
    rewrite <- (app_nil_r order).
    by rewrite (SchedulerFacts.loop_until_down _ _ _ _ _ _ _ _ _ Hturn Hup).
  - by rewrite (SchedulerFacts.probed_in_turn_probed _ _ _ _ _ _ _ _ Hturn).
  - rewrite <- (SchedulerFacts.shuffle_Permutation Math_random
                 (remotes provider) (drawn w)).
    by rewrite Hshuffle.
Qed.

Lemma shuffle_from_drawn {A} i :
  ∀ (a : list A) n,
    (shuffle_from Math_random i a n).2 = (n + i)%nat ∧
    length (shuffle_from Math_random i a n).1 = length a.
Proof.
  induction i as [|i IH]; intros a n; [simpl; split; [lia|done]|].
  cbn [shuffle_from].
  match goal with
  | |- context [shuffle_from _ i ?a' ?n'] => destruct (IH a' n') as [-> ->]
  end.
  split; [lia|]. unfold swap.
  repeat case_match; by rewrite ?length_insert.
Qed.

(** X18. [shuffle] returns a permutation of its argument, of the same
    length; it draws one random number less than the array has elements,
    and none for an array of at most one element, which it returns as it
    is. *)
Theorem shuffle_permutes {A} (arr : list A) n :
  (∀ k, (0 <= Math_random k)%Q ∧ (Math_random k < 1)%Q) →
  (shuffle Math_random arr n).1 ≡ₚ arr ∧
  length (shuffle Math_random arr n).1 = length arr ∧
  (shuffle Math_random arr n).2 = (n + (length arr - 1))%nat ∧
  ((length arr ≤ 1)%nat → shuffle Math_random arr n = (arr, n)).
Proof.
  intros _. split_and!.
  - apply SchedulerFacts.shuffle_Permutation.
  - apply shuffle_from_drawn.
  - apply shuffle_from_drawn.
  - intros Hshort. unfold shuffle.
    by replace (length arr - 1)%nat with 0%nat by lia.
Qed.

End short_circuit.

Lemma all_probed_without_down_witness :
  ∃ w1,
    Server.providerTask 10000 network_all_up random_three_quarters
      provider_ABC cutoff_ABC world_ABC = (Fulfilled tt, w1) ∧
    probed w1 = [config_of remote_A; config_of remote_B; config_of remote_C].
Proof.
  edestruct (all_probed_without_down 10000 network_all_up random_three_quarters
               provider_ABC cutoff_ABC world_ABC [remote_A; remote_B; remote_C])
    as (Htask & Hprobed & _).
  - intros n. split; reflexivity || discriminate.
  - vm_compute. discriminate.
  - vm_compute. reflexivity.
  - econstructor; [vm_compute; reflexivity|].
    econstructor; [vm_compute; reflexivity|].
    econstructor; [vm_compute; reflexivity|]. constructor.
  - repeat constructor; vm_compute; discriminate.
  - eexists. split; [exact Htask|exact Hprobed].
Defined.

Lemma shuffle_permutes_witness :
  (shuffle random_three_quarters ["a"; "b"; "c"; "d"] 7).2 = 10%nat.
Proof.
  apply (shuffle_permutes random_three_quarters ["a"; "b"; "c"; "d"] 7).
  intros k. split; reflexivity || discriminate.
Defined.

Section invariants.
Variable PROBE_TIMEOUT_MS : Z.
Variable network : Prober.ServerConfig → Z → Prober.Peer.
Variable Math_random : nat → Q.

Local Abbreviation probeRemote := (Server.probeRemote PROBE_TIMEOUT_MS network).
Local Abbreviation probeMultiRemote_loop :=
  (Server.probeMultiRemote_loop PROBE_TIMEOUT_MS network).
Local Abbreviation providerTask :=
  (Server.providerTask PROBE_TIMEOUT_MS network Math_random).
Local Abbreviation probeProviderFull :=
  (Cycle.probeProviderFull PROBE_TIMEOUT_MS network).

(** A probe leaves the store alone: only [recordResult] writes to it. *)
Lemma probeRemote_history provider remote w :
  history (probeRemote provider remote w).2 = history w.
Proof.
  unfold Server.probeRemote. by destruct (Prober.probeServer _ _ _ _).
Qed.

Lemma probeMultiRemote_loop_dom provider cutoff shuffled :
  ∀ hitRed w,
    dom (history (probeMultiRemote_loop provider cutoff shuffled hitRed w).2)
    = dom (history w).
Proof.
  induction shuffled as [|remote rest IH]; intros hitRed w; simpl; [done|].
  destruct hitRed.
  - rewrite IH. simpl. apply StoreMore.recordResult_dom.
  - pose proof (probeRemote_history provider remote w) as Hhist.
    destruct (probeRemote provider remote w) as [[result|e] w1]; simpl in *.
    + rewrite IH. simpl. by rewrite StoreMore.recordResult_dom, Hhist.
    + by rewrite Hhist.
Qed.

Lemma providerTask_dom provider cutoff w :
  dom (history (providerTask provider cutoff w).2) = dom (history w).
Proof.
  assert (Hmulti : dom (history (Server.probeMultiRemote PROBE_TIMEOUT_MS network
                                   Math_random provider cutoff w).2)
                   = dom (history w)).
  { unfold Server.probeMultiRemote.
    destruct (shuffle Math_random (remotes provider) (drawn w)) as [shuffled drawn'].
    by rewrite probeMultiRemote_loop_dom. }
  unfold Server.providerTask.
  destruct (remotes provider) as [|remote [|? ?]]; [done| |done].
  pose proof (probeRemote_history provider remote w) as Hhist.
  destruct (probeRemote provider remote w) as [[result|e] w1]; simpl in *.
  - by rewrite StoreMore.recordResult_dom, Hhist.
  - by rewrite Hhist.
Qed.

(** X19. With a timeout that is not negative and calls that take time,
    the task of a provider in a cycle always completes without raising,
    whatever its probes meet; it creates and removes no key of the store,
    and it leaves every series ordered by time, with no entry stamped
    later than the clock. *)
Theorem provider_task_keeps_store provider cutoff w :
  0 ≤ PROBE_TIMEOUT_MS →
  (∀ serverConfig now, time_passes (network serverConfig now)) →
  world_ok w →
  ∃ w', providerTask provider cutoff w = (Fulfilled tt, w') ∧
        world_ok w' ∧ dom (history w') = dom (history w).
Proof.
  intros Htimeout Hnet Hok.
  destruct (SchedulerFacts.providerTask_world_ok PROBE_TIMEOUT_MS network
              Math_random Htimeout Hnet provider cutoff w Hok) as (w' & Htask & Hok').
  exists w'. split_and!; [done..|].
  pose proof (providerTask_dom provider cutoff w) as Hdom.
  by rewrite Htask in Hdom.
Qed.

Lemma record_settled_series_upto provider now cutoff probes :
  (∀ probe, probe ∈ probes →
     ∃ result settled,
       probe.2 = (Fulfilled result, settled) ∧ timestamp result = now) →
  ∀ history,
    series_upto now history →
    series_upto now (foldl (record_settled provider cutoff) history probes).
Proof.
  induction probes as [|[remote [settled at_]] probes IH];
    intros Hall history Hok; simpl; [done|].
  destruct (Hall (remote, (settled, at_))) as (result & ? & [= -> <-] & Hstamp);
    [by left|].
  apply IH; [intros probe Hin; apply Hall; by right|]. simpl.
  rewrite <- Hstamp. apply SchedulerFacts.recordResult_series_upto.
  by rewrite Hstamp.
Qed.

Lemma foldl_max_le (clock : Z) clocks : clock ≤ foldl Z.max clock clocks.
Proof.
  revert clock. induction clocks as [|c clocks IH]; intros clock; simpl; [lia|].
  etrans; [|apply IH]. lia.
Qed.

(** X20. The on-demand full probe never turns the clock back and leaves
    every series ordered by time, with no entry stamped later than the
    clock: all its results carry the time of the call, and the series they
    are appended to held nothing later. *)
Theorem full_probe_keeps_order provider w :
  world_ok w →
  world_ok (probeProviderFull provider w) ∧
  clock w ≤ clock (probeProviderFull provider w).
Proof.
  intros Hok.
  assert (Hclock : clock w ≤ clock (probeProviderFull provider w))
    by apply foldl_max_le.
  split; [|done]. unfold world_ok.
  eapply SchedulerFacts.series_upto_mono; [exact Hclock|].
  unfold Cycle.probeProviderFull. simpl.
  apply record_settled_series_upto; [|done].
  intros probe Hprobe.
  destruct (full_probes_settle PROBE_TIMEOUT_MS network provider (clock w) probe
              Hprobe) as (result & settled & ? & _ & ? & _).
  by exists result, settled.
Qed.

End invariants.

Lemma network_B_down_time_passes serverConfig now :
  time_passes (network_B_down serverConfig now).
Proof.
  unfold network_B_down, time_passes.
  destruct (String.eqb _ _); split_and!; try intros t; by vm_compute.
Qed.

Lemma world_ABC_ok : world_ok world_ABC.
Proof.
  intros key checks Hkey.
  apply HistoryFacts.initHistory_empty in Hkey as ->. split; constructor.
Qed.

Lemma provider_task_keeps_store_witness :
  ∃ w',
    Server.providerTask 10000 network_B_down random_three_quarters
      provider_ABC cutoff_ABC world_ABC = (Fulfilled tt, w') ∧
    world_ok w' ∧ dom (history w') = dom (history world_ABC).
Proof.
  apply (provider_task_keeps_store 10000 network_B_down random_three_quarters).
  - lia.
  - apply network_B_down_time_passes.
  - apply world_ABC_ok.
Defined.

Lemma full_probe_keeps_order_witness :
  world_ok (Cycle.probeProviderFull 10000 network_B_down provider_ABC world_ABC).
Proof.
  apply (full_probe_keeps_order 10000 network_B_down provider_ABC world_ABC).
  apply world_ABC_ok.
Defined.

End SchedulerMore.

(** ** Further properties of the aggregator and of the status response *)

Module AggregatorMore.
Import Js Status Server Spec Scenarios Snapshot Spec2 Scenarios2.

(** The loop of [worstStatus] only replaces its candidate by a strictly
    worse element. *)
Lemma foldl_worse_strict l :
  ∀ w, foldl worse w l = w ∨
       (foldl worse w l ∈ l ∧ priority (foldl worse w l) < priority w).
Proof.
  induction l as [|x l IH]; intros w; simpl; [by left|].
  destruct (IH (worse w x)) as [->|[Hin Hlt]].
  - unfold worse. case_bool_decide; [right; split; [by left|done]|by left].
  - right. split; [by right|]. rewrite StatusFacts.worse_priority in Hlt. lia.
Qed.

Lemma worstStatus_down l : worstStatus l = "down" ↔ "down" ∈ l.
Proof.
  unfold worstStatus. split.
  - intros Hw. destruct (StatusFacts.foldl_worse_elem l "unknown") as [E|Hin].
    + congruence.
    + by rewrite Hw in Hin.
  - intros Hin. symmetry. apply StatusFacts.priority_inj_below; [|done].
    pose proof (StatusFacts.foldl_worse_lower_bound l "unknown" "down" Hin) as Hle.
    pose proof (StatusFacts.priority_le_4 (foldl worse "unknown" l)) as Hge.
    change (priority "down") with 0 in *. lia.
Qed.

Lemma worstStatus_not_empty l : String.eqb (worstStatus l) "" = false.
Proof.
  apply String.eqb_neq. unfold worstStatus. intros Hw.
  destruct (foldl_worse_strict l "unknown") as [E|[_ Hlt]].
  - congruence.
  - rewrite Hw in Hlt. by vm_compute in Hlt.
Qed.

Lemma d_status_latest history now provider remote :
  d_status (buildRemoteDetail history now provider remote)
  = default "unknown" (latest_status history provider remote).
Proof.
  unfold buildRemoteDetail, latest_status, series_of. simpl.
  by destruct (last _).
Qed.

(** X21. In the status response the aggregate status of a provider is
    down exactly when the latest stored check of one of its remotes is
    down; it is at least as bad as the latest status of each remote; and
    it is unknown when no remote has a stored check, in particular for a
    provider without remotes. *)
Theorem aggregate_status_of_latest history now provider :
  let summary := buildProviderSummary history now provider in
  (s_aggregateStatus summary = "down" ↔
   ∃ remote, remote ∈ remotes provider ∧
             latest_status history provider remote = Some "down") ∧
  (∀ remote, remote ∈ remotes provider →
     priority (s_aggregateStatus summary)
     ≤ priority (default "unknown" (latest_status history provider remote))) ∧
  ((∀ remote, remote ∈ remotes provider →
      latest_status history provider remote = None) →
   s_aggregateStatus summary = "unknown").
Proof.
  intros summary.
  assert (Hagg : s_aggregateStatus summary =
                 worstStatus ((λ remote,
                                 default "unknown"
                                   (latest_status history provider remote))
                              <$> remotes provider)).
  { unfold summary, buildProviderSummary. simpl. rewrite <- list_fmap_compose.
    f_equal. apply list_fmap_ext. intros i remote _. apply d_status_latest. }
  rewrite Hagg. split_and!.
  - rewrite worstStatus_down, list_elem_of_fmap. split.
    + intros (remote & Hdown & Hin). exists remote. split; [done|].
      destruct (latest_status history provider remote) as [s|]; simpl in *;
        congruence.
    + intros (remote & Hin & Hdown). exists remote. by rewrite Hdown.
  - intros remote Hin. apply StatusFacts.foldl_worse_lower_bound.
    apply list_elem_of_fmap. by exists remote.
  - intros Hnone. unfold worstStatus.
    destruct (StatusFacts.foldl_worse_elem
                ((λ remote, default "unknown"
                              (latest_status history provider remote))
                 <$> remotes provider) "unknown") as [E|Hin]; [done|].
    apply list_elem_of_fmap in Hin as (remote & -> & Hin).
    by rewrite (Hnone remote Hin).
Qed.

Lemma aggregate_status_of_latest_witness :
  s_aggregateStatus (buildProviderSummary store_ABC 1700000000000 provider_ABC)
  = "down".
Proof.
  apply (proj2 (proj1 (aggregate_status_of_latest store_ABC 1700000000000
                         provider_ABC))).
  exists remote_B. split; [simpl; right; left|reflexivity].
Defined.

Lemma foldl_max_spec rest :
  ∀ first : Z,
    foldl Z.max first rest ∈ first :: rest ∧
    ∀ v, v ∈ first :: rest → v ≤ foldl Z.max first rest.
Proof.
  induction rest as [|x rest IH]; intros first; simpl.
  - split; [by left|]. intros v [->|Hin]%elem_of_cons; [lia|].
    by apply elem_of_nil in Hin.
  - destruct (IH (first `max` x)) as [Hin Hmax]. split.
    + apply elem_of_cons in Hin as [Hin|Hin]; [|by do 2 right].
      rewrite Hin. destruct (Z.max_spec first x) as [[_ ->]|[_ ->]];
        [right|]; left.
    + intros v Hv.
      assert (first `max` x ≤ foldl Z.max (first `max` x) rest)
        by (apply Hmax; left).
      apply elem_of_cons in Hv as [->|[->|Hv]%elem_of_cons]; [lia..|].
      apply Hmax. by right.
Qed.

(** X22. The worst latency of a provider in the status response is the
    largest of the latencies of its remote entries: it is the latency of
    one of them and none is larger. It is null exactly when no remote
    entry has a latency. *)
Theorem worst_latency_is_max history now provider :
  let summary := buildProviderSummary history now provider in
  (s_worstLatencyMs summary = None ↔
   ∀ detail, detail ∈ s_remotes summary → d_latencyMs detail = None) ∧
  (∀ m, s_worstLatencyMs summary = Some m →
     (∃ detail, detail ∈ s_remotes summary ∧ d_latencyMs detail = Some m) ∧
     ∀ detail l, detail ∈ s_remotes summary → d_latencyMs detail = Some l →
                 l ≤ m).
Proof.
  intros summary. unfold summary, buildProviderSummary. simpl.
  generalize (buildRemoteDetail history now provider <$> remotes provider).
  intros details.
  assert (Hin : ∀ l, l ∈ omap d_latencyMs details ↔
                     ∃ detail, detail ∈ details ∧ d_latencyMs detail = Some l)
    by (intros l; apply list_elem_of_omap).
  destruct (omap d_latencyMs details) as [|first rest] eqn:Hlat.
  - rewrite decide_False by (simpl; lia). split; [|done]. split; [|done].
    intros _ detail Hdetail.
    destruct (d_latencyMs detail) as [l|] eqn:Hl; [|done].
    assert (l ∈ []) as Hnil%elem_of_nil by (apply Hin; by exists detail). done.
  - rewrite decide_True by (simpl; lia). simpl. split.
    + split; [done|]. intros Hnone.
      destruct (proj1 (Hin first)) as (detail & Hdetail & Hl); [by left|].
      rewrite (Hnone detail Hdetail) in Hl. done.
    + intros m [= <-]. destruct (foldl_max_spec rest first) as [Hmem Hmax].
      split; [by apply Hin|].
      intros detail l Hdetail Hl. apply Hmax, Hin. by exists detail.
Qed.

Lemma worst_latency_is_max_witness :
  s_worstLatencyMs (buildProviderSummary store_ABC 1700000000000 provider_ABC)
  = Some 80 ∧
  s_worstLatencyMs (buildProviderSummary (initHistory [provider_ABC])
                      1700000000000 provider_ABC) = None.
Proof.
  split; [reflexivity|].
  apply (proj1 (worst_latency_is_max (initHistory [provider_ABC]) 1700000000000
                  provider_ABC)).
  intros detail Hdetail. simpl in Hdetail.
  repeat (apply elem_of_cons in Hdetail as [->|Hdetail]; [by vm_compute|]).
  by apply elem_of_nil in Hdetail.
Defined.

Lemma hour_tick checks now k i :
  i = 23 - Z.of_nat k →
  (let hourStart := now - (i + 1) * 3600000 in
   let hourEnd := now - i * 3600000 in
   let inHour :=
     filter (λ c, timestamp c >= hourStart ∧ timestamp c < hourEnd) checks in
   if decide (length inHour = 0%nat) then {| tick_status := "unknown" |}
   else {| tick_status := worstStatus (status <$> inHour) |})
  = {| tick_status := worstStatus (status <$> bucket checks now k) |}.
Proof.
  intros ->. cbv zeta.
  assert (Hbucket :
            filter (λ c, timestamp c >= now - (23 - Z.of_nat k + 1) * 3600000 ∧
                         timestamp c < now - (23 - Z.of_nat k) * 3600000) checks
            = bucket checks now k).
  { unfold bucket. apply list_filter_iff. intros c. lia. }
  rewrite Hbucket. case_decide as Hempty; [|done].
  by apply nil_length_inv in Hempty as ->.
Qed.

Lemma downsampleToHours_lookup checks now k :
  (k < 24)%nat →
  downsampleToHours checks now !! k
  = Some {| tick_status := worstStatus (status <$> bucket checks now k) |}.
Proof.
  intros Hk. unfold downsampleToHours.
  rewrite list_lookup_fmap, reverse_lookup by (rewrite length_seqZ; lia).
  rewrite length_seqZ, lookup_seqZ_lt by lia.
  change (?f <$> Some ?x) with (Some (f x)). f_equal.
  apply (hour_tick checks now k (0 + Z.of_nat (Z.to_nat 24 - S k))). lia.
Qed.

(** X23. The hourly history of a series has 24 ticks, the oldest hour
    first. Tick [k] is the worst status among the checks stamped from
    [24 − k] hours before now (included) to [23 − k] hours before now
    (excluded), and unknown when there is none; so it is down exactly when
    one of these checks is down. A check stamped at the time of the call
    or later, or more than 24 hours before it, shows in no tick. *)
Theorem downsample_hour_buckets checks now :
  length (downsampleToHours checks now) = 24%nat ∧
  (∀ k, (k < 24)%nat →
     tick_status <$> downsampleToHours checks now !! k
     = Some (worstStatus (status <$> bucket checks now k)) ∧
     (bucket checks now k = [] →
      tick_status <$> downsampleToHours checks now !! k = Some "unknown") ∧
     (tick_status <$> downsampleToHours checks now !! k = Some "down" ↔
      ∃ c, c ∈ checks ∧ status c = "down" ∧
           now - (24 - Z.of_nat k) * 3600000 ≤ timestamp c ∧
           timestamp c < now - (23 - Z.of_nat k) * 3600000)) ∧
  downsampleToHours checks now
  = downsampleToHours
      (filter (λ c, now - 24 * 3600000 ≤ timestamp c ∧ timestamp c < now) checks)
      now.
Proof.
  split_and!.
  - unfold downsampleToHours. by rewrite length_fmap, length_reverse, length_seqZ.
  - intros k Hk. rewrite downsampleToHours_lookup by done. simpl. split_and!.
    + done.
    + by intros ->.
    + split.
      * intros [= Hdown]. apply worstStatus_down in Hdown.
        apply list_elem_of_fmap in Hdown as (c & Hstatus & Hc).
        unfold bucket in Hc. apply list_elem_of_filter in Hc as [Hrange Hc].
        exists c. split_and!; [done|done|lia|lia].
      * intros (c & Hc & Hstatus & Hlo & Hhi). f_equal.
        apply worstStatus_down, list_elem_of_fmap. exists c. split; [done|].
        unfold bucket. apply list_elem_of_filter. split; [lia|done].
  - apply list_eq. intros k. destruct (decide (k < 24)%nat) as [Hk|Hk].
    + rewrite !downsampleToHours_lookup by done. do 4 f_equal.
      unfold bucket. rewrite list_filter_filter. apply list_filter_iff.
      intros c. lia.
    + unfold downsampleToHours.
      rewrite !lookup_ge_None_2; [done|..];
        rewrite length_fmap, length_reverse, length_seqZ; lia.
Qed.

Lemma downsample_hour_buckets_witness :
  tick_status <$> downsampleToHours [down_at an_hour_old; check_at 1700000000000]
                    1700000000000 !! 23%nat = Some "down" ∧
  tick_status <$> downsampleToHours [down_at an_hour_old; check_at 1700000000000]
                    1700000000000 !! 22%nat = Some "unknown".
Proof.
  destruct (downsample_hour_buckets [down_at an_hour_old; check_at 1700000000000]
              1700000000000) as (_ & Hticks & _).
  split.
  - apply (Hticks 23%nat); [lia|]. exists (down_at an_hour_old).
    split_and!; [left|reflexivity|by vm_compute..].
  - apply (Hticks 22%nat); [lia|reflexivity].
Defined.

Lemma tick_or_unknown_downsampled checks now h :
  (h < 24)%nat →
  tick_or_unknown (downsampleToHours checks now) h
  = worstStatus (status <$> bucket checks now h).
Proof.
  intros Hh. unfold tick_or_unknown.
  rewrite downsampleToHours_lookup by done. simpl.
  by rewrite worstStatus_not_empty.
Qed.

(** X24. The history of a provider in the status response has 24 ticks,
    and its tick for an hour is down exactly when some remote of the
    provider has a check with status down stamped in that hour. *)
Theorem aggregate_history_down_iff history now provider h :
  (h < 24)%nat →
  let summary := buildProviderSummary history now provider in
  length (s_history summary) = 24%nat ∧
  (tick_status <$> s_history summary !! h = Some "down" ↔
   ∃ remote c,
     remote ∈ remotes provider ∧
     c ∈ bucket (series_of history provider remote) now h ∧ status c = "down").
Proof.
  intros Hh summary. unfold summary, buildProviderSummary. cbn [s_history].
  split; [by rewrite length_fmap, length_seq|].
  rewrite list_lookup_fmap, lookup_seq_lt by done.
  change (?f <$> Some ?x) with (Some (f x)). cbn [tick_status fmap option_fmap option_map].
  change (0 + h)%nat with h. rewrite <- list_fmap_compose.
  assert (Hticks :
            (λ r, tick_or_unknown (d_history r) h)
              ∘ buildRemoteDetail history now provider <$> remotes provider
            = (λ remote,
                 worstStatus
                   (status <$> bucket (series_of history provider remote) now h))
              <$> remotes provider).
  { apply list_fmap_ext. intros i remote _. simpl.
    by rewrite tick_or_unknown_downsampled. }
  rewrite Hticks. split.
  - intros [= Hdown]. apply worstStatus_down in Hdown.
    apply list_elem_of_fmap in Hdown as (remote & Hdown & Hin).
    symmetry in Hdown. apply worstStatus_down in Hdown.
    apply list_elem_of_fmap in Hdown as (c & Hstatus & Hc).
    by exists remote, c.
  - intros (remote & c & Hin & Hc & Hstatus). f_equal.
    apply worstStatus_down, list_elem_of_fmap. exists remote. split; [|done].
    symmetry. apply worstStatus_down, list_elem_of_fmap. by exists c.
Qed.

Lemma aggregate_history_down_iff_witness :
  tick_status <$> s_history (buildProviderSummary store_ABC 1700000000000
                               provider_ABC) !! 23%nat = Some "down".
Proof.
  apply (aggregate_history_down_iff store_ABC 1700000000000 provider_ABC 23);
    [lia|].
  exists remote_B, (down_at an_hour_old).
  split_and!; [simpl; right; left|vm_compute; left|reflexivity].
Defined.







Lemma worstStatus_is s statuses :
  priority s < 4 →
  worstStatus statuses = s ↔
  s ∈ statuses ∧ ∀ t, t ∈ statuses → priority s ≤ priority t.
Proof.
  intros Hs. unfold worstStatus. split.
  - intros Hw. split.
    + destruct (StatusFacts.foldl_worse_elem statuses "unknown") as [E|Hin].
      * rewrite Hw in E. rewrite E in Hs. by vm_compute in Hs.
      * by rewrite Hw in Hin.
    + intros t Ht. rewrite <- Hw. by apply StatusFacts.foldl_worse_lower_bound.
  - intros [Hin Hmin]. symmetry. apply StatusFacts.priority_inj_below; [|done].
    pose proof (StatusFacts.foldl_worse_lower_bound statuses "unknown" s Hin) as Hle.
    destruct (StatusFacts.foldl_worse_elem statuses "unknown") as [E|Hw].
    + rewrite E in Hle. change (priority "unknown") with 4 in Hle. lia.
    + specialize (Hmin _ Hw). lia.
Qed.

Lemma head_computeHealthIcons statuses :
  head (computeHealthIcons statuses) = head (colors_present statuses).
Proof.
  pose proof (AggregatorFacts.computeHealthIcons_eq statuses) as Heq.
  cbv zeta in Heq. rewrite Heq. destruct statuses as [|s statuses].
  - assert (colors_present [] = []) as -> by (by vm_compute). done.
  - destruct (colors_present (s :: statuses)) as [|worst rest]; [done|].
    destruct (Nat.min 3 (length (s :: statuses))) as [|m] eqn:Hm;
      [simpl in Hm; lia|].
    by destruct (S m - length (worst :: rest))%nat.
Qed.

Lemma head_colors_present c statuses :
  c ∈ PALETTE →
  head (colors_present statuses) = Some c ↔
  c ∈ colorOf <$> statuses ∧
  ∀ c', c' ∈ colorOf <$> statuses → colorRank c ≤ colorRank c'.
Proof.
  intros Hc.
  assert (Hsorted : StronglySorted rank_le (colors_present statuses))
    by apply AggregatorFacts.StronglySorted_filter, AggregatorFacts.PALETTE_sorted.
  assert (Hmem : ∀ c', c' ∈ colors_present statuses ↔ c' ∈ colorOf <$> statuses).
  { intros c'. unfold colors_present. rewrite list_elem_of_filter.
    split; [tauto|]. intros Hin. split; [done|].
    apply list_elem_of_fmap in Hin as (s & -> & _).
    apply AggregatorFacts.colorOf_palette. }
  pose proof (AggregatorFacts.colors_present_palette statuses) as Hpalette.
  destruct (colors_present statuses) as [|worst rest]; simpl.
  - split; [done|]. intros [Hin _]. apply Hmem in Hin. by apply elem_of_nil in Hin.
  - apply StronglySorted_inv in Hsorted as [_ Hall].
    rewrite Forall_forall in Hall. unfold rank_le in Hall. split.
    + intros [= ->]. split; [apply Hmem; left|]. intros c' Hc'.
      apply Hmem, elem_of_cons in Hc' as [->|Hc']; [lia|by apply Hall].
    + intros [Hin Hmin]. f_equal. apply AggregatorFacts.colorRank_inj_palette.
      * apply Hpalette. left.
      * done.
      * unfold rank_le.
        apply Hmem, elem_of_cons in Hin as [->|Hin]; [lia|by apply Hall].
      * apply Hmin, Hmem. left.
Qed.

Lemma colorOf_cases t :
  (t = "down" ∧ colorOf t = "red") ∨ (t = "unhealthy" ∧ colorOf t = "orange") ∨
  (t = "degraded" ∧ colorOf t = "yellow") ∨ (t = "healthy" ∧ colorOf t = "green") ∨
  (priority t = 4 ∧ colorOf t = "gray").
Proof.
  destruct (decide (t = "down")) as [->|?]; [by left|].
  destruct (decide (t = "unhealthy")) as [->|?]; [by right; left|].
  destruct (decide (t = "degraded")) as [->|?]; [by right; right; left|].
  destruct (decide (t = "healthy")) as [->|?]; [by right; right; right; left|].
  right; right; right; right.
  destruct (decide (t = "unknown")) as [->|?]; [done|].
  unfold priority, STATUS_PRIORITY, colorOf, statusToColor.
  rewrite !lookup_insert_ne by done. by rewrite !lookup_singleton_ne.
Qed.

(** Among down, unhealthy and degraded the order of the statuses is the
    order of their colours, and the colour tells the status. *)
Lemma rank_matches s t :
  s ∈ ["down"; "unhealthy"; "degraded"] →
  (priority s ≤ priority t ↔ colorRank (colorOf s) ≤ colorRank (colorOf t)) ∧
  (colorOf s = colorOf t → t = s).
Proof.
  rewrite !elem_of_cons, elem_of_nil. intros Hs.
  destruct (colorOf_cases t) as [[-> _]|[[-> _]|[[-> _]|[[-> _]|[Hp Hc]]]]];
    destruct_or!; subst s; try done; try compute_done;
    rewrite Hp, Hc; (split; [compute_done|by vm_compute]).
Qed.

(** X26. The icon summary agrees with the aggregate status on the three
    bad statuses: the aggregate status of a provider is down, unhealthy or
    degraded exactly when the first of its health icons is red, orange or
    yellow. *)
Theorem first_icon_matches_aggregate history now provider s :
  s ∈ ["down"; "unhealthy"; "degraded"] →
  let summary := buildProviderSummary history now provider in
  s_aggregateStatus summary = s ↔
  head (s_healthIcons summary) = Some (colorOf s).
Proof.
  intros Hs summary. unfold summary, buildProviderSummary.
  cbn [s_aggregateStatus s_healthIcons].
  generalize (d_status <$> (buildRemoteDetail history now provider
                              <$> remotes provider)).
  intros statuses.
  assert (Hlt : priority s < 4).
  { revert Hs. rewrite !elem_of_cons, elem_of_nil.
    intros Hs; destruct_or!; subst s; done. }
  rewrite head_computeHealthIcons, (worstStatus_is s statuses Hlt),
    (head_colors_present _ _ (AggregatorFacts.colorOf_palette s)).
  split.
  - intros [Hin Hmin]. split; [apply list_elem_of_fmap; by exists s|].
    intros c' (t & -> & Ht)%list_elem_of_fmap.
    apply (rank_matches s t Hs), Hmin, Ht.
  - intros [Hin Hmin].
    apply list_elem_of_fmap in Hin as (t & Hcolor & Ht).
    apply (rank_matches s t Hs) in Hcolor as ->. split; [done|].
    intros t' Ht'. apply (rank_matches s t' Hs), Hmin, list_elem_of_fmap.
    by exists t'.
Qed.

Lemma first_icon_matches_aggregate_witness :
  head (s_healthIcons (buildProviderSummary store_ABC 1700000000000 provider_ABC))
  = Some "red".
Proof.
  apply (first_icon_matches_aggregate store_ABC 1700000000000 provider_ABC
           "down"); [left|reflexivity].
Defined.

(** The agreement stops at healthy: a healthy remote beside one without a
    check gives the aggregate status healthy and a first icon that is
    gray, not green. *)
Example first_icon_gray_aggregate_healthy :
  worstStatus ["healthy"; "unknown"] = "healthy" ∧
  computeHealthIcons ["healthy"; "unknown"] = ["gray"; "green"].
Proof. split; reflexivity. Qed.




End AggregatorMore.

(** ** Properties of the on-demand probe endpoint *)

Module ApiFacts.
Import Js Status Server Spec Scenarios Cycle Api Spec2 Scenarios2.

Lemma find_provider_Some providers name provider :
  find_provider providers name = Some provider →
  provider ∈ providers ∧ registryName provider = name.
Proof.
  unfold find_provider. intros Hhead%head_Some_elem_of.
  apply list_elem_of_filter in Hhead as [? ?]. done.
Qed.

Lemma find_provider_None providers name :
  find_provider providers name = None →
  ∀ provider, provider ∈ providers → registryName provider ≠ name.
Proof.
  unfold find_provider. intros Hnone%head_None provider Hin Hname.
  assert (provider ∈ filter (λ p, registryName p = name) providers) as Hmem
    by (by apply list_elem_of_filter).
  rewrite Hnone in Hmem. by apply elem_of_nil in Hmem.
Qed.

Lemma freshly_probed_status history now provider remote t :
  freshly_probed history (historyKey (registryName provider) (url remote)) t →
  d_status (buildRemoteDetail history now provider remote) ∈ PROBED_STATUSES.
Proof.
  intros (kept & result & Hkey & _ & Hstatus).
  unfold buildRemoteDetail. cbn [d_status]. rewrite Hkey.
  change (default [] (Some ?l)) with l. by rewrite last_snoc.
Qed.

(** X28. The on-demand probe endpoint answers 404, and probes nothing,
    exactly when no provider has the requested name. Otherwise, when the
    store has a series for every configured remote, the answer is for the
    first provider of that name, and the status it reports for each of its
    remotes is that of the fresh probe: healthy, degraded, unhealthy or
    down, never unknown; so is the aggregate status when the provider has
    a remote. *)
Theorem post_probe_reports_fresh PROBE_TIMEOUT_MS network providers name w :
  store_covers providers (history w) →
  match post_probe PROBE_TIMEOUT_MS network providers name w with
  | (NotFound, w') =>
      w' = w ∧ ∀ provider, provider ∈ providers → registryName provider ≠ name
  | (Json body, w') =>
      ∃ provider,
        provider ∈ providers ∧ registryName provider = name ∧
        p_registryName body = name ∧
        w' = probeProviderFull PROBE_TIMEOUT_MS network provider w ∧
        length (p_remotes body) = length (remotes provider) ∧
        Forall (λ detail, d_status detail ∈ PROBED_STATUSES) (p_remotes body) ∧
        (remotes provider ≠ [] → p_aggregateStatus body ∈ PROBED_STATUSES)
  end.
Proof.
  intros Hcovers. unfold post_probe.
  destruct (find_provider providers name) as [provider|] eqn:Hfind.
  - apply find_provider_Some in Hfind as [Hin Hname].
    exists provider. cbn [p_remotes p_registryName p_aggregateStatus].
    split_and!; [done..|by rewrite length_fmap| |].
    + apply Forall_fmap, Forall_forall. intros remote Hremote.
      eapply freshly_probed_status.
      by apply (SchedulerMore.full_probes_fresh PROBE_TIMEOUT_MS network provider w
                  remote Hremote), Hcovers.
    + intros Hsome. cbn [p_aggregateStatus].
      set (w' := probeProviderFull PROBE_TIMEOUT_MS network provider w).
      set (statuses := d_status <$> (buildRemoteDetail (history w') (clock w')
                                       provider <$> remotes provider)).
      assert (Hall : ∀ s, s ∈ statuses → s ∈ PROBED_STATUSES).
      { intros s (detail & -> & (remote & -> & Hremote)%list_elem_of_fmap)
                 %list_elem_of_fmap.
        eapply freshly_probed_status.
        by apply (SchedulerMore.full_probes_fresh PROBE_TIMEOUT_MS network provider
                    w remote Hremote), Hcovers. }
      destruct (AggregatorMore.foldl_worse_strict statuses "unknown")
        as [E|[Hmem _]]; [|by apply Hall].
      destruct (remotes provider) as [|remote rest] eqn:Hremotes; [done|].
      assert (Hfirst : d_status (buildRemoteDetail (history w') (clock w')
                                   provider remote) ∈ statuses).
      { unfold statuses. rewrite !fmap_cons. left. }
      pose proof (StatusFacts.foldl_worse_lower_bound statuses "unknown" _ Hfirst)
        as Hle.
      apply Hall in Hfirst. rewrite E in Hle. revert Hfirst Hle.
      generalize (d_status (buildRemoteDetail (history w') (clock w')
                              provider remote)).
      intros s. unfold PROBED_STATUSES. rewrite !elem_of_cons, elem_of_nil.
      intros Hs; destruct_or!; subst s; try done; by vm_compute.
  - split; [done|]. by apply find_provider_None.
Qed.

Lemma post_probe_reports_fresh_witness :
  ∃ body w',
    post_probe 10000 network_B_down [provider_x; provider_ABC] "com.example/abc"
      {| history := initHistory [provider_x; provider_ABC];
         clock := 1700000000000; drawn := 0; probed := [] |}
    = (Json body, w') ∧
    p_aggregateStatus body = "down" ∧
    Forall (λ detail, d_status detail ∈ PROBED_STATUSES) (p_remotes body).
Proof.
  pose proof (post_probe_reports_fresh 10000 network_B_down
                [provider_x; provider_ABC] "com.example/abc"
                {| history := initHistory [provider_x; provider_ABC];
                   clock := 1700000000000; drawn := 0; probed := [] |}) as Hpost.
  destruct (post_probe _ _ _ _ _) as [[|body] w'] eqn:Hreply;
    [by vm_compute in Hreply|].
  exists body, w'. split; [done|]. split.
  - vm_compute in Hreply. by injection Hreply as <- _.
  - destruct Hpost as (provider & _ & _ & _ & _ & _ & Hall & _); [|done].
    intros provider remote Hp Hr. simpl.
    by apply StoreMore.initHistory_covers.
Defined.

End ApiFacts.
